(** * The conjecture engine of Hypothesis: a shallow embedding

    Source: [hypothesis/internal/conjecture/engine.py].

    The engine drives a user test function through byte buffers.  It
    records every executed buffer in a prefix tree, keeps a bounded pool
    of mutation targets, and enforces the run budgets.  This file embeds
    the functions of [engine.py] as Rocq functions over an explicit
    runner state and proves properties of them.

    Conventions.
    - A byte is a [Z] in [0, 256); a buffer is a [list Z].
    - Python dictionaries are [gmap]s, Python sets are [gset]s, the node
      array [self.tree] is a [list] indexed with [!!].
    - A Python exception is an [Abort] outcome carrying the state at the
      point of the raise; [RunIsComplete] is one of these exceptions.
    - [random.Random] is a tape of raw draws with a cursor; every method
      consumes one raw draw and maps it into the requested range.
    - Clock readings ([benchmark_time()]) are inputs, in microseconds. *)

From stdpp Require Import gmap list sorting.
From Stdlib Require Import ZArith Lia.

Local Open Scope Z_scope.

(** ** Enumerations *)

Inductive Status := OVERRUN | INVALID | VALID | INTERESTING.

Definition status_value (s : Status) : Z :=
  match s with OVERRUN => 0 | INVALID => 1 | VALID => 2 | INTERESTING => 3 end.

Definition status_eqb (a b : Status) : bool := status_value a =? status_value b.
Definition status_ltb (a b : Status) : bool := status_value a <? status_value b.

#[global] Instance Status_eq_dec : EqDecision Status.
Proof. solve_decision. Defined.

Module ExitReason.
Inductive t := max_examples | max_iterations | timeout | max_shrinks | finished | flaky.
#[global] Instance eq_dec : EqDecision t.
Proof. solve_decision. Defined.
End ExitReason.

Module HealthCheck.
Inductive t := hung_test | data_too_large | filter_too_much | too_slow | large_base_example.
#[global] Instance eq_dec : EqDecision t.
Proof. solve_decision. Defined.
End HealthCheck.

(** Python exceptions that can leave a function of the engine.
    [Diverges] is not a Python exception: it marks a loop of the model
    that ran out of fuel. *)
Inductive Exn :=
| RunIsComplete
| AssertionError
| KeyError
| IndexError
| TypeError
| ValueError
| FailedHealthCheck (label : HealthCheck.t)
| StopTest
| UserException
| Diverges.

Definition HUNG_TEST_TIME_LIMIT : Z := 5 * 60 * 1000000.
Definition MAX_SHRINKS : nat := 500.
Definition CACHE_RESET_FREQUENCY : nat := 1000.
Definition MUTATION_POOL_SIZE : nat := 100.

(** ** Byte strings *)

Definition is_byte (b : Z) : Prop := 0 <= b < 256.

(** Python compares [bytes] lexicographically; a proper prefix is smaller. *)
Fixpoint bytes_ltb (xs ys : list Z) : bool :=
  match xs, ys with
  | [], [] => false
  | [], _ :: _ => true
  | _ :: _, [] => false
  | x :: xs', y :: ys' => (x <? y) || ((x =? y) && bytes_ltb xs' ys')
  end.

Fixpoint bytes_eqb (xs ys : list Z) : bool :=
  match xs, ys with
  | [], [] => true
  | x :: xs', y :: ys' => (x =? y) && bytes_eqb xs' ys'
  | _, _ => false
  end.

Definition bytes_leb (xs ys : list Z) : bool := bytes_ltb xs ys || bytes_eqb xs ys.

(** [buf[i : i + n]]: Python slices truncate at the end of the buffer. *)
Definition slice {A} (buf : list A) (i n : nat) : list A := take n (drop i buf).

(** [hbytes(n)]: [n] zero bytes. *)
Definition zeros (n : nat) : list Z := replicate n 0.

(** Modelled from the spec: [int_to_bytes] lives in the compat module,
    which is not part of the source at hand.  The spec has [uniform]
    return [n] random bytes; [int_to_bytes(v, n)] is [v] written
    big-endian in [n] bytes. *)
Fixpoint int_to_bytes (v : Z) (n : nat) : list Z :=
  match n with
  | O => []
  | S n' => (v / 256 ^ Z.of_nat n') `mod` 256 :: int_to_bytes v n'
  end.

(** Modelled from the spec: [sort_key] lives in the shrinker module,
    which is not part of the source at hand.  The spec gives
    [sort_key(buffer) = (length, buffer)]: shorter is smaller, ties are
    broken lexicographically. *)
Definition sort_key (buf : list Z) : nat * list Z := (length buf, buf).

Definition sort_key_ltb (a b : nat * list Z) : bool :=
  (a.1 <? b.1)%nat || ((a.1 =? b.1)%nat && bytes_ltb a.2 b.2).

Definition sort_key_leb (a b : nat * list Z) : bool :=
  (a.1 <? b.1)%nat || ((a.1 =? b.1)%nat && bytes_leb a.2 b.2).

(** ** The random source *)

Record Random := mkRandom { tape : nat → Z; cursor : nat }.

Definition getraw (r : Random) : Z * Random :=
  (tape r (cursor r), mkRandom (tape r) (S (cursor r))).

(** [random.randrange(start, stop)]: a value of [start, stop), for
    [start < stop].  On an empty range Python raises [ValueError]; the
    callers that can pass one raise it themselves before they draw
    ([pop_random] on an empty list, [flip_bit] with [n = 0],
    [generate_novel_prefix] at a node whose mask is -1).  The other
    callers draw from [0, 256), from [0, x] or [x, 255] for a byte [x],
    or from the indices of a list; [random.choice] and [random.sample]
    raise their own errors on an empty sequence. *)
Definition randrange (r : Random) (start stop : Z) : Z * Random :=
  let '(x, r') := getraw r in (start + x `mod` (stop - start), r').

(** [random.randint(a, b)]: a value of [a, b], both ends included. *)
Definition randint (r : Random) (a b : Z) : Z * Random := randrange r a (b + 1).

(** [random.getrandbits(k)]. *)
Definition getrandbits (r : Random) (k : nat) : Z * Random :=
  let '(x, r') := getraw r in (x `mod` 2 ^ Z.of_nat k, r').

(** [random.choice(seq)]; [None] stands for the [IndexError] on an
    empty sequence. *)
Definition choice {A} (r : Random) (seq : list A) : option A * Random :=
  let '(i, r') := randrange r 0 (Z.of_nat (length seq)) in
  (seq !! Z.to_nat i, r').


Definition uniform (random : Random) (n : nat) : list Z * Random :=
  let '(v, r') := getrandbits random (n * 8) in (int_to_bytes v n, r').

(** ** Test data

    A [ConjectureData] is the data object of one test case.  The class is
    defined outside [engine.py]; the record has the attributes that
    [engine.py] reads or writes. *)

Record ConjectureData := mkData {
  buffer : list Z;
  status : Status;
  forced_indices : gset nat;
  masked_indices : gmap nat Z;
  all_block_bounds : list (nat * nat);
  block_starts : gmap nat (list nat);
  interesting_origin : nat;
  draw_times : list Z;
  index : nat;
  depth : nat;
  hit_zero_bound : bool;
}.

(** ** Module-level helpers *)

Definition _is_simple_mask (mask : Z) : bool := Z.land mask (mask + 1) =? 0.

Fixpoint _draw_predecessor_loop (rnd : Random) (xs : list Z) (any_strict : bool)
    : list Z * Random :=
  match xs with
  | [] => ([], rnd)
  | x :: xs' =>
      if negb any_strict then
        let '(c, rnd1) := randint rnd 0 x in
        let any_strict' := if c <? x then true else any_strict in
        let '(r, rnd2) := _draw_predecessor_loop rnd1 xs' any_strict' in
        (c :: r, rnd2)
      else
        let '(c, rnd1) := randint rnd 0 255 in
        let '(r, rnd2) := _draw_predecessor_loop rnd1 xs' any_strict in
        (c :: r, rnd2)
  end.

Definition _draw_predecessor (rnd : Random) (xs : list Z) : list Z * Random :=
  _draw_predecessor_loop rnd xs false.

Fixpoint _draw_successor_loop (rnd : Random) (xs : list Z) (any_strict : bool)
    : list Z * Random :=
  match xs with
  | [] => ([], rnd)
  | x :: xs' =>
      if negb any_strict then
        let '(c, rnd1) := randint rnd x 255 in
        let any_strict' := if x <? c then true else any_strict in
        let '(r, rnd2) := _draw_successor_loop rnd1 xs' any_strict' in
        (c :: r, rnd2)
      else
        let '(c, rnd1) := randint rnd 0 255 in
        let '(r, rnd2) := _draw_successor_loop rnd1 xs' any_strict in
        (c :: r, rnd2)
  end.

Definition _draw_successor (rnd : Random) (xs : list Z) : list Z * Random :=
  _draw_successor_loop rnd xs false.

(** [pop_random(random, values)]: swap the chosen element with the last
    one and pop it.  The result is the popped element, the remaining
    list and the random source; [None] is the [ValueError] that
    [randrange(0, 0)] raises on an empty list. *)
Definition pop_random {A} (random : Random) (values : list A)
    : option (A * list A * Random) :=
  match last values with
  | None => None
  | Some lst =>
      let '(i, r') := randrange random 0 (Z.of_nat (length values)) in
      match values !! Z.to_nat i with
      | None => None
      | Some x => Some (x, removelast (<[Z.to_nat i := lst]> values), r')
      end
  end.

(** ** TargetSelector

    The selector shares the runner's [Random] object; the model passes
    the random source in and out of every method. *)

Module TargetSelector.

Record t := mk {
  best_status : Status;
  pool_size : nat;
  fresh_examples : list ConjectureData;
  used_examples : list ConjectureData;
}.

Definition init (pool_size : nat) : t := mk OVERRUN pool_size [] [].

Definition len (self : t) : nat :=
  (length (fresh_examples self) + length (used_examples self))%nat.

Definition reset (self : t) : t := mk (best_status self) (pool_size self) [] [].

(** [add] returns [inr AssertionError] when the final assertion
    [pool_size == len(self)] fails (or the eviction itself raises). *)
Definition add (self : t) (random : Random) (data : ConjectureData)
    : (t * Random) + Exn :=
  if status_eqb (status data) INTERESTING then inl (self, random)
  else if status_ltb (status data) (best_status self) then inl (self, random)
  else
    let self1 :=
      if status_ltb (best_status self) (status data)
      then reset (mk (status data) (pool_size self)
                     (fresh_examples self) (used_examples self))
      else self in
    let self2 := mk (best_status self1) (pool_size self1)
                    (fresh_examples self1 ++ [data]) (used_examples self1) in
    if (pool_size self2 <? len self2)%nat then
      match used_examples self2 with
      | _ :: _ =>
          match pop_random random (used_examples self2) with
          | None => inr ValueError
          | Some (_, used', r') =>
              let self3 := mk (best_status self2) (pool_size self2)
                              (fresh_examples self2) used' in
              if (pool_size self3 =? len self3)%nat then inl (self3, r')
              else inr AssertionError
          end
      | [] =>
          match pop_random random (fresh_examples self2) with
          | None => inr ValueError
          | Some (_, fresh', r') =>
              let self3 := mk (best_status self2) (pool_size self2)
                              fresh' (used_examples self2) in
              if (pool_size self3 =? len self3)%nat then inl (self3, r')
              else inr AssertionError
          end
      end
    else inl (self2, random).

(** [select]: [inr IndexError] is [random.choice] on an empty list. *)
Definition select (self : t) (random : Random)
    : (ConjectureData * t * Random) + Exn :=
  match fresh_examples self with
  | _ :: _ =>
      match pop_random random (fresh_examples self) with
      | None => inr ValueError
      | Some (result, fresh', r') =>
          inl (result,
               mk (best_status self) (pool_size self) fresh'
                  (used_examples self ++ [result]),
               r')
      end
  | [] =>
      match choice random (used_examples self) with
      | (Some result, r') => inl (result, self, r')
      | (None, _) => inr IndexError
      end
  end.

(** The selectors a run can build: [TargetSelector(random)] with the
    default pool size, followed by calls of [add] and [select] that
    return. *)
Inductive reachable : t → Prop :=
| reach_init : reachable (init MUTATION_POOL_SIZE)
| reach_add self random data self' random' :
    reachable self →
    add self random data = inl (self', random') →
    reachable self'
| reach_select self random result self' random' :
    reachable self →
    select self random = inl (result, self', random') →
    reachable self'.

End TargetSelector.

(** ** The prefix tree

    [self.tree] is an array of nodes: a branch is a dictionary from byte
    to child index, a leaf is the [ConjectureData] seen at the end of
    that path.  [Trie] groups the five attributes that
    [reset_tree_to_empty] re-creates together. *)

Inductive Node :=
| Branch (children : gmap Z nat)
| Leaf (data : ConjectureData).

Record Trie := mkTrie {
  tree : list Node;
  dead : gset nat;
  forced : gmap nat Z;
  masks : gmap nat Z;
  block_sizes : gmap nat Z;
}.

Definition reset_tree_to_empty : Trie := mkTrie [Branch ∅] ∅ ∅ ∅ ∅.

Definition set_tree (f : list Node → list Node) (t : Trie) : Trie :=
  mkTrie (f (tree t)) (dead t) (forced t) (masks t) (block_sizes t).
Definition set_dead (f : gset nat → gset nat) (t : Trie) : Trie :=
  mkTrie (tree t) (f (dead t)) (forced t) (masks t) (block_sizes t).
Definition set_forced (f : gmap nat Z → gmap nat Z) (t : Trie) : Trie :=
  mkTrie (tree t) (dead t) (f (forced t)) (masks t) (block_sizes t).
Definition set_masks (f : gmap nat Z → gmap nat Z) (t : Trie) : Trie :=
  mkTrie (tree t) (dead t) (forced t) (f (masks t)) (block_sizes t).
Definition set_block_sizes (f : gmap nat Z → gmap nat Z) (t : Trie) : Trie :=
  mkTrie (tree t) (dead t) (forced t) (masks t) (f (block_sizes t)).

(** A tree operation returns the new trie, or the exception raised
    together with the trie as the mutations left it. *)
Definition TrieResult (A : Type) : Type := (A * Trie) + (Exn * Trie).

(** The trie a result leaves behind, whether or not it raised. *)
Definition result_trie {A} (r : TrieResult A) : Trie :=
  match r with inl (_, t) => t | inr (_, t) => t end.

(** *** Recording a result ([test_function], the tree part)

    The first loop of [test_function]: walk [data.buffer], creating the
    missing nodes and noting forced and masked bytes.  The Python
    variable [tree_node] always aliases [self.tree[node_index]], so the
    model reads the node through [node_index].  Subscripting a leaf (a
    [ConjectureData]) raises [TypeError]. *)
Fixpoint walk_buffer (data : ConjectureData) (i : nat) (bs : list Z)
    (node_index : nat) (indices : list nat) (t : Trie)
    : TrieResult (nat * list nat) :=
  match bs with
  | [] => inl ((node_index, indices), t)
  | b :: bs' =>
      let indices := indices ++ [node_index] in
      let t1 := if bool_decide (i ∈ forced_indices data)
                then set_forced (<[node_index := b]>) t else t in
      let t2 := match masked_indices data !! i with
                | Some m => set_masks (<[node_index := m]>) t1
                | None => t1
                end in
      match tree t2 !! node_index with
      | None => inr (IndexError, t2)
      | Some (Leaf _) => inr (TypeError, t2)
      | Some (Branch children) =>
          let '(t3, next) :=
            match children !! b with
            | Some k => (t2, k)
            | None =>
                let k := length (tree t2) in
                (set_tree (λ tr, <[node_index := Branch (<[b := k]> children)]>
                                   (tr ++ [Branch ∅])) t2, k)
            end in
          match tree t3 !! next with
          | None => inr (IndexError, t3)
          | Some _ =>
              if bool_decide (next ∈ dead t3) then inl ((next, indices), t3)
              else walk_buffer data (S i) bs' next indices t3
          end
      end
  end.

(** [for u, v in data.all_block_bounds(): ...] *)
Fixpoint record_block_sizes (bounds : list (nat * nat)) (indices : list nat)
    (sizes : gmap nat Z) : gmap nat Z :=
  match bounds with
  | [] => sizes
  | (u, v) :: rest =>
      match indices !! u with
      | None => sizes
      | Some n => record_block_sizes rest indices (<[n := Z.of_nat v - Z.of_nat u]> sizes)
      end
  end.

(** [for j in reversed(indices): ...]; [js] is the reversed list. *)
Fixpoint review_dead (js : list nat) (t : Trie) : TrieResult unit :=
  match js with
  | [] => inl (tt, t)
  | j :: js' =>
      let mask := default 255 (masks t !! j) in
      if negb (_is_simple_mask mask) then inr (AssertionError, t)
      else
        let max_size := mask + 1 in
        match tree t !! j with
        | None => inr (IndexError, t)
        | Some (Leaf _) => inr (TypeError, t)
        | Some (Branch children) =>
            if (Z.of_nat (size children) <? max_size)
               && negb (bool_decide (is_Some (forced t !! j)))
            then inl (tt, t)
            else if forallb (λ kv, bool_decide (kv.2 ∈ dead t)) (map_to_list children)
            then review_dead js' (set_dead (λ d, {[j]} ∪ d) t)
            else inl (tt, t)
        end
  end.

(** [if data.status != Status.OVERRUN and node_index not in self.dead: ...] *)
Definition store_result (data : ConjectureData) (node_index : nat)
    (indices : list nat) (t : Trie) : TrieResult unit :=
  if negb (status_eqb (status data) OVERRUN)
     && negb (bool_decide (node_index ∈ dead t))
  then
    let t1 := set_dead (λ d, {[node_index]} ∪ d) t in
    if (node_index <? length (tree t1))%nat then
      review_dead (reverse indices)
        (set_tree (<[node_index := Leaf data]>) t1)
    else inr (IndexError, t1)
  else inl (tt, t).

(** Lines 233 to 313 of [test_function]. *)
Definition update_tree (cap : nat) (data : ConjectureData) (t : Trie)
    : TrieResult unit :=
  match walk_buffer data 0 (buffer data) 0 [] t with
  | inr e => inr e
  | inl ((node_index, indices), t1) =>
      let t2 := set_block_sizes
                  (record_block_sizes (all_block_bounds data) indices) t1 in
      let t3 := set_dead (λ d, list_to_set (drop cap indices) ∪ d) t2 in
      store_result data node_index indices t3
  end.

(** The tries a run can hold: the empty one, and any trie left by
    [update_tree], however it ended. *)
Inductive trie_reachable : Trie → Prop :=
| reach_empty : trie_reachable reset_tree_to_empty
| reach_update cap data t :
    trie_reachable t → trie_reachable (result_trie (update_tree cap data t)).

(** *** Looking a buffer up

    Both lookups replace the byte by the forced value of the node, if
    any, and then apply the mask of the node, if any. *)
Definition rewrite_byte (t : Trie) (node_index : nat) (b : Z) : Z :=
  let b := default b (forced t !! node_index) in
  match masks t !! node_index with
  | Some m => Z.land b m
  | None => b
  end.

Fixpoint prescreen_loop (t : Trie) (n k : nat) (bs : list Z) (node_index : nat)
    : bool + Exn :=
  match bs with
  | [] => inl false
  | b :: bs' =>
      if bool_decide (node_index ∈ dead t) then inl false
      else if match block_sizes t !! node_index with
              | Some s => Z.of_nat n <? Z.of_nat k + s
              | None => false
              end
      then inl false
      else
        let b := rewrite_byte t node_index b in
        match tree t !! node_index with
        | None => inr IndexError
        | Some (Leaf _) => inr TypeError
        | Some (Branch children) =>
            match children !! b with
            | None => inl true
            | Some next => prescreen_loop t n (S k) bs' next
            end
        end
  end.

Definition prescreen_buffer (t : Trie) (buffer : list Z) : bool + Exn :=
  prescreen_loop t (length buffer) 0 buffer 0.

(** The tree traversal of [cached_test_function]: [Hit d] is the
    [return node] inside the loop, [Miss] is every way of reaching the
    call of [test_function] below the loop. *)
Inductive CacheLookup := Hit (d : ConjectureData) | Miss.

Fixpoint cached_loop (t : Trie) (bs : list Z) (node_index : nat)
    : CacheLookup + Exn :=
  match bs with
  | [] => inl Miss
  | c :: bs' =>
      let c := rewrite_byte t node_index c in
      match tree t !! node_index with
      | None => inr IndexError
      | Some (Leaf _) => inr TypeError
      | Some (Branch children) =>
          match children !! c with
          | None => inl Miss
          | Some next =>
              match tree t !! next with
              | None => inr IndexError
              | Some (Leaf d) => inl (Hit d)
              | Some (Branch _) => cached_loop t bs' next
              end
          end
      end
  end.

Definition cached_lookup (t : Trie) (buffer : list Z) : CacheLookup + Exn :=
  cached_loop t buffer 0.

(** The buffer as the lookups read it: along the path through the tree
    every byte is replaced by [rewrite_byte]; past the tree the bytes
    are left alone. *)
Fixpoint canonical (t : Trie) (node_index : nat) (bs : list Z) : list Z :=
  match bs with
  | [] => []
  | c :: bs' =>
      let c' := rewrite_byte t node_index c in
      c' :: match tree t !! node_index with
            | Some (Branch children) =>
                match children !! c' with
                | Some next => canonical t next bs'
                | None => bs'
                end
            | _ => bs'
            end
  end.

(** *** generate_novel_prefix

    Every iteration of the [while True] loop appends at least one byte
    to [prefix] and starts by asserting [len(prefix) < self.cap], so
    [cap + 1] iterations always suffice; [fuel] counts them. *)
Definition live_choices (t : Trie) (children : gmap Z nat) (upper_bound : Z)
    : list Z :=
  List.filter (λ b, match children !! b with
                    | Some k => negb (bool_decide (k ∈ dead t))
                    | None => true
                    end) (seqZ 0 upper_bound).

Fixpoint novel_prefix_loop (fuel : nat) (t : Trie) (cap : nat) (rnd : Random)
    (prefix : list Z) (node : nat) : (list Z * Random) + Exn :=
  match fuel with
  | O => inr Diverges
  | S fuel' =>
      if negb (length prefix <? cap)%nat then inr AssertionError
      else if bool_decide (node ∈ dead t) then inr AssertionError
      else
        let mask := default 255 (masks t !! node) in
        if negb (_is_simple_mask mask) then inr AssertionError
        else
          let upper_bound := mask + 1 in
          match tree t !! node with
          | None => inr IndexError
          | Some (Leaf _) => inr TypeError
          | Some (Branch children) =>
              (* try: c = self.forced[node] ... except KeyError: pass *)
              let forced_child :=
                match forced t !! node with
                | Some c => (prefix ++ [c], children !! c)
                | None => (prefix, None)
                end in
              match forced_child with
              | (prefix, Some next) => novel_prefix_loop fuel' t cap rnd prefix next
              | (prefix, None) =>
                  (* randrange(0, upper_bound) raises on an empty range *)
                  if upper_bound <=? 0 then inr ValueError else
                  let '(c, rnd1) := randrange rnd 0 upper_bound in
                  match children !! c with
                  | None => inl (prefix ++ [c], rnd1)
                  | Some next_node =>
                      if bool_decide (next_node ∈ dead t) then
                        match live_choices t children upper_bound with
                        | [] => inr AssertionError
                        | choices =>
                            match choice rnd1 choices with
                            | (None, _) => inr IndexError
                            | (Some c, rnd2) =>
                                match children !! c with
                                | None => inl (prefix ++ [c], rnd2)
                                | Some next =>
                                    novel_prefix_loop fuel' t cap rnd2 (prefix ++ [c]) next
                                end
                            end
                        end
                      else novel_prefix_loop fuel' t cap rnd1 (prefix ++ [c]) next_node
                  end
              end
          end
  end.

Definition generate_novel_prefix (t : Trie) (cap : nat) (rnd : Random)
    : (list Z * Random) + Exn :=
  novel_prefix_loop (S cap) t cap rnd [] 0.

(** ** Settings, database and runner state *)

Module Phase.
Inductive t := explicit | reuse | generate | shrink.
#[global] Instance eq_dec : EqDecision t.
Proof. solve_decision. Defined.
End Phase.

Record Settings := mkSettings {
  max_examples : nat;
  buffer_size : nat;
  timeout : Z;
  phases : list Phase.t;
  suppress_health_check : list HealthCheck.t;
}.

(** Modelled from the spec: the example database is a collaborator
    (section 6 of the spec: [fetch], [save], [delete], [move] over the
    primary key and the two keys derived from it).  The model keeps the
    buffers stored under each of the three keys. *)
Module Database.
Inductive key := primary | secondary | covering.

Record t := mk {
  primary_corpus : list (list Z);
  secondary_corpus : list (list Z);
  covering_corpus : list (list Z);
}.

Definition fetch (k : key) (db : t) : list (list Z) :=
  match k with
  | primary => primary_corpus db
  | secondary => secondary_corpus db
  | covering => covering_corpus db
  end.

Definition put (k : key) (vs : list (list Z)) (db : t) : t :=
  match k with
  | primary => mk vs (secondary_corpus db) (covering_corpus db)
  | secondary => mk (primary_corpus db) vs (covering_corpus db)
  | covering => mk (primary_corpus db) (secondary_corpus db) vs
  end.

Definition save (k : key) (v : list Z) (db : t) : t :=
  if bool_decide (v ∈ fetch k db) then db else put k (fetch k db ++ [v]) db.

Definition delete (k : key) (v : list Z) (db : t) : t :=
  put k (List.filter (λ w, negb (bool_decide (w = v))) (fetch k db)) db.

Definition move (src dst : key) (v : list Z) (db : t) : t :=
  save dst v (delete src v db).
End Database.

Module HealthCheckState.
Record t := mk {
  valid_examples : nat;
  invalid_examples : nat;
  overrun_examples : nat;
  draw_times : list Z;
}.
Definition init : t := mk 0 0 0 [].
End HealthCheckState.

(** The attributes of [ConjectureRunner].  [database] is the object
    behind [settings.database]; the statistics that only feed reports
    ([all_runtimes], [all_drawtimes], [status_runtimes],
    [event_call_counts], [events_to_strings]) and [covering_examples],
    which nothing in the engine fills, are left out. *)
Record ConjectureRunner := mkRunner {
  settings : Settings;
  database_key : option (list Z);
  database : option Database.t;
  shrinks : nat;
  call_count : nat;
  valid_examples : nat;
  start_time : Z;
  random : Random;
  target_selector : TargetSelector.t;
  interesting_examples : gmap nat ConjectureData;
  shrunk_examples : gset nat;
  health_check_state : option HealthCheckState.t;
  used_examples_from_database : bool;
  trie : Trie;
  exit_reason : option ExitReason.t;
}.

Definition new_runner (settings : Settings) (random : Random)
    (database_key : option (list Z)) (database : option Database.t)
    (now : Z) : ConjectureRunner :=
  mkRunner settings database_key database 0 0 0 now random
           (TargetSelector.init MUTATION_POOL_SIZE) ∅ ∅ None false
           reset_tree_to_empty None.

Definition set_database (v : option Database.t) (s : ConjectureRunner) :=
  mkRunner (settings s) (database_key s) v (shrinks s) (call_count s)
    (valid_examples s) (start_time s) (random s) (target_selector s)
    (interesting_examples s) (shrunk_examples s) (health_check_state s)
    (used_examples_from_database s) (trie s) (exit_reason s).
Definition set_shrinks (v : nat) (s : ConjectureRunner) :=
  mkRunner (settings s) (database_key s) (database s) v (call_count s)
    (valid_examples s) (start_time s) (random s) (target_selector s)
    (interesting_examples s) (shrunk_examples s) (health_check_state s)
    (used_examples_from_database s) (trie s) (exit_reason s).
Definition set_call_count (v : nat) (s : ConjectureRunner) :=
  mkRunner (settings s) (database_key s) (database s) (shrinks s) v
    (valid_examples s) (start_time s) (random s) (target_selector s)
    (interesting_examples s) (shrunk_examples s) (health_check_state s)
    (used_examples_from_database s) (trie s) (exit_reason s).
Definition set_valid_examples (v : nat) (s : ConjectureRunner) :=
  mkRunner (settings s) (database_key s) (database s) (shrinks s) (call_count s)
    v (start_time s) (random s) (target_selector s)
    (interesting_examples s) (shrunk_examples s) (health_check_state s)
    (used_examples_from_database s) (trie s) (exit_reason s).
Definition set_random (v : Random) (s : ConjectureRunner) :=
  mkRunner (settings s) (database_key s) (database s) (shrinks s) (call_count s)
    (valid_examples s) (start_time s) v (target_selector s)
    (interesting_examples s) (shrunk_examples s) (health_check_state s)
    (used_examples_from_database s) (trie s) (exit_reason s).
Definition set_target_selector (v : TargetSelector.t) (s : ConjectureRunner) :=
  mkRunner (settings s) (database_key s) (database s) (shrinks s) (call_count s)
    (valid_examples s) (start_time s) (random s) v
    (interesting_examples s) (shrunk_examples s) (health_check_state s)
    (used_examples_from_database s) (trie s) (exit_reason s).
Definition set_interesting_examples (v : gmap nat ConjectureData) (s : ConjectureRunner) :=
  mkRunner (settings s) (database_key s) (database s) (shrinks s) (call_count s)
    (valid_examples s) (start_time s) (random s) (target_selector s)
    v (shrunk_examples s) (health_check_state s)
    (used_examples_from_database s) (trie s) (exit_reason s).
Definition set_shrunk_examples (v : gset nat) (s : ConjectureRunner) :=
  mkRunner (settings s) (database_key s) (database s) (shrinks s) (call_count s)
    (valid_examples s) (start_time s) (random s) (target_selector s)
    (interesting_examples s) v (health_check_state s)
    (used_examples_from_database s) (trie s) (exit_reason s).
Definition set_health_check_state (v : option HealthCheckState.t) (s : ConjectureRunner) :=
  mkRunner (settings s) (database_key s) (database s) (shrinks s) (call_count s)
    (valid_examples s) (start_time s) (random s) (target_selector s)
    (interesting_examples s) (shrunk_examples s) v
    (used_examples_from_database s) (trie s) (exit_reason s).
Definition set_trie (v : Trie) (s : ConjectureRunner) :=
  mkRunner (settings s) (database_key s) (database s) (shrinks s) (call_count s)
    (valid_examples s) (start_time s) (random s) (target_selector s)
    (interesting_examples s) (shrunk_examples s) (health_check_state s)
    (used_examples_from_database s) v (exit_reason s).
Definition set_exit_reason (v : option ExitReason.t) (s : ConjectureRunner) :=
  mkRunner (settings s) (database_key s) (database s) (shrinks s) (call_count s)
    (valid_examples s) (start_time s) (random s) (target_selector s)
    (interesting_examples s) (shrunk_examples s) (health_check_state s)
    (used_examples_from_database s) (trie s) v.

(** ** The method monad: state plus exceptions *)

Inductive Outcome (A : Type) :=
| Normal (a : A) (st : ConjectureRunner)
| Abort (e : Exn) (st : ConjectureRunner).
Arguments Normal {A} a st.
Arguments Abort {A} e st.

Definition final_state {A} (o : Outcome A) : ConjectureRunner :=
  match o with Normal _ st => st | Abort _ st => st end.

Definition M (A : Type) : Type := ConjectureRunner → Outcome A.

Definition ret {A} (a : A) : M A := λ st, Normal a st.
Definition bind {A B} (m : M A) (f : A → M B) : M B :=
  λ st, match m st with
        | Normal a st' => f a st'
        | Abort e st' => Abort e st'
        end.
Definition raise {A} (e : Exn) : M A := λ st, Abort e st.
Definition modify (f : ConjectureRunner → ConjectureRunner) : M unit :=
  λ st, Normal tt (f st).
Definition when (b : bool) (m : M unit) : M unit := if b then m else ret tt.

#[global] Instance M_ret : MRet M := @ret.
#[global] Instance M_bind : MBind M := λ A B f m, bind m f.

(** Read the current state ([self]). *)
Definition with_state {A} (f : ConjectureRunner → M A) : M A := λ st, f st st.

(** [self.cap] *)
Definition cap (st : ConjectureRunner) : nat := (buffer_size (settings st) / 2)%nat.

(** Modelled from the spec: [fail_health_check] is a collaborator that
    decides whether to raise.  It raises [FailedHealthCheck] unless the
    label is in [settings.suppress_health_check]. *)
Definition fail_health_check (label : HealthCheck.t) : M unit :=
  λ st, if bool_decide (label ∈ suppress_health_check (settings st))
        then Normal tt st
        else Abort (FailedHealthCheck label) st.

Definition exit_with (reason : ExitReason.t) : M unit :=
  λ st, Abort RunIsComplete (set_exit_reason (Some reason) st).

Definition save_buffer (buf : list Z) : M unit :=
  modify (λ st,
    match database st, database_key st with
    | Some db, Some _ => set_database (Some (Database.save Database.primary buf db)) st
    | _, _ => st
    end).

Definition downgrade_buffer (buf : list Z) : M unit :=
  modify (λ st,
    match database st, database_key st with
    | Some db, Some _ =>
        set_database
          (Some (Database.move Database.primary Database.secondary buf db)) st
    | _, _ => st
    end).

Definition lift_trie {A} (f : Trie → TrieResult A) : M A :=
  λ st, match f (trie st) with
        | inl (a, t') => Normal a (set_trie t' st)
        | inr (e, t') => Abort e (set_trie t' st)
        end.

(** ** test_function *)

(** How the call [self._test_function(data)] ended. [StopsTest same]
    is a [StopTest] whose [testcounter] equals that of [data] or not. *)
Inductive TestOutcome := Returns | StopsTest (same : bool) | Throws.

(** One execution of the user function: the frozen data it leaves, how
    it ended, and the clock readings of [test_function] before the call
    and at the timeout check. *)
Record Execution := mkExecution {
  exec_data : ConjectureData;
  exec_how : TestOutcome;
  exec_before : Z;
  exec_after : Z;
}.

Definition target_selector_add (data : ConjectureData) : M unit :=
  λ st, match TargetSelector.add (target_selector st) (random st) data with
        | inl (ts, r) => Normal tt (set_random r (set_target_selector ts st))
        | inr e => Abort e st
        end.

(** Lines 315 to 331: the update of [interesting_examples]. *)
Definition update_interesting (data : ConjectureData) : M unit :=
  let key := interesting_origin data in
  changed ← with_state (λ st,
    match interesting_examples st !! key with
    | None => ret true
    | Some existing =>
        if sort_key_ltb (sort_key (buffer data)) (sort_key (buffer existing))
        then modify (λ st, set_shrinks (S (shrinks st)) st) ;;
             downgrade_buffer (buffer existing) ;;
             ret true
        else ret false
    end);
  when changed (
    save_buffer (buffer data) ;;
    modify (λ st, set_interesting_examples
                    (<[key := data]> (interesting_examples st)) st) ;;
    modify (λ st, set_shrunk_examples (shrunk_examples st ∖ {[key]}) st)).

(** Lines 315 to 334. *)
Definition record_interesting (data : ConjectureData) : M unit :=
  when (status_eqb (status data) INTERESTING) (
    update_interesting data ;;
    with_state (λ st,
      when (MAX_SHRINKS <=? shrinks st)%nat (exit_with ExitReason.max_shrinks))).

(** Lines 335 to 354. *)
Definition check_timeout (now : Z) : M unit :=
  with_state (λ st,
    when ((0 <? timeout (settings st))
          && (start_time st + timeout (settings st) <=? now))
         (exit_with ExitReason.timeout)).

(** Lines 356 to 365. *)
Definition check_budget : M unit :=
  with_state (λ st,
    when (bool_decide (interesting_examples st = ∅)) (
      when (max_examples (settings st) <=? valid_examples st)%nat
           (exit_with ExitReason.max_examples) ;;
      when (Nat.max (max_examples (settings st) * 10) 1000 <=? call_count st)%nat
           (exit_with ExitReason.max_iterations))).

Definition sum_list (l : list Z) : Z := foldr Z.add 0 l.

Definition record_for_health_check (data : ConjectureData) : M unit :=
  when (status_eqb (status data) INTERESTING)
       (modify (set_health_check_state None)) ;;
  with_state (λ st,
    match health_check_state st with
    | None => ret tt
    | Some state =>
        let state1 :=
          HealthCheckState.mk
            (HealthCheckState.valid_examples state)
            (HealthCheckState.invalid_examples state)
            (HealthCheckState.overrun_examples state)
            (HealthCheckState.draw_times state ++ draw_times data) in
        modify (set_health_check_state (Some state1)) ;;
        state2 ← match status data with
                 | VALID =>
                     ret (HealthCheckState.mk
                            (S (HealthCheckState.valid_examples state1))
                            (HealthCheckState.invalid_examples state1)
                            (HealthCheckState.overrun_examples state1)
                            (HealthCheckState.draw_times state1))
                 | INVALID =>
                     ret (HealthCheckState.mk
                            (HealthCheckState.valid_examples state1)
                            (S (HealthCheckState.invalid_examples state1))
                            (HealthCheckState.overrun_examples state1)
                            (HealthCheckState.draw_times state1))
                 | OVERRUN =>
                     ret (HealthCheckState.mk
                            (HealthCheckState.valid_examples state1)
                            (HealthCheckState.invalid_examples state1)
                            (S (HealthCheckState.overrun_examples state1))
                            (HealthCheckState.draw_times state1))
                 | INTERESTING => raise AssertionError
                 end;
        modify (set_health_check_state (Some state2)) ;;
        let max_valid_draws := 10%nat in
        let max_invalid_draws := 50%nat in
        let max_overrun_draws := 20%nat in
        if negb (HealthCheckState.valid_examples state2 <=? max_valid_draws)%nat
        then raise AssertionError
        else if (HealthCheckState.valid_examples state2 =? max_valid_draws)%nat
        then modify (set_health_check_state None)
        else
          when (HealthCheckState.overrun_examples state2 =? max_overrun_draws)%nat
               (fail_health_check HealthCheck.data_too_large) ;;
          when (HealthCheckState.invalid_examples state2 =? max_invalid_draws)%nat
               (fail_health_check HealthCheck.filter_too_much) ;;
          let draw_time := sum_list (HealthCheckState.draw_times state2) in
          when (1000000 <? draw_time)
               (fail_health_check HealthCheck.too_slow)
    end).

(** [test_function(data)], in three parts.  [data] is the data object
    as the user function left it; [note_details] and [debug_data] only
    update statistics and write the debug log.

    Lines 159 to 190: the call itself and the counters. *)
Definition call_test_function (data : ConjectureData) (how : TestOutcome)
    (now_before : Z) : M unit :=
  with_state (λ st,
    when (HUNG_TEST_TIME_LIMIT <=? now_before - start_time st)
         (fail_health_check HealthCheck.hung_test)) ;;
  modify (λ st, set_call_count (S (call_count st)) st) ;;
  match how with
  | Returns | StopsTest true => ret tt
  | StopsTest false => save_buffer (buffer data) ;; raise StopTest
  | Throws => save_buffer (buffer data) ;; raise UserException
  end ;;
  target_selector_add data ;;
  when (status_eqb (status data) VALID)
       (modify (λ st, set_valid_examples (S (valid_examples st)) st)).

(** Lines 227 to 313: the cache reset and the tree update. *)
Definition record_in_tree (data : ConjectureData) : M unit :=
  with_state (λ st,
    when ((call_count st `mod` CACHE_RESET_FREQUENCY =? 0)%nat
          && bool_decide (interesting_examples st = ∅))
         (modify (set_trie reset_tree_to_empty))) ;;
  with_state (λ st, lift_trie (update_tree (cap st) data)).

(** Lines 367 to 368. *)
Definition check_exhausted : M unit :=
  with_state (λ st,
    when (bool_decide (0%nat ∈ dead (trie st)))
         (exit_with ExitReason.finished)).

(** Lines 315 to 370: the exits and the health check. *)
Definition check_exits (data : ConjectureData) (now_after : Z) : M unit :=
  record_interesting data ;;
  check_timeout now_after ;;
  check_budget ;;
  check_exhausted ;;
  record_for_health_check data.

Definition test_function (data : ConjectureData) (how : TestOutcome)
    (now_before now_after : Z) : M unit :=
  call_test_function data how now_before ;;
  record_in_tree data ;;
  check_exits data now_after.

Definition run_execution (e : Execution) : M unit :=
  test_function (exec_data e) (exec_how e) (exec_before e) (exec_after e).

(** The user function: what its execution does when [call_count]
    calls were made before, on the data object made by
    [ConjectureData.for_buffer(buffer)].  A function of the call number
    covers test functions whose result changes between calls. *)
Definition UserFunction : Type := nat → list Z → Execution.

(** ** cached_test_function *)
Definition cached_test_function (user : UserFunction) (buffer : list Z)
    : M ConjectureData :=
  with_state (λ st,
    match cached_lookup (trie st) buffer with
    | inr e => raise e
    | inl (Hit node) => ret node
    | inl Miss =>
        let result := user (call_count st) buffer in
        run_execution result ;; ret (exec_data result)
    end).

(** [generate_novel_prefix] as a method of the runner. *)
Definition runner_generate_novel_prefix : M (list Z) :=
  λ st, match generate_novel_prefix (trie st) (cap st) (random st) with
        | inl (prefix, r) => Normal prefix (set_random r st)
        | inr e => Abort e st
        end.

(** ** The mutator ([_new_mutator])

    The bit strategies are closures over [self.random] and over the
    origin [target_data[0]]; here they take the random source, the
    origin and the data object being filled, and return the drawn bytes
    with the new random source. *)

Definition DrawResult : Type := (list Z * Random) + Exn.


Definition draw_new (random : Random) (target data : ConjectureData) (n : nat)
    : DrawResult :=
  inl (uniform random n).

Definition draw_existing (random : Random) (target data : ConjectureData) (n : nat)
    : DrawResult :=
  inl (slice (buffer target) (index data) n, random).

Definition draw_smaller (random : Random) (target data : ConjectureData) (n : nat)
    : DrawResult :=
  let existing := slice (buffer target) (index data) n in
  let '(r, random1) := uniform random n in
  if bytes_leb r existing then inl (r, random1)
  else inl (_draw_predecessor random1 existing).

Definition draw_larger (random : Random) (target data : ConjectureData) (n : nat)
    : DrawResult :=
  let existing := slice (buffer target) (index data) n in
  let '(r, random1) := uniform random n in
  if bytes_leb existing r then inl (r, random1)
  else inl (_draw_successor random1 existing).

Definition reuse_existing (random : Random) (target data : ConjectureData) (n : nat)
    : DrawResult :=
  let choices := default [] (block_starts data !! n) in
  match choices with
  | _ :: _ =>
      match choice random choices with
      | (Some i, random1) => inl (slice (buffer data) i n, random1)
      | (None, _) => inr IndexError
      end
  | [] => inl (uniform random n)
  end.

Definition flip_bit (random : Random) (target data : ConjectureData) (n : nat)
    : DrawResult :=
  let buf := slice (buffer target) (index data) n in
  if (n =? 0)%nat then inr ValueError
  else
    let '(i, random1) := randint random 0 (Z.of_nat n - 1) in
    let '(k, random2) := randint random1 0 7 in
    match buf !! Z.to_nat i with
    | None => inr IndexError
    | Some x => inl (<[Z.to_nat i := Z.lxor x (Z.shiftl 1 k)]> buf, random2)
    end.

Definition draw_zero (random : Random) (target data : ConjectureData) (n : nat)
    : DrawResult :=
  inl (zeros n, random).

Definition draw_max (random : Random) (target data : ConjectureData) (n : nat)
    : DrawResult :=
  inl (replicate n 255, random).

Definition draw_constant (random : Random) (target data : ConjectureData) (n : nat)
    : DrawResult :=
  let '(c, random1) := randint random 0 255 in inl (replicate n c, random1).

(** [target_data[0].blocks[-1].start] is the start of the last pair of
    the block bounds. *)
Definition redraw_last (random : Random) (target data : ConjectureData) (n : nat)
    : DrawResult :=
  match last (all_block_bounds target) with
  | None => inr IndexError
  | Some (u, _) =>
      if (index data + n <=? u)%nat
      then inl (slice (buffer target) (index data) n, random)
      else inl (uniform random n)
  end.

Definition BitStrategy : Type :=
  Random → ConjectureData → ConjectureData → nat → DrawResult.

Definition options : list BitStrategy :=
  [ draw_new; redraw_last; redraw_last; reuse_existing; reuse_existing;
    draw_existing; draw_smaller; draw_larger; flip_bit; draw_zero; draw_max;
    draw_zero; draw_max; draw_constant ].

Section ZeroBound.

(** [MAX_DEPTH] is imported from the data module. *)
Variable MAX_DEPTH : nat.

(** [__zero_bound(data, result)]: the rewritten result and the data
    object with its [forced_indices] and [hit_zero_bound] updated. *)
Definition zero_bound (cap : nat) (data : ConjectureData) (result : list Z)
    : ConjectureData * list Z :=
  let initial := length result in
  let force (from to : nat) :=
    mkData (buffer data) (status data)
           (list_to_set (seq from (to - from)) ∪ forced_indices data)
           (masked_indices data) (all_block_bounds data) (block_starts data)
           (interesting_origin data) (draw_times data) (index data)
           (depth data) true in
  if (MAX_DEPTH <=? depth data * 2)%nat || (cap <=? index data)%nat then
    (force (index data) (index data + initial)%nat, zeros initial)
  else if (cap <=? index data + initial)%nat then
    let n := (cap - index data)%nat in
    (force cap (index data + initial)%nat, take n result ++ zeros (initial - n))
  else (data, result).

(** The state of one mutator: the three chosen strategies, the origin
    and the novel prefix set by [mutate_from]. *)
Record Mutator := mkMutator {
  bits : list BitStrategy;
  target_data : ConjectureData;
  prefix : list Z;
}.

(** [draw_mutated(data, n)] *)
Definition draw_mutated (m : Mutator) (cap : nat) (random : Random)
    (data : ConjectureData) (n : nat)
    : (ConjectureData * list Z * Random) + Exn :=
  let drawn : DrawResult :=
    if (length (buffer (target_data m)) <? index data + n)%nat
    then inl (uniform random n)
    else
      match choice random (bits m) with
      | (Some strategy, random1) => strategy random1 (target_data m) data n
      | (None, _) => inr IndexError
      end in
  match drawn with
  | inr e => inr e
  | inl (result, random') =>
      let p := prefix m in
      let result :=
        if (index data <? length p)%nat then
          let start := slice p (index data) n in
          start ++ drop (length start) result
        else result in
      let '(data', result') := zero_bound cap data result in
      inl (data', result', random')
  end.

End ZeroBound.

(** ** reuse_existing_examples *)


Definition buffer_le (a b : list Z) : Prop :=
  sort_key_leb (sort_key a) (sort_key b).

#[global] Instance buffer_le_dec : RelDecision buffer_le.
Proof. intros a b. unfold buffer_le. apply _. Defined.







(** ** shrink_interesting_examples, the confirmation loop

    The method first replays every stored interesting example
    (lines 935 to 945).  What follows ([clear_secondary_key] and the
    runs of the [Shrinker]) belongs to the shrinker, a collaborator, and
    is not part of this model. *)

Definition data_le (a b : ConjectureData) : Prop := buffer_le (buffer a) (buffer b).

#[global] Instance data_le_dec : RelDecision data_le.
Proof. intros a b. unfold data_le. apply _. Defined.

Definition interesting_values (st : ConjectureRunner) : list ConjectureData :=
  merge_sort data_le ((map_to_list (interesting_examples st)).*2).

Fixpoint confirm_loop (user : UserFunction) (prevs : list ConjectureData)
    : M unit :=
  match prevs with
  | [] => ret tt
  | prev_data :: rest =>
      if negb (status_eqb (status prev_data) INTERESTING) then raise AssertionError
      else
        with_state (λ st,
          let data := user (call_count st) (buffer prev_data) in
          run_execution data ;;
          if negb (status_eqb (status (exec_data data)) INTERESTING)
          then exit_with ExitReason.flaky
          else confirm_loop user rest)
  end.

Definition confirm_interesting_examples (user : UserFunction) : M unit :=
  with_state (λ st,
    if negb (bool_decide (Phase.shrink ∈ phases (settings st)))
       || bool_decide (interesting_examples st = ∅)
    then ret tt
    else confirm_loop user (interesting_values st)).


(** ** The invariant of the trie

    [labelled t labels] gives every node of the array the byte string
    that leads to it: the root has the empty string, every edge of a
    branch extends the string of its node by its byte, and a leaf holds
    a result that is not an overrun, whose buffer is the string of the
    leaf, and is dead. *)
Definition labelled (t : Trie) (labels : list (list Z)) : Prop :=
  length labels = length (tree t)
  ∧ labels !! 0%nat = Some []
  ∧ (∀ n children b k,
       tree t !! n = Some (Branch children) → children !! b = Some k →
       ∃ l, labels !! n = Some l ∧ labels !! k = Some (l ++ [b]))
  ∧ (∀ n d,
       tree t !! n = Some (Leaf d) →
       labels !! n = Some (buffer d) ∧ status d ≠ OVERRUN ∧ n ∈ dead t).

(** [walk t node bs]: the node reached from [node] along the bytes
    [bs] as they are, without any rewriting; [None] when the path
    leaves the tree. *)
Fixpoint walk (t : Trie) (node : nat) (bs : list Z) : option nat :=
  match bs with
  | [] => Some node
  | b :: bs' =>
      match tree t !! node with
      | Some (Branch children) =>
          match children !! b with
          | Some next => walk t next bs'
          | None => None
          end
      | _ => None
      end
  end.

(** Every forced byte of a branch node has its child in the tree, and
    forced bytes are only recorded for nodes of the array. *)
Definition forced_ok (t : Trie) : Prop :=
  (0 < length (tree t))%nat
  ∧ ∀ n c,
      forced t !! n = Some c →
      match tree t !! n with
      | Some (Branch children) => is_Some (children !! c)
      | Some (Leaf _) => True
      | None => False
      end.

(** [preserves P m]: the method [m] keeps the property [P] of the
    runner, whether it returns or raises. *)
Definition preserves {A} (P : ConjectureRunner → Prop) (m : M A) : Prop :=
  ∀ st, P st → P (final_state (m st)).

(** [no_exit m]: the method [m] never raises [RunIsComplete]. *)
Definition no_exit {A} (m : M A) : Prop :=
  ∀ st e st', m st = Abort e st' → e ≠ RunIsComplete.

(** The condition of the timeout check of [test_function]. *)
Definition timeout_fires (st : ConjectureRunner) (now : Z) : bool :=
  (0 <? timeout (settings st)) && (start_time st + timeout (settings st) <=? now).

(** The trie of the runner is one that [update_tree] builds. *)
Definition reachable_trie (st : ConjectureRunner) : Prop := trie_reachable (trie st).

(** The attributes that the budget checks read. *)
Definition same_budget_view (a b : ConjectureRunner) : Prop :=
  settings a = settings b
  ∧ start_time a = start_time b
  ∧ valid_examples a = valid_examples b
  ∧ call_count a = call_count b
  ∧ interesting_examples a = interesting_examples b
  ∧ exit_reason a = exit_reason b.

(** Every entry of [interesting_examples] is an INTERESTING data object
    filed under its own [interesting_origin]. *)
Definition interesting_ok (st : ConjectureRunner) : Prop :=
  ∀ k d, interesting_examples st !! k = Some d →
         status d = INTERESTING ∧ interesting_origin d = k.

(** How [interesting_examples] may differ from an earlier value [old]
    after [data] was run: new entries hold [data], and an old entry is
    either kept or replaced by [data] with a smaller sort key. *)
Definition interesting_step (data : ConjectureData)
    (old : gmap nat ConjectureData) (st : ConjectureRunner) : Prop :=
  (∀ k d', interesting_examples st !! k = Some d' →
           old !! k = Some d'
           ∨ (d' = data ∧ status data = INTERESTING ∧ interesting_origin data = k))
  ∧ (∀ k d, old !! k = Some d →
            ∃ d', interesting_examples st !! k = Some d'
                  ∧ (d' = d
                     ∨ (d' = data
                        ∧ sort_key_ltb (sort_key (buffer data))
                                       (sort_key (buffer d)) = true))).

(** While the health checks run, fewer than ten valid examples were
    counted. *)
Definition health_ok (st : ConjectureRunner) : Prop :=
  ∀ hs, health_check_state st = Some hs →
        (HealthCheckState.valid_examples hs < 10)%nat.

(** The hung-test health check at the start of [test_function] raises:
    the time limit is reached and the check is not suppressed. *)
Definition hung_test_fails (st : ConjectureRunner) (now : Z) : bool :=
  (HUNG_TEST_TIME_LIMIT <=? now - start_time st)
  && negb (bool_decide (HealthCheck.hung_test ∈ suppress_health_check (settings st))).
(** * Concrete inputs

    States and data objects used by the witnesses and counterexamples
    below. *)

Definition example_random : Random := mkRandom (λ k, Z.of_nat k * 37 + 5) 0.

(** A frozen data object with the given buffer and status and nothing
    forced, masked or recorded. *)
Definition simple_data (buf : list Z) (s : Status) : ConjectureData :=
  mkData buf s ∅ ∅ [] ∅ 0 [] (length buf) 0 false.

(** The selector after one VALID example was added. *)
Definition selector_with_valid : TargetSelector.t :=
  TargetSelector.mk VALID MUTATION_POOL_SIZE [simple_data [1] VALID] [].




(** The selector after one INVALID example was added. *)
Definition selector_with_invalid : TargetSelector.t :=
  TargetSelector.mk INVALID MUTATION_POOL_SIZE [simple_data [1] INVALID] [].




Definition default_settings : Settings :=
  mkSettings 100 64 0 [Phase.reuse; Phase.generate; Phase.shrink] [].

Definition fresh_runner : ConjectureRunner :=
  new_runner default_settings example_random None None 0.

(** A test case that wrote the byte 5 and was VALID. *)
Definition wrote_five : ConjectureData :=
  mkData [5] VALID {[0%nat]} ∅ [(0, 1)%nat] {[1%nat := [0%nat]]} 0 [] 1 0 false.

Definition trie_with_five : Trie :=
  result_trie (update_tree (cap fresh_runner) wrote_five reset_tree_to_empty).

Definition runner_with_five : ConjectureRunner :=
  final_state (test_function wrote_five Returns 0 0 fresh_runner).

(** A VALID test case that drew the two bytes 1 and 2. *)
Definition drew_two : ConjectureData :=
  mkData [1; 2] VALID ∅ ∅ [(0, 1)%nat; (1, 2)%nat]
         {[1%nat := [0%nat; 1%nat]]} 0 [] 2 0 false.

Definition trie_with_two : Trie :=
  result_trie (update_tree (cap fresh_runner) drew_two reset_tree_to_empty).

Definition runner_with_two : ConjectureRunner :=
  final_state (test_function drew_two Returns 0 0 fresh_runner).

(** A user function that overruns on every buffer. *)
Definition always_overrun : UserFunction :=
  λ _ buf, mkExecution (simple_data buf OVERRUN) (StopsTest true) 0 0.

(** A runner with a budget of one example and a timeout of one tick. *)
Definition one_example : Settings :=
  mkSettings 1 64 1 [Phase.reuse; Phase.generate; Phase.shrink] [].

Definition timed_runner : ConjectureRunner :=
  new_runner one_example example_random None None 0.

Definition untimed_runner : ConjectureRunner :=
  new_runner (mkSettings 1 64 0 [Phase.reuse; Phase.generate; Phase.shrink] [])
             example_random None None 0.

(** An INTERESTING test case that drew the byte 1. *)
Definition failed_once : ConjectureData :=
  mkData [1] INTERESTING ∅ ∅ [(0, 1)%nat] {[1%nat := [0%nat]]} 0 [] 1 0 false.

Definition runner_with_failure : ConjectureRunner :=
  final_state (test_function failed_once Returns 0 0 fresh_runner).

(** A user function that, from now on, draws nothing and is VALID. *)
Definition now_passes : UserFunction :=
  λ _ _, mkExecution (simple_data [] VALID) Returns 0 0.

(** A user function that, from now on, draws the bytes it is given and
    is VALID. *)
Definition passes_on_replay : UserFunction :=
  λ _ buf, mkExecution (simple_data buf VALID) Returns 0 0.

(** A user function that fails in the same way on every call. *)
Definition still_fails : UserFunction :=
  λ _ _, mkExecution failed_once Returns 0 0.

(** A run with [buffer_size = 4], so [cap = 2], of a test function
    that writes the byte 0, draws one bit, draws one byte and then asks
    for more bytes than the buffer holds.  Every test case overruns.
    [overrun_zero] is the replay of the all-zero buffer, [overrun_one]
    the test case grown from the novel prefix [0; 1], whose third byte
    was forced to zero by the zero bound. *)
Definition small_buffer : Settings :=
  mkSettings 100 4 0 [Phase.generate; Phase.shrink]
             [HealthCheck.large_base_example].

Definition overrun_zero : ConjectureData :=
  mkData [0; 0; 0] OVERRUN {[0%nat]} {[1%nat := 1]}
         [(0, 1)%nat; (1, 2)%nat; (2, 3)%nat]
         {[1%nat := [0%nat; 1%nat; 2%nat]]} 0 [] 3 0 false.

Definition overrun_one : ConjectureData :=
  mkData [0; 1; 0] OVERRUN {[0%nat; 2%nat]} {[1%nat := 1]}
         [(0, 1)%nat; (1, 2)%nat; (2, 3)%nat]
         {[1%nat := [0%nat; 1%nat; 2%nat]]} 0 [] 3 0 true.

Definition stuck_runner (random : Random) : ConjectureRunner :=
  final_state
    (test_function overrun_one (StopsTest true) 0 0
       (final_state
          (test_function overrun_zero (StopsTest true) 0 0
             (new_runner small_buffer random None None 0)))).

Definition stuck_trie : Trie :=
  result_trie
    (update_tree 2 overrun_one
       (result_trie (update_tree 2 overrun_zero reset_tree_to_empty))).

(** The selector [selector_with_valid] after one [select], and the
    random source after one draw. *)
Definition selected_once : TargetSelector.t :=
  TargetSelector.mk VALID MUTATION_POOL_SIZE [] [simple_data [1] VALID].

Definition example_random_next : Random :=
  mkRandom (tape example_random) 1.

(** A selector with room for one example, which was already used. *)
Definition full_selector : TargetSelector.t :=
  TargetSelector.mk VALID 1 [] [simple_data [1] VALID].

(** A data object at its start: nothing drawn yet. *)
Definition blank_data : ConjectureData :=
  mkData [] VALID ∅ ∅ [] ∅ 0 [] 0 0 false.

(** A mutator that only draws zeros, with origin [1; 2; 3] and novel
    prefix [7]. *)
Definition zero_mutator : Mutator :=
  mkMutator [draw_zero; draw_zero; draw_zero] (simple_data [1; 2; 3] VALID) [7].

(** The trie after one VALID result with buffer [1; 2] and nothing
    forced or masked was recorded. *)
Definition trie_with_plain : Trie :=
  result_trie (update_tree 32 (simple_data [1; 2] VALID) reset_tree_to_empty).

(** A runner whose health checks are running, as
    [generate_new_examples] starts them. *)
Definition checking_runner : ConjectureRunner :=
  set_health_check_state (Some HealthCheckState.init) fresh_runner.

(** A VALID test case that drew one block of two bytes, and the runner
    after that test case. *)
Definition drew_pair : ConjectureData :=
  mkData [1; 2] VALID ∅ ∅ [(0, 2)%nat] {[2%nat := [0%nat]]} 0 [] 2 0 false.

Definition runner_with_pair : ConjectureRunner :=
  final_state (test_function drew_pair Returns 0 0 fresh_runner).



(** * Properties *)

(** ** The random source stays in range *)

#[global] Arguments randrange : simpl never.
#[global] Arguments randint : simpl never.
#[global] Arguments getrandbits : simpl never.
#[global] Arguments choice : simpl never.
#[global] Arguments uniform : simpl never.
#[global] Arguments pop_random : simpl never.
#[local] Arguments Nat.ltb : simpl never.
#[local] Arguments Nat.leb : simpl never.
#[local] Arguments Nat.eqb : simpl never.

Lemma randrange_bounds r start stop :
  start < stop → start <= (randrange r start stop).1 < stop.
Proof.
  intros Hlt. unfold randrange, getraw. cbn.
  pose proof (Z.mod_pos_bound (tape r (cursor r)) (stop - start)). lia.
Qed.

Lemma randint_bounds r a b : a <= b → a <= (randint r a b).1 <= b.
Proof.
  intros Hle. unfold randint.
  pose proof (randrange_bounds r a (b + 1)). lia.
Qed.

Lemma choice_nonempty {A} r (seq : list A) :
  seq ≠ [] → ∃ x, (choice r seq).1 = Some x ∧ x ∈ seq.
Proof.
  intros Hne. unfold choice.
  destruct (randrange r 0 (Z.of_nat (length seq))) as [i r'] eqn:Hi. simpl.
  assert (0 <= i < Z.of_nat (length seq)) as Hb.
  { pose proof (randrange_bounds r 0 (Z.of_nat (length seq))) as Hr.
    rewrite Hi in Hr. simpl in Hr. apply Hr.
    destruct seq; [done | simpl; lia]. }
  destruct (lookup_lt_is_Some_2 seq (Z.to_nat i)) as [x Hx]; [lia |].
  exists x. split; [done |]. by eapply list_elem_of_lookup_2.
Qed.

Lemma pop_random_nonempty {A} r (values : list A) :
  values ≠ [] →
  ∃ x rest r', pop_random r values = Some (x, rest, r')
               ∧ S (length rest) = length values.
Proof.
  intros Hne. unfold pop_random.
  destruct (last values) as [lst |] eqn:Hlast.
  2: { by apply last_None in Hlast. }
  destruct (randrange r 0 (Z.of_nat (length values))) as [i r'] eqn:Hi.
  assert (0 <= i < Z.of_nat (length values)) as Hb.
  { pose proof (randrange_bounds r 0 (Z.of_nat (length values))) as Hr.
    rewrite Hi in Hr. simpl in Hr. apply Hr.
    destruct values; [done | simpl; lia]. }
  destruct (lookup_lt_is_Some_2 values (Z.to_nat i)) as [x Hx]; [lia |].
  rewrite Hx. eexists _, _, _. split; [done |].
  rewrite removelast_firstn_len, length_take, length_insert.
  destruct values; [done | simpl; lia].
Qed.

(** ** Lexicographic order of bytes *)

Lemma bytes_eqb_refl xs : bytes_eqb xs xs = true.
Proof. induction xs as [| x xs IH]; simpl; [done |]. by rewrite Z.eqb_refl, IH. Qed.

Lemma bytes_leb_cons_lt x y xs ys : x < y → bytes_leb (x :: xs) (y :: ys) = true.
Proof.
  intros Hlt. unfold bytes_leb. simpl.
  destruct (Z.ltb_spec x y); [done | lia].
Qed.

Lemma bytes_leb_cons_eq x xs ys :
  bytes_leb xs ys = true → bytes_leb (x :: xs) (x :: ys) = true.
Proof.
  unfold bytes_leb. simpl. rewrite Z.eqb_refl. simpl.
  intros [H | H]%orb_true_iff; rewrite H; by rewrite ?orb_true_r.
Qed.

Lemma bytes_leb_same_length_any xs : bytes_leb xs xs = true.
Proof. unfold bytes_leb. by rewrite bytes_eqb_refl, orb_true_r. Qed.

(** ** _draw_predecessor and _draw_successor *)

Lemma draw_predecessor_loop_length rnd xs strict :
  length (_draw_predecessor_loop rnd xs strict).1 = length xs.
Proof.
  revert rnd strict. induction xs as [| x xs IH]; intros rnd strict; [done |].
  cbn [_draw_predecessor_loop]. destruct strict; cbn [negb].
  - destruct (randint rnd 0 255) as [c rnd1].
    specialize (IH rnd1 true).
    destruct (_draw_predecessor_loop rnd1 xs true). cbn in *. lia.
  - destruct (randint rnd 0 x) as [c rnd1].
    specialize (IH rnd1 (if c <? x then true else false)).
    destruct (_draw_predecessor_loop rnd1 xs _). cbn in *. lia.
Qed.

Lemma draw_successor_loop_length rnd xs strict :
  length (_draw_successor_loop rnd xs strict).1 = length xs.
Proof.
  revert rnd strict. induction xs as [| x xs IH]; intros rnd strict; [done |].
  cbn [_draw_successor_loop]. destruct strict; cbn [negb].
  - destruct (randint rnd 0 255) as [c rnd1].
    specialize (IH rnd1 true).
    destruct (_draw_successor_loop rnd1 xs true). cbn in *. lia.
  - destruct (randint rnd x 255) as [c rnd1].
    specialize (IH rnd1 (if x <? c then true else false)).
    destruct (_draw_successor_loop rnd1 xs _). cbn in *. lia.
Qed.

Lemma draw_predecessor_loop_le rnd xs :
  Forall is_byte xs →
  bytes_leb (_draw_predecessor_loop rnd xs false).1 xs = true.
Proof.
  intros Hbytes. revert rnd.
  induction Hbytes as [| x xs Hx _ IH]; intros rnd; [done |].
  cbn [_draw_predecessor_loop negb]. pose proof (randint_bounds rnd 0 x) as Hc.
  destruct (randint rnd 0 x) as [c rnd1]. simpl in Hc.
  unfold is_byte in Hx.
  destruct (Z.ltb_spec c x) as [Hlt | Hge].
  - destruct (_draw_predecessor_loop rnd1 xs true). simpl.
    by apply bytes_leb_cons_lt.
  - specialize (IH rnd1).
    destruct (_draw_predecessor_loop rnd1 xs false). simpl in *.
    assert (c = x) as -> by lia. by apply bytes_leb_cons_eq.
Qed.

Lemma draw_successor_loop_ge rnd xs :
  Forall is_byte xs →
  bytes_leb xs (_draw_successor_loop rnd xs false).1 = true.
Proof.
  intros Hbytes. revert rnd.
  induction Hbytes as [| x xs Hx _ IH]; intros rnd; [done |].
  cbn [_draw_successor_loop negb]. pose proof (randint_bounds rnd x 255) as Hc.
  destruct (randint rnd x 255) as [c rnd1]. simpl in Hc.
  unfold is_byte in Hx.
  destruct (Z.ltb_spec x c) as [Hlt | Hge].
  - destruct (_draw_successor_loop rnd1 xs true). simpl.
    by apply bytes_leb_cons_lt.
  - specialize (IH rnd1).
    destruct (_draw_successor_loop rnd1 xs false). simpl in *.
    assert (c = x) as -> by lia. by apply bytes_leb_cons_eq.
Qed.

(** C7.  For every non-empty byte sequence [x] and every random source,
    the result of [_draw_predecessor] is lexicographically at most [x],
    the result of [_draw_successor] is lexicographically at least [x],
    and both results have the length of [x]. *)
Theorem draw_predecessor_successor_order (rnd : Random) (x : list Z) :
  x ≠ [] →
  Forall is_byte x →
  bytes_leb (_draw_predecessor rnd x).1 x = true
  ∧ bytes_leb x (_draw_successor rnd x).1 = true
  ∧ length (_draw_predecessor rnd x).1 = length x
  ∧ length (_draw_successor rnd x).1 = length x.
Proof.
  intros _ Hbytes. unfold _draw_predecessor, _draw_successor.
  split; [by apply draw_predecessor_loop_le |].
  split; [by apply draw_successor_loop_ge |].
  split; [apply draw_predecessor_loop_length | apply draw_successor_loop_length].
Qed.

Lemma draw_predecessor_successor_order_witness :
  let rnd := mkRandom (λ k, Z.of_nat k * 37 + 5) 0 in
  let x := [3; 200; 0] in
  bytes_leb (_draw_predecessor rnd x).1 x = true
  ∧ bytes_leb x (_draw_successor rnd x).1 = true
  ∧ length (_draw_predecessor rnd x).1 = length x
  ∧ length (_draw_successor rnd x).1 = length x.
Proof.
  apply draw_predecessor_successor_order; [done |].
  repeat constructor; unfold is_byte; lia.
Defined.

(** ** TargetSelector *)

Section TargetSelectorProperties.
Import TargetSelector.

Lemma add_preserves_bound self random data :
  (len self ≤ pool_size self)%nat →
  ∃ self' random',
    add self random data = inl (self', random')
    ∧ (len self' ≤ pool_size self')%nat
    ∧ pool_size self' = pool_size self
    ∧ (status data ≠ INTERESTING →
       status_ltb (best_status self) (status data) = true →
       (1 ≤ pool_size self)%nat →
       fresh_examples self' = [data] ∧ used_examples self' = []).
Proof.
  intros Hlen. unfold add.
  destruct (status_eqb (status data) INTERESTING) eqn:Hint.
  { eexists _, _. split_and!; [done | done | done |].
    intros Hne. by destruct (status data). }
  destruct (status_ltb (status data) (best_status self)) eqn:Hlt.
  { eexists _, _. split_and!; [done | done | done |].
    intros _ Hup. unfold status_ltb in *.
    apply Z.ltb_lt in Hlt, Hup. lia. }
  destruct self as [best size fresh used]. unfold len in *. cbn in *.
  destruct (status_ltb best (status data)) eqn:Hup; cbn.
  - (* the status improves: both lists are reset *)
    destruct (size <? 1)%nat eqn:Hfull.
    + apply Nat.ltb_lt in Hfull.
      destruct (pop_random_nonempty random [data])
        as (x & rest & r' & -> & Hrest); [done |].
      destruct rest; [| cbn in Hrest; lia]. cbn.
      replace (size =? 0)%nat with true by (symmetry; apply Nat.eqb_eq; lia).
      eexists _, _. split_and!; [done | cbn; lia | done | lia].
    + apply Nat.ltb_ge in Hfull.
      eexists _, _. split_and!; [done | cbn; lia | done | done].
  - (* same status: append, and evict one example if over the bound *)
    rewrite length_app. cbn.
    destruct (size <? length fresh + 1 + length used)%nat eqn:Hfull.
    2: { apply Nat.ltb_ge in Hfull.
         eexists _, _. split_and!; [done | cbn; rewrite length_app; cbn; lia | done |].
         intros _ Hlt'. done. }
    apply Nat.ltb_lt in Hfull.
    destruct used as [| u used].
    + destruct (pop_random_nonempty random (fresh ++ [data]))
        as (x & rest & r' & -> & Hrest).
      { by destruct fresh. }
      rewrite length_app in Hrest. cbn in Hrest. cbn in *.
      replace (size =? length rest + 0)%nat with true
        by (symmetry; apply Nat.eqb_eq; lia).
      eexists _, _. split_and!; [done | cbn; lia | done | done].
    + destruct (pop_random_nonempty random (u :: used))
        as (x & rest & r' & -> & Hrest); [done |].
      cbn in Hrest. cbn in *.
      replace (size =? length fresh + 1 + length rest)%nat with true
        by (symmetry; apply Nat.eqb_eq; lia).
      eexists _, _.
      split_and!; [done | cbn; rewrite length_app; cbn; lia | done | done].
Qed.

Lemma select_preserves_len self random :
  (0 < len self)%nat →
  ∃ result self' random',
    select self random = inl (result, self', random')
    ∧ len self' = len self ∧ pool_size self' = pool_size self.
Proof.
  intros Hpos. destruct self as [best size fresh used].
  unfold select, len in *. cbn in *.
  destruct fresh as [| f fresh].
  - destruct (choice_nonempty random used) as (x & Hx & _).
    { destruct used; [cbn in Hpos; lia | done]. }
    destruct (choice random used) as [o r']. cbn in Hx. subst o.
    eexists _, _, _. split_and!; done.
  - destruct (pop_random_nonempty random (f :: fresh))
      as (x & rest & r' & -> & Hrest); [done |].
    eexists _, _, _. split_and!; [done | | done].
    cbn in *. rewrite length_app. cbn. lia.
Qed.

Lemma reachable_bound self :
  reachable self →
  (len self ≤ pool_size self)%nat ∧ pool_size self = MUTATION_POOL_SIZE.
Proof.
  induction 1 as [| self random data self' random' _ [IH1 IH2] Hadd
                  | self random result self' random' _ [IH1 IH2] Hsel].
  - split; [cbn; lia | done].
  - destruct (add_preserves_bound self random data IH1)
      as (s & r & Heq & Hb & Hp & _).
    rewrite Hadd in Heq. injection Heq as <- <-. split; [done | congruence].
  - destruct (fresh_examples self) as [| f fresh] eqn:Hfresh.
    + unfold select in Hsel. rewrite Hfresh in Hsel.
      destruct (choice random (used_examples self)) as [[x |] r']; [| done].
      injection Hsel as <- <- <-. done.
    + destruct (select_preserves_len self random)
        as (x & s & r & Heq & Hl & Hp).
      { unfold len. rewrite Hfresh. cbn. lia. }
      rewrite Hsel in Heq. injection Heq as <- <- <-.
      split; [lia | congruence].
Qed.

(** C6, amended.  Along every sequence of [add] and [select] calls on
    a selector made with the default pool size, the pool never holds
    more than [pool_size] = 100 examples; [add] always returns, and
    [select] returns whenever the pool is not empty.  An INTERESTING
    example is ignored by [add]: the selector and the random source
    are left as they are.  Every [add] of an example that is not
    INTERESTING and whose status is strictly above [best_status] leaves
    the pool holding that example alone: both lists were emptied before
    the example went into [fresh_examples]. *)
Theorem target_selector_pool_bound (self : TargetSelector.t) :
  reachable self →
  (len self ≤ pool_size self)%nat
  ∧ pool_size self = 100%nat
  ∧ (∀ random data,
       ∃ self' random',
         add self random data = inl (self', random')
         ∧ (status data = INTERESTING → self' = self ∧ random' = random)
         ∧ (status data ≠ INTERESTING →
            status_ltb (best_status self) (status data) = true →
            fresh_examples self' = [data] ∧ used_examples self' = []))
  ∧ (∀ random,
       (0 < len self)%nat →
       ∃ result self' random', select self random = inl (result, self', random')).
Proof.
  intros Hreach. destruct (reachable_bound self Hreach) as [Hlen Hsize].
  split; [done |]. split; [done |]. split.
  - intros random data.
    destruct (add_preserves_bound self random data Hlen)
      as (s & r & Heq & _ & _ & Hup).
    exists s, r. split; [done |]. split.
    + intros Hint. unfold add in Heq. rewrite Hint in Heq. cbn in Heq.
      by injection Heq as <- <-.
    + intros Hne Hlt. apply Hup; [done | done |].
      rewrite Hsize. unfold MUTATION_POOL_SIZE. lia.
  - intros random Hpos.
    destruct (select_preserves_len self random Hpos) as (x & s & r & Heq & _).
    by exists x, s, r.
Qed.

Lemma selector_with_valid_reachable : reachable selector_with_valid.
Proof.
  eapply (reach_add (init MUTATION_POOL_SIZE) example_random
            (simple_data [1] VALID) _ example_random).
  - constructor.
  - reflexivity.
Qed.

Lemma selector_with_invalid_reachable : reachable selector_with_invalid.
Proof.
  eapply (reach_add (init MUTATION_POOL_SIZE) example_random
            (simple_data [1] INVALID) _ example_random).
  - constructor.
  - reflexivity.
Qed.

(** The selector holds one INVALID example.  Adding a VALID example
    upgrades [best_status] and leaves the new example alone in the
    pool; adding an INTERESTING one changes nothing; and [select]
    returns. *)
Lemma target_selector_pool_bound_witness :
  (len selector_with_invalid ≤ pool_size selector_with_invalid)%nat
  ∧ (∃ self' random',
       add selector_with_invalid example_random (simple_data [2] VALID)
       = inl (self', random')
       ∧ fresh_examples self' = [simple_data [2] VALID]
       ∧ used_examples self' = [])
  ∧ add selector_with_invalid example_random (simple_data [3] INTERESTING)
    = inl (selector_with_invalid, example_random)
  ∧ ∃ result self' random',
      select selector_with_invalid example_random = inl (result, self', random').
Proof.
  destruct (target_selector_pool_bound selector_with_invalid
              selector_with_invalid_reachable) as (Hlen & _ & Hadd & Hselect).
  split_and!.
  - exact Hlen.
  - destruct (Hadd example_random (simple_data [2] VALID))
      as (s & r & Heq & _ & Hup).
    exists s, r. split; [exact Heq |]. apply Hup; [discriminate | reflexivity].
  - destruct (Hadd example_random (simple_data [3] INTERESTING))
      as (s & r & Heq & Hint & _).
    destruct (Hint eq_refl) as [-> ->]. exact Heq.
  - apply Hselect. cbn. lia.
Defined.

(** C6 as stated fails: an INTERESTING example has a status strictly
    above [best_status], yet [add] returns at once and leaves the
    lists as they are. *)
Lemma add_interesting_keeps_pool :
  reachable selector_with_valid
  ∧ status_ltb (best_status selector_with_valid)
               (status (simple_data [2] INTERESTING)) = true
  ∧ add selector_with_valid example_random (simple_data [2] INTERESTING)
    = inl (selector_with_valid, example_random)
  ∧ fresh_examples selector_with_valid = [simple_data [1] VALID].
Proof.
  split; [apply selector_with_valid_reachable |].
  split; [reflexivity |]. split; reflexivity.
Qed.

End TargetSelectorProperties.

(** ** The mutator *)

Lemma int_to_bytes_length v n : length (int_to_bytes v n) = n.
Proof. induction n as [| n IH]; simpl; [done | by rewrite IH]. Qed.

Lemma int_to_bytes_bytes v n : Forall is_byte (int_to_bytes v n).
Proof.
  induction n as [| n IH]; simpl; constructor; [| done].
  unfold is_byte. apply Z.mod_pos_bound. lia.
Qed.

Lemma uniform_length random n : length (uniform random n).1 = n.
Proof.
  unfold uniform. destruct (getrandbits random (n * 8)) as [v r'].
  apply int_to_bytes_length.
Qed.

Lemma uniform_bytes random n : Forall is_byte (uniform random n).1.
Proof.
  unfold uniform. destruct (getrandbits random (n * 8)) as [v r'].
  apply int_to_bytes_bytes.
Qed.



(** ** reuse_existing_examples *)

Lemma bytes_leb_total a b : bytes_leb a b = true ∨ bytes_leb b a = true.
Proof.
  revert b. induction a as [| x a IH]; intros [| y b];
    [by left | by left | by right |].
  destruct (Z.lt_trichotomy x y) as [Hlt | [-> | Hgt]].
  - left. by apply bytes_leb_cons_lt.
  - destruct (IH b) as [H | H]; [left | right]; by apply bytes_leb_cons_eq.
  - right. by apply bytes_leb_cons_lt.
Qed.

#[global] Instance buffer_le_total : Total buffer_le.
Proof.
  intros a b. unfold buffer_le, sort_key_leb, sort_key. cbn.
  destruct (Nat.lt_trichotomy (length a) (length b)) as [Hlt | [Heq | Hgt]].
  - left. apply Nat.ltb_lt in Hlt. by rewrite Hlt.
  - rewrite Heq, Nat.eqb_refl. cbn.
    destruct (bytes_leb_total a b) as [H | H]; [left | right];
      rewrite H; by rewrite orb_true_r.
  - right. apply Nat.ltb_lt in Hgt. by rewrite Hgt.
Qed.






(** ** cached_test_function leaves the state alone on a hit *)

(** C10.  When the traversal of [cached_test_function] reaches a stored
    leaf, the method returns that leaf and the runner is exactly as it
    was: counters, trie, target selector, interesting examples, health
    check state and every other attribute. *)
Theorem cached_test_function_hit_frame
    (user : UserFunction) (buffer : list Z) (st : ConjectureRunner)
    (d : ConjectureData) :
  cached_lookup (trie st) buffer = inl (Hit d) →
  cached_test_function user buffer st = Normal d st.
Proof.
  intros Hhit. unfold cached_test_function, with_state. by rewrite Hhit.
Qed.

(** ** The trie invariant is kept by [update_tree] *)

Lemma labelled_frame t t' labels :
  tree t' = tree t → dead t ⊆ dead t' → labelled t labels → labelled t' labels.
Proof.
  intros Htree Hdead (Hlen & Hroot & Hedge & Hleaf).
  unfold labelled. rewrite Htree. split_and!; [done | done | done |].
  intros n d Hn. destruct (Hleaf n d Hn) as (? & ? & ?). split_and!; [done | done |].
  by apply Hdead.
Qed.

Lemma labelled_empty : labelled reset_tree_to_empty [[]].
Proof.
  split_and!; [done | done | |].
  - intros [| n] children b k Hn Hb; cbn in Hn; [| done].
    injection Hn as <-. by rewrite lookup_empty in Hb.
  - intros [| n] d Hn; by cbn in Hn.
Qed.

Lemma labelled_new_child t labels node children b l :
  labelled t labels →
  tree t !! node = Some (Branch children) →
  children !! b = None →
  labels !! node = Some l →
  labelled
    (set_tree (λ tr, <[node := Branch (<[b := length (tree t)]> children)]>
                       (tr ++ [Branch ∅])) t)
    (labels ++ [l ++ [b]]).
Proof.
  intros (Hlen & Hroot & Hedge & Hleaf) Hnode Hb Hl.
  pose proof (lookup_lt_Some _ _ _ Hnode) as Hlt.
  unfold labelled. cbn [tree dead set_tree].
  split_and!.
  - rewrite length_insert, !length_app. cbn. lia.
  - rewrite lookup_app_l; [done |]. rewrite Hlen. lia.
  - intros n ch b' k Hn Hk.
    destruct (decide (n = node)) as [-> | Hne].
    + rewrite list_lookup_insert_eq in Hn by (rewrite length_app; lia).
      injection Hn as <-. exists l.
      split; [rewrite lookup_app_l; [done | lia] |].
      rewrite lookup_insert in Hk. case_decide as Hbb.
      * subst b'. injection Hk as <-.
        rewrite lookup_app_r by lia. by rewrite Hlen, Nat.sub_diag.
      * destruct (Hedge node children b' k Hnode Hk) as (l' & Hl' & Hk').
        rewrite Hl in Hl'. injection Hl' as <-.
        rewrite lookup_app_l; [done |]. by eapply lookup_lt_Some.
    + rewrite list_lookup_insert_ne in Hn by done.
      destruct (decide (n < length (tree t))%nat) as [Hin | Hout].
      * rewrite lookup_app_l in Hn by done.
        destruct (Hedge n ch b' k Hn Hk) as (l' & Hl' & Hk').
        exists l'. split; rewrite lookup_app_l; try done; by eapply lookup_lt_Some.
      * rewrite lookup_app_r in Hn by lia.
        destruct (n - length (tree t))%nat; cbn in Hn; [| done].
        injection Hn as <-. by rewrite lookup_empty in Hk.
  - intros n d Hn.
    destruct (decide (n = node)) as [-> | Hne].
    { rewrite list_lookup_insert_eq in Hn by (rewrite length_app; lia). done. }
    rewrite list_lookup_insert_ne in Hn by done.
    destruct (decide (n < length (tree t))%nat) as [Hin | Hout].
    + rewrite lookup_app_l in Hn by done.
      destruct (Hleaf n d Hn) as (Hlab & ? & ?).
      split_and!; [| done | done]. rewrite lookup_app_l; [done | lia].
    + rewrite lookup_app_r in Hn by lia.
      destruct (n - length (tree t))%nat; by cbn in Hn.
Qed.

Lemma walk_buffer_labelled data bs :
  ∀ i node indices t labels l,
    labelled t labels →
    labels !! node = Some l →
    ∃ labels',
      labelled (result_trie (walk_buffer data i bs node indices t)) labels'
      ∧ dead (result_trie (walk_buffer data i bs node indices t)) = dead t
      ∧ match walk_buffer data i bs node indices t with
        | inl ((node', _), t') =>
            node' ∈ dead t' ∨ labels' !! node' = Some (l ++ bs)
        | inr _ => True
        end.
Proof.
  induction bs as [| b bs IH]; intros i node indices t labels l Hlab Hl.
  { exists labels. cbn. split_and!; [done | done |]. right. by rewrite app_nil_r. }
  cbn [walk_buffer].
  set (t1 := if bool_decide (i ∈ forced_indices data)
             then set_forced (<[node := b]>) t else t).
  set (t2 := match masked_indices data !! i with
             | Some m => set_masks (<[node := m]>) t1
             | None => t1
             end).
  assert (tree t2 = tree t ∧ dead t2 = dead t) as [Htree Hdead].
  { subst t2 t1. by repeat case_match. }
  assert (labelled t2 labels) as Hlab2.
  { apply (labelled_frame t); [done | by rewrite Hdead | done]. }
  clearbody t2. clear t1.
  destruct (tree t2 !! node) as [[children | d] |] eqn:Hnode.
  2: { exists labels. cbn. by rewrite Hdead. }
  2: { exists labels. cbn. by rewrite Hdead. }
  destruct (children !! b) as [k |] eqn:Hb.
  - (* the child exists *)
    destruct Hlab2 as (Hlen & Hroot & Hedge & Hleaf).
    destruct (Hedge node children b k Hnode Hb) as (l' & Hl' & Hk).
    assert (l' = l) as -> by congruence.
    destruct (lookup_lt_is_Some_2 (tree t2) k) as [nd Hnd].
    { rewrite <- Hlen. by eapply lookup_lt_Some. }
    rewrite Hnd. case_bool_decide as Hkdead.
    + exists labels. cbn. split_and!; [done | done |]. by left.
    + destruct (IH (S i) k (indices ++ [node]) t2 labels (l ++ [b]))
        as (labels' & Hlab' & Hdead' & Hres); [done | done |].
      exists labels'. rewrite Hdead', Hdead. split_and!; [done | done |].
      by rewrite <- (assoc_L (++)) in Hres.
  - (* a new branch node is appended *)
    pose proof (labelled_new_child t2 labels node children b l Hlab2 Hnode Hb Hl)
      as Hlab3.
    destruct Hlab2 as (Hlen & _).
    set (t3 := set_tree _ t2) in *.
    assert (tree t3 !! length (tree t2) = Some (Branch ∅)) as Hnew.
    { subst t3. cbn [tree set_tree].
      rewrite list_lookup_insert_ne
        by (apply lookup_lt_Some in Hnode; lia).
      rewrite lookup_app_r by lia. by rewrite Nat.sub_diag. }
    assert ((labels ++ [l ++ [b]]) !! length (tree t2) = Some (l ++ [b])) as Hk.
    { rewrite lookup_app_r by lia. by rewrite Hlen, Nat.sub_diag. }
    assert (dead t3 = dead t) as Hdead3 by (by subst t3).
    rewrite Hnew. case_bool_decide as Hkdead.
    + exists (labels ++ [l ++ [b]]). cbn. split_and!; [done | done |]. by left.
    + destruct (IH (S i) (length (tree t2)) (indices ++ [node]) t3
                  (labels ++ [l ++ [b]]) (l ++ [b]))
        as (labels' & Hlab' & Hdead' & Hres); [done | done |].
      exists labels'. rewrite Hdead', Hdead3. split_and!; [done | done |].
      by rewrite <- (assoc_L (++)) in Hres.
Qed.

Lemma review_dead_labelled js :
  ∀ t labels, labelled t labels → labelled (result_trie (review_dead js t)) labels.
Proof.
  induction js as [| j js IH]; intros t labels Hlab; [done |].
  cbn [review_dead].
  destruct (negb (_is_simple_mask (default 255 (masks t !! j)))); [done |].
  destruct (tree t !! j) as [[children | d] |]; [| done | done].
  destruct (_ && _); [done |].
  destruct (forallb _ _); [| done].
  apply IH. apply (labelled_frame t); [done | | done]. cbn. apply union_subseteq_r.
Qed.

Lemma store_result_labelled data node indices t labels :
  labelled t labels →
  node ∈ dead t ∨ labels !! node = Some (buffer data) →
  labelled (result_trie (store_result data node indices t)) labels.
Proof.
  intros Hlab Hnode. unfold store_result.
  destruct (status_eqb (status data) OVERRUN) eqn:Hstatus; [done |].
  case_bool_decide as Hdead; [done |]. cbn [negb andb].
  destruct Hnode as [? | Hlabel]; [done |].
  destruct (node <? length (tree (set_dead _ t)))%nat eqn:Hlt.
  2: { cbn. apply (labelled_frame t); [done | | done]. cbn. apply union_subseteq_r. }
  apply review_dead_labelled.
  destruct Hlab as (Hlen & Hroot & Hedge & Hleaf).
  unfold labelled. cbn [tree dead set_tree set_dead].
  split_and!; [by rewrite length_insert | done | |].
  - intros n children b k Hn Hk.
    destruct (decide (n = node)) as [-> | Hne].
    + apply Nat.ltb_lt in Hlt. cbn in Hlt.
      rewrite list_lookup_insert_eq in Hn by done. done.
    + rewrite list_lookup_insert_ne in Hn by done. by eapply Hedge.
  - intros n d Hn.
    destruct (decide (n = node)) as [-> | Hne].
    + apply Nat.ltb_lt in Hlt. cbn in Hlt.
      rewrite list_lookup_insert_eq in Hn by done. injection Hn as <-.
      split_and!; [done | | by apply elem_of_union_l, elem_of_singleton].
      intros Hover. by rewrite Hover in Hstatus.
    + rewrite list_lookup_insert_ne in Hn by done.
      destruct (Hleaf n d Hn) as (? & ? & ?).
      split_and!; [done | done | by apply elem_of_union_r].
Qed.

Lemma update_tree_labelled cap data t labels :
  labelled t labels →
  ∃ labels', labelled (result_trie (update_tree cap data t)) labels'.
Proof.
  intros Hlab. unfold update_tree.
  destruct (walk_buffer_labelled data (buffer data) 0 0%nat [] t labels [])
    as (labels' & Hlab' & Hdead & Hres); [done | by destruct Hlab as (_ & ? & _) |].
  destruct (walk_buffer data 0 (buffer data) 0 [] t)
    as [[[node indices] t1] | [e t1]]; [| by exists labels'].
  exists labels'. cbn in Hlab', Hdead, Hres.
  apply store_result_labelled.
  - apply (labelled_frame t1); [done | | done]. cbn. apply union_subseteq_r.
  - destruct Hres as [? | ?]; [left; cbn; by apply elem_of_union_r | by right].
Qed.

Lemma trie_reachable_labelled t : trie_reachable t → ∃ labels, labelled t labels.
Proof.
  induction 1 as [| cap data t _ [labels IH]].
  - exists [[]]. apply labelled_empty.
  - by eapply update_tree_labelled.
Qed.

(** ** Cache hits *)

Lemma cached_loop_label t labels :
  labelled t labels →
  ∀ bs node l d,
    labels !! node = Some l →
    cached_loop t bs node = inl (Hit d) →
    status d ≠ OVERRUN ∧ ∃ k, buffer d = l ++ take k (canonical t node bs).
Proof.
  intros (Hlen & Hroot & Hedge & Hleaf).
  induction bs as [| c bs IH]; intros node l d Hl Hhit; [done |].
  cbn [cached_loop canonical] in *.
  destruct (tree t !! node) as [[children | ?] |] eqn:Hnode; [| done | done].
  destruct (children !! rewrite_byte t node c) as [next |] eqn:Hc; [| done].
  destruct (Hedge node children _ next Hnode Hc) as (l' & Hl' & Hnext).
  assert (l' = l) as -> by congruence.
  destruct (tree t !! next) as [[? | d'] |] eqn:Hnd; [| | done].
  - destruct (IH next (l ++ [rewrite_byte t node c]) d Hnext Hhit) as (Hs & k & Hk).
    split; [done |]. exists (S k). by rewrite Hk, <- (assoc_L (++)).
  - injection Hhit as ->.
    destruct (Hleaf next d Hnd) as (Hbuf & Hs & _).
    split; [done |]. exists 1%nat. cbn. rewrite take_0. congruence.
Qed.

Lemma canonical_plain t :
  forced t = ∅ → masks t = ∅ → ∀ bs node, canonical t node bs = bs.
Proof.
  intros Hforced Hmasks. induction bs as [| c bs IH]; intros node; [done |].
  cbn [canonical]. unfold rewrite_byte.
  rewrite Hforced, Hmasks, !lookup_empty. cbn.
  destruct (tree t !! node) as [[children | ?] |]; [| done | done].
  destruct (children !! c); [by rewrite IH | done].
Qed.

(** C2, amended.  If [cached_test_function(b)] returns a stored leaf
    [d], then [d.status] is not OVERRUN and [d.buffer] is a prefix of
    (or equal to) the buffer as the traversal reads it: [b] with the
    byte at every visited node replaced by the forced value of that
    node, if any, and then masked with the mask of that node, if any.
    Where the trie has no forced value and no mask, that is [b]
    itself. *)
Theorem cached_hit_is_canonical_prefix (t : Trie) (b : list Z) (d : ConjectureData) :
  trie_reachable t →
  cached_lookup t b = inl (Hit d) →
  status d ≠ OVERRUN
  ∧ buffer d `prefix_of` canonical t 0 b
  ∧ (forced t = ∅ → masks t = ∅ → buffer d `prefix_of` b).
Proof.
  intros Hreach Hhit.
  destruct (trie_reachable_labelled t Hreach) as [labels Hlab].
  destruct (cached_loop_label t labels Hlab b 0%nat [] d) as (Hs & k & Hk);
    [by destruct Hlab as (_ & ? & _) | done |].
  cbn in Hk. split; [done |].
  assert (buffer d `prefix_of` canonical t 0 b) as Hprefix.
  { rewrite Hk. apply prefix_take. }
  split; [done |]. intros Hf Hm. by rewrite canonical_plain in Hprefix.
Qed.

(** ** prescreen_buffer against the cache *)

Lemma prescreen_false_after_hit t labels :
  labelled t labels →
  ∀ bs node n k d,
    cached_loop t bs node = inl (Hit d) →
    prescreen_loop t n k bs node = inl false.
Proof.
  intros (Hlen & Hroot & Hedge & Hleaf).
  induction bs as [| c bs IH]; intros node n k d Hhit; [done |].
  cbn [cached_loop prescreen_loop] in *.
  case_bool_decide; [done |].
  destruct (match block_sizes t !! node with Some _ => _ | None => _ end); [done |].
  destruct (tree t !! node) as [[children | ?] |] eqn:Hnode; [| done | done].
  destruct (children !! rewrite_byte t node c) as [next |] eqn:Hc; [| done].
  destruct (tree t !! next) as [[? | d'] |] eqn:Hnd; [| | done].
  - by eapply IH.
  - destruct (Hleaf next d' Hnd) as (_ & _ & Hdead).
    destruct bs as [| c' bs']; [done |]. cbn [prescreen_loop].
    by rewrite bool_decide_eq_true_2.
Qed.

Lemma prescreen_true_misses t :
  ∀ bs node n k,
    prescreen_loop t n k bs node = inl true →
    cached_loop t bs node = inl Miss.
Proof.
  induction bs as [| c bs IH]; intros node n k Htrue; [done |].
  cbn [cached_loop prescreen_loop] in *.
  case_bool_decide; [done |].
  destruct (match block_sizes t !! node with Some _ => _ | None => _ end); [done |].
  destruct (tree t !! node) as [[children | ?] |] eqn:Hnode; [| done | done].
  destruct (children !! rewrite_byte t node c) as [next |] eqn:Hc; [| done].
  pose proof (IH next n (S k) Htrue) as Hmiss.
  destruct bs as [| c' bs']; [done |].
  cbn [prescreen_loop] in Htrue.
  case_bool_decide; [done |].
  destruct (match block_sizes t !! next with Some _ => _ | None => _ end); [done |].
  destruct (tree t !! next) as [[? | ?] |]; done.
Qed.

(** C2 as stated fails: the root has the forced byte 5, so the lookup
    of the buffer [9] follows the edge of byte 5 and returns the leaf
    whose buffer is [5], which is not a prefix of [9]. *)
Lemma cached_hit_not_prefix_of_buffer :
  trie_reachable trie_with_five
  ∧ cached_lookup trie_with_five [9] = inl (Hit wrote_five)
  ∧ buffer wrote_five = [5]
  ∧ ¬ (buffer wrote_five `prefix_of` [9]).
Proof.
  split; [apply reach_update, reach_empty |].
  split; [vm_compute; reflexivity |]. split; [reflexivity |].
  intros [k Hk]. cbn in Hk. congruence.
Qed.

Lemma cached_hit_is_canonical_prefix_witness :
  status wrote_five ≠ OVERRUN
  ∧ buffer wrote_five `prefix_of` canonical trie_with_five 0 [9]
  ∧ (forced trie_with_five = ∅ → masks trie_with_five = ∅ →
     buffer wrote_five `prefix_of` [9]).
Proof.
  apply (cached_hit_is_canonical_prefix trie_with_five [9] wrote_five).
  - apply reach_update, reach_empty.
  - vm_compute. reflexivity.
Defined.

Lemma cached_test_function_hit_frame_witness :
  cached_test_function always_overrun [5; 6] runner_with_five
  = Normal wrote_five runner_with_five.
Proof.
  apply cached_test_function_hit_frame. vm_compute. reflexivity.
Defined.

(** ** Reasoning about methods *)

Lemma preserves_ret {A} P (a : A) : preserves P (ret a).
Proof. by intros st. Qed.

Lemma preserves_raise {A} P e : preserves P (raise (A := A) e).
Proof. by intros st. Qed.

Lemma preserves_bind {A B} P (m : M A) (f : A → M B) :
  preserves P m → (∀ a, preserves P (f a)) → preserves P (m ≫= f).
Proof.
  intros Hm Hf st HP. specialize (Hm st HP).
  unfold mbind, M_bind, bind. destruct (m st) as [a st' | e st']; [| done].
  by apply Hf.
Qed.

Lemma preserves_when P b (m : M unit) : preserves P m → preserves P (when b m).
Proof. intros Hm. destruct b; [done | by intros st]. Qed.

Lemma preserves_with_state {A} P (f : ConjectureRunner → M A) :
  (∀ st, preserves P (f st)) → preserves P (with_state f).
Proof. intros Hf st HP. by apply Hf. Qed.

Lemma preserves_modify P f :
  (∀ st, P st → P (f st)) → preserves P (modify f).
Proof. intros Hf st HP. by apply Hf. Qed.

Lemma preserves_fail_health_check P label : preserves P (fail_health_check label).
Proof. intros st HP. unfold fail_health_check. by case_bool_decide. Qed.

Ltac preserves_step :=
  lazymatch goal with
  | |- preserves _ (ret _) => apply preserves_ret
  | |- preserves _ (raise _) => apply preserves_raise
  | |- preserves _ (fail_health_check _) => apply preserves_fail_health_check
  | |- preserves _ (when _ _) => apply preserves_when
  | |- preserves _ (_ ≫= _) => apply preserves_bind; [| intros ?]
  | |- preserves _ (with_state _) => apply preserves_with_state; intros ?
  | |- preserves _ (match ?x with _ => _ end) => destruct x
  end.

Ltac preserves_steps := repeat preserves_step.

Lemma test_function_reachable_trie data how now_before now_after :
  preserves reachable_trie (test_function data how now_before now_after).
Proof.
  unfold test_function, call_test_function, record_in_tree, check_exits,
    record_interesting, update_interesting, check_timeout, check_budget,
    check_exhausted, record_for_health_check, save_buffer, downgrade_buffer.
  preserves_steps.
  all: try (apply preserves_modify; intros s Hs; unfold reachable_trie in *;
            by repeat case_match).
  all: try (by intros s Hs).
  - intros s Hs. unfold target_selector_add. by repeat case_match.
  - apply preserves_modify. intros s Hs. apply reach_empty.
  - intros s Hs. unfold lift_trie, reachable_trie in *.
    match goal with
    | |- context [update_tree ?c data (trie s)] =>
        pose proof (reach_update c data (trie s) Hs) as Hreach;
        by destruct (update_tree c data (trie s)) as [[[] t'] | [e t']]
    end.
Qed.


Lemma no_exit_ret {A} (a : A) : no_exit (ret a).
Proof. by intros st e st'. Qed.

Lemma no_exit_raise {A} e : e ≠ RunIsComplete → no_exit (raise (A := A) e).
Proof. intros He st e' st' [= <- _]. done. Qed.

Lemma no_exit_bind {A B} (m : M A) (f : A → M B) :
  no_exit m → (∀ a, no_exit (f a)) → no_exit (m ≫= f).
Proof.
  intros Hm Hf st e st'. unfold mbind, M_bind, bind.
  destruct (m st) as [a s | e0 s] eqn:Hst.
  - apply Hf.
  - intros [= <- <-]. by eapply Hm.
Qed.

Lemma no_exit_when b (m : M unit) : no_exit m → no_exit (when b m).
Proof. intros Hm. destruct b; [done | by intros st e st']. Qed.

Lemma no_exit_with_state {A} (f : ConjectureRunner → M A) :
  (∀ st, no_exit (f st)) → no_exit (with_state f).
Proof. intros Hf st e st'. apply Hf. Qed.

Lemma no_exit_modify f : no_exit (modify f).
Proof. by intros st e st'. Qed.

Lemma no_exit_fail_health_check label : no_exit (fail_health_check label).
Proof.
  intros st e st'. unfold fail_health_check.
  case_bool_decide; [done |]. by intros [= <- _].
Qed.

Ltac no_exit_step :=
  lazymatch goal with
  | |- no_exit (ret _) => apply no_exit_ret
  | |- no_exit (raise _) => apply no_exit_raise; done
  | |- no_exit (modify _) => apply no_exit_modify
  | |- no_exit (fail_health_check _) => apply no_exit_fail_health_check
  | |- no_exit (when _ _) => apply no_exit_when
  | |- no_exit (_ ≫= _) => apply no_exit_bind; [| intros ?]
  | |- no_exit (with_state _) => apply no_exit_with_state; intros ?
  | |- no_exit (match ?x with _ => _ end) => destruct x
  end.

Ltac no_exit_steps := repeat no_exit_step.

Lemma target_selector_add_error self random data e :
  TargetSelector.add self random data = inr e → e ≠ RunIsComplete.
Proof.
  unfold TargetSelector.add. repeat case_match; try done; by intros [= <-].
Qed.

Lemma call_test_function_no_exit data how now :
  no_exit (call_test_function data how now).
Proof.
  unfold call_test_function, save_buffer. no_exit_steps.
  intros s e s'. unfold target_selector_add.
  destruct (TargetSelector.add _ _ data) as [[ts r] | e'] eqn:Hadd; [done |].
  intros [= <- _]. by eapply target_selector_add_error.
Qed.

Lemma update_tree_no_exit cap data t e t' :
  update_tree cap data t = inr (e, t') → e ≠ RunIsComplete.
Proof.
  unfold update_tree, store_result.
  assert (∀ bs i node indices t0, walk_buffer data i bs node indices t0 = inr (e, t')
                                  → e ≠ RunIsComplete) as Hwalk.
  { induction bs as [| b bs IH]; intros i node indices t0; [done |].
    cbn [walk_buffer]. repeat case_match; try done; try (by intros [= <- _]).
    all: apply IH. }
  assert (∀ js t0, review_dead js t0 = inr (e, t') → e ≠ RunIsComplete) as Hreview.
  { induction js as [| j js IH]; intros t0; [done |].
    cbn [review_dead]. repeat case_match; try done; try (by intros [= <- _]).
    apply IH. }
  destruct (walk_buffer data 0 (buffer data) 0 [] t)
    as [[[node indices] t1] | [e1 t1]] eqn:Hw.
  2: { intros [= <- <-]. by eapply Hwalk. }
  destruct (negb _ && negb _); [| done].
  destruct (_ <? _)%nat; [apply Hreview | by intros [= <- _]].
Qed.

Lemma record_in_tree_no_exit data : no_exit (record_in_tree data).
Proof.
  unfold record_in_tree. no_exit_steps.
  intros s e s'. unfold lift_trie.
  destruct (update_tree _ data (trie s)) as [[[] t'] | [e' t']] eqn:Hup; [done |].
  intros [= <- _]. by eapply update_tree_no_exit.
Qed.

Lemma record_for_health_check_no_exit data :
  no_exit (record_for_health_check data).
Proof. unfold record_for_health_check. no_exit_steps. Qed.

Lemma record_for_health_check_frame data st :
  same_budget_view (final_state (record_for_health_check data st)) st.
Proof.
  assert (preserves (λ s, same_budget_view s st) (record_for_health_check data))
    as Hkeep.
  { unfold record_for_health_check. preserves_steps.
    all: apply preserves_modify; intros s0 Hs0; exact Hs0. }
  apply Hkeep. by split_and!.
Qed.

Lemma budget_frame_pair data how now st :
  let keeps s := settings s = settings st ∧ start_time s = start_time st in
  keeps (final_state (call_test_function data how now st))
  ∧ ∀ s, keeps s → keeps (final_state (record_in_tree data s)).
Proof.
  intros keeps.
  assert (preserves keeps (call_test_function data how now)) as Hcall.
  { unfold call_test_function, save_buffer. preserves_steps.
    all: try (apply preserves_modify; intros s0 Hs0; subst keeps; cbn in *;
              by repeat case_match).
    intros s0 Hs0. unfold target_selector_add. by repeat case_match. }
  assert (preserves keeps (record_in_tree data)) as Htree.
  { unfold record_in_tree. preserves_steps.
    all: try (apply preserves_modify; intros s0 Hs0; subst keeps; cbn in *;
              by repeat case_match).
    intros s0 Hs0. unfold lift_trie. by repeat case_match. }
  split; [by apply Hcall | apply Htree].
Qed.
(** ** The exits of [test_function] *)

Lemma update_interesting_normal data st :
  update_interesting data st
  = Normal tt (final_state (update_interesting data st)).
Proof.
  unfold update_interesting, with_state, save_buffer, downgrade_buffer,
    mbind, M_bind, bind, when, modify, mret, M_ret, ret.
  by repeat case_match.
Qed.

Lemma update_interesting_effect data st :
  let st1 := final_state (update_interesting data st) in
  settings st1 = settings st
  ∧ start_time st1 = start_time st
  ∧ valid_examples st1 = valid_examples st
  ∧ call_count st1 = call_count st
  ∧ trie st1 = trie st
  ∧ interesting_examples st1 ≠ ∅.
Proof.
  unfold update_interesting, with_state, save_buffer, downgrade_buffer,
    mbind, M_bind, bind, when, modify, mret, M_ret, ret.
  repeat case_match; simplify_eq; cbn; split_and!; try done.
  all: try apply insert_non_empty.
  all: intros Hempty; match goal with
       | H : interesting_examples _ !! _ = Some _ |- _ =>
           by rewrite Hempty, lookup_empty in H
       end.
Qed.

(** [check_exits], one exit after the other.  [st1] is the runner after
    the update of [interesting_examples]. *)
Lemma check_exits_cases data now st :
  let st1 := if status_eqb (status data) INTERESTING
             then final_state (update_interesting data st) else st in
  check_exits data now st =
    if status_eqb (status data) INTERESTING && (MAX_SHRINKS <=? shrinks st1)%nat
    then exit_with ExitReason.max_shrinks st1
    else if timeout_fires st1 now
    then exit_with ExitReason.timeout st1
    else if bool_decide (interesting_examples st1 = ∅)
            && (max_examples (settings st1) <=? valid_examples st1)%nat
    then exit_with ExitReason.max_examples st1
    else if bool_decide (interesting_examples st1 = ∅)
            && (Nat.max (max_examples (settings st1) * 10) 1000 <=? call_count st1)%nat
    then exit_with ExitReason.max_iterations st1
    else if bool_decide (0%nat ∈ dead (trie st1))
    then exit_with ExitReason.finished st1
    else record_for_health_check data st1.
Proof.
  intros st1. subst st1.
  unfold check_exits, record_interesting, check_timeout, check_budget,
    check_exhausted, timeout_fires.
  unfold with_state, when, mbind, M_bind, bind, exit_with, ret.
  destruct (status_eqb (status data) INTERESTING); cbv beta iota; cbn [andb].
  - pose proof (update_interesting_normal data st) as Hnormal.
    set (st1 := final_state (update_interesting data st)) in *.
    rewrite Hnormal.
    destruct (MAX_SHRINKS <=? shrinks st1)%nat; [done |]. cbv beta iota.
    destruct ((0 <? timeout (settings st1)) && _); [done |]. cbv beta iota.
    case_bool_decide; cbn [andb]; cbv beta iota; [| by case_bool_decide].
    destruct (max_examples (settings st1) <=? valid_examples st1)%nat; [done |].
    cbv beta iota.
    destruct (_ <=? call_count st1)%nat; [done |]. cbv beta iota.
    by case_bool_decide.
  - destruct ((0 <? timeout (settings st)) && _); [done |]. cbv beta iota.
    case_bool_decide; cbn [andb]; cbv beta iota; [| by case_bool_decide].
    destruct (max_examples (settings st) <=? valid_examples st)%nat; [done |].
    cbv beta iota.
    destruct (_ <=? call_count st)%nat; [done |]. cbv beta iota.
    by case_bool_decide.
Qed.

Lemma test_function_phases data how now_before now_after st :
  (∃ e s, test_function data how now_before now_after st = Abort e s
          ∧ e ≠ RunIsComplete)
  ∨ (∃ s2, settings s2 = settings st
           ∧ start_time s2 = start_time st
           ∧ test_function data how now_before now_after st
             = check_exits data now_after s2).
Proof.
  destruct (budget_frame_pair data how now_before st) as [Hcall Htree].
  unfold test_function, mbind, M_bind, bind.
  destruct (call_test_function data how now_before st) as [[] s1 | e s1] eqn:Hc.
  2: { left. exists e, s1. split; [done |]. by eapply call_test_function_no_exit. }
  specialize (Htree s1 Hcall).
  destruct (record_in_tree data s1) as [[] s2 | e s2] eqn:Ht.
  2: { left. exists e, s2. split; [done |]. by eapply record_in_tree_no_exit. }
  right. exists s2. by destruct Htree.
Qed.

Lemma interesting_view data st :
  let st1 := if status_eqb (status data) INTERESTING
             then final_state (update_interesting data st) else st in
  settings st1 = settings st
  ∧ start_time st1 = start_time st
  ∧ (status_eqb (status data) INTERESTING = true → interesting_examples st1 ≠ ∅).
Proof.
  destruct (status_eqb (status data) INTERESTING); cbn; [| done].
  destruct (update_interesting_effect data st) as (? & ? & _ & _ & _ & ?). done.
Qed.

(** Which exit of [check_exits] was taken, read off the final state. *)
Lemma check_exits_reason data now st st' :
  check_exits data now st = Abort RunIsComplete st' →
  ∃ reason,
    exit_reason st' = Some reason
    ∧ match reason with
      | ExitReason.max_shrinks => interesting_examples st' ≠ ∅
      | ExitReason.timeout => timeout_fires st now = true
      | ExitReason.max_examples =>
          interesting_examples st' = ∅
          ∧ (max_examples (settings st) ≤ valid_examples st')%nat
      | ExitReason.max_iterations =>
          interesting_examples st' = ∅
          ∧ (Nat.max (max_examples (settings st) * 10) 1000 ≤ call_count st')%nat
      | ExitReason.finished => 0%nat ∈ dead (trie st')
      | ExitReason.flaky => False
      end.
Proof.
  rewrite check_exits_cases.
  destruct (interesting_view data st) as (Hset & Hstart & Hint).
  set (st1 := if status_eqb (status data) INTERESTING
              then final_state (update_interesting data st) else st) in *.
  assert (timeout_fires st1 now = timeout_fires st now) as Hfires.
  { unfold timeout_fires. by rewrite Hset, Hstart. }
  rewrite Hset, Hfires. unfold exit_with.
  destruct (status_eqb (status data) INTERESTING && _) eqn:Hshrinks.
  { intros [= <-]. exists ExitReason.max_shrinks. split; [done |]. cbn.
    apply Hint. by apply andb_true_iff in Hshrinks as []. }
  destruct (timeout_fires st now) eqn:Hto.
  { intros [= <-]. by exists ExitReason.timeout. }
  destruct (bool_decide (interesting_examples st1 = ∅) && (_ <=? valid_examples st1)%nat)
    eqn:Hmax.
  { intros [= <-]. exists ExitReason.max_examples. split; [done |]. cbn.
    apply andb_true_iff in Hmax as [Hempty Hle].
    split; [by apply bool_decide_eq_true in Hempty | by apply Nat.leb_le]. }
  destruct (bool_decide (interesting_examples st1 = ∅) && (_ <=? call_count st1)%nat)
    eqn:Hiter.
  { intros [= <-]. exists ExitReason.max_iterations. split; [done |]. cbn.
    apply andb_true_iff in Hiter as [Hempty Hle].
    split; [by apply bool_decide_eq_true in Hempty | by apply Nat.leb_le]. }
  destruct (bool_decide (0%nat ∈ dead (trie st1))) eqn:Hdead.
  { intros [= <-]. exists ExitReason.finished. split; [done |].
    by apply bool_decide_eq_true in Hdead. }
  intros Hhealth. by apply record_for_health_check_no_exit in Hhealth.
Qed.

(** When the budget is used up, no timeout fires and nothing
    interesting is known, [check_exits] takes the budget exit. *)
Lemma check_exits_budget data now st :
  let o := check_exits data now st in
  timeout_fires st now = false →
  interesting_examples (final_state o) = ∅ →
  ((max_examples (settings st) ≤ valid_examples (final_state o))%nat →
   o = Abort RunIsComplete (final_state o)
   ∧ exit_reason (final_state o) = Some ExitReason.max_examples)
  ∧ ((valid_examples (final_state o) < max_examples (settings st))%nat →
     (Nat.max (max_examples (settings st) * 10) 1000 ≤ call_count (final_state o))%nat →
     o = Abort RunIsComplete (final_state o)
     ∧ exit_reason (final_state o) = Some ExitReason.max_iterations).
Proof.
  intros o. subst o. rewrite check_exits_cases.
  destruct (interesting_view data st) as (Hset & Hstart & Hint).
  set (st1 := if status_eqb (status data) INTERESTING
              then final_state (update_interesting data st) else st) in *.
  assert (timeout_fires st1 now = timeout_fires st now) as Hfires.
  { unfold timeout_fires. by rewrite Hset, Hstart. }
  rewrite Hset, Hfires. unfold exit_with. intros ->.
  destruct (status_eqb (status data) INTERESTING && _) eqn:Hshrinks.
  { cbn. intros Hempty. apply andb_true_iff in Hshrinks as [Hi _].
    by destruct (Hint Hi). }
  destruct (bool_decide (interesting_examples st1 = ∅) && (_ <=? valid_examples st1)%nat)
    eqn:Hmax.
  { cbn. intros _. apply andb_true_iff in Hmax as [_ Hle%Nat.leb_le].
    split; [done | lia]. }
  destruct (bool_decide (interesting_examples st1 = ∅) && (_ <=? call_count st1)%nat)
    eqn:Hiter.
  { cbn. intros Hempty. rewrite bool_decide_eq_true_2 in Hmax by done.
    cbn in Hmax. apply Nat.leb_gt in Hmax. split; [lia | done]. }
  assert (interesting_examples
            (final_state
               (if bool_decide (0%nat ∈ dead (trie st1))
                then Abort RunIsComplete
                       (set_exit_reason (Some ExitReason.finished) st1)
                else record_for_health_check data st1))
          = interesting_examples st1
          ∧ valid_examples
              (final_state
                 (if bool_decide (0%nat ∈ dead (trie st1))
                  then Abort RunIsComplete
                         (set_exit_reason (Some ExitReason.finished) st1)
                  else record_for_health_check data st1))
            = valid_examples st1
          ∧ call_count
              (final_state
                 (if bool_decide (0%nat ∈ dead (trie st1))
                  then Abort RunIsComplete
                         (set_exit_reason (Some ExitReason.finished) st1)
                  else record_for_health_check data st1))
            = call_count st1) as (-> & -> & ->).
  { destruct (bool_decide (0%nat ∈ dead (trie st1))); [done |].
    destruct (record_for_health_check_frame data st1) as (_ & _ & ? & ? & ? & _).
    done. }
  intros Hempty. rewrite bool_decide_eq_true_2 in Hmax, Hiter by done.
  cbn in Hmax, Hiter. apply Nat.leb_gt in Hmax, Hiter. split; lia.
Qed.

(** C5, amended.  After a call of the test function that raises no
    Python exception and whose timeout check does not fire, while no
    interesting example is recorded: the run exits with reason
    [max_examples] if [valid_examples >= max_examples]; otherwise it
    exits with reason [max_iterations] if
    [call_count >= max(max_examples * 10, 1000)].  Neither exit occurs
    once an interesting example exists. *)
Theorem budget_exits (st : ConjectureRunner) (data : ConjectureData)
    (how : TestOutcome) (now_before now_after : Z) :
  let o := test_function data how now_before now_after st in
  let st' := final_state o in
  ((∀ e s, o = Abort e s → e = RunIsComplete) →
   timeout_fires st now_after = false →
   interesting_examples st' = ∅ →
   ((max_examples (settings st) ≤ valid_examples st')%nat →
    o = Abort RunIsComplete st'
    ∧ exit_reason st' = Some ExitReason.max_examples)
   ∧ ((valid_examples st' < max_examples (settings st))%nat →
      (Nat.max (max_examples (settings st) * 10) 1000 ≤ call_count st')%nat →
      o = Abort RunIsComplete st'
      ∧ exit_reason st' = Some ExitReason.max_iterations))
  ∧ (interesting_examples st' ≠ ∅ →
     o = Abort RunIsComplete st' →
     exit_reason st' ≠ Some ExitReason.max_examples
     ∧ exit_reason st' ≠ Some ExitReason.max_iterations).
Proof.
  intros o st'. subst st' o.
  destruct (test_function_phases data how now_before now_after st)
    as [(e & s & -> & He) | (s2 & Hset & Hstart & ->)].
  { split.
    - intros Hpy. by destruct (He (Hpy e s eq_refl)).
    - intros _ [= ->]. done. }
  split.
  - intros _ Hfires.
    pose proof (check_exits_budget data now_after s2) as Hbudget.
    cbn zeta in Hbudget. rewrite Hset in Hbudget. apply Hbudget.
    unfold timeout_fires in *. by rewrite Hset, Hstart.
  - intros Hint Hexit.
    destruct (check_exits_reason data now_after s2 _ Hexit) as (reason & -> & Hr).
    destruct reason; try done; by destruct Hr.
Qed.

Lemma budget_exits_witness :
  let o := test_function (simple_data [1] VALID) Returns 0 0 untimed_runner in
  o = Abort RunIsComplete (final_state o)
  ∧ exit_reason (final_state o) = Some ExitReason.max_examples.
Proof.
  intros o.
  destruct (budget_exits untimed_runner (simple_data [1] VALID) Returns 0 0)
    as [Hbudget _].
  apply Hbudget.
  - intros e s. vm_compute. by intros [= <- _].
  - vm_compute. reflexivity.
  - vm_compute. reflexivity.
  - vm_compute. lia.
Defined.

(** C5 as stated fails: the timeout check comes first.  With one valid
    example against a budget of one and no interesting example, the run
    exits with reason [timeout]. *)
Lemma timeout_exit_before_budget :
  let o := test_function (simple_data [1] VALID) Returns 0 5 timed_runner in
  interesting_examples (final_state o) = ∅
  ∧ valid_examples (final_state o) = 1%nat
  ∧ max_examples (settings timed_runner) = 1%nat
  ∧ o = Abort RunIsComplete (final_state o)
  ∧ exit_reason (final_state o) = Some ExitReason.timeout.
Proof. vm_compute. done. Qed.

(** ** The confirmation loop of shrink_interesting_examples *)

Lemma test_function_exit_not_flaky data how now_before now_after st st' :
  test_function data how now_before now_after st = Abort RunIsComplete st' →
  exit_reason st' ≠ Some ExitReason.flaky.
Proof.
  intros Hexit.
  destruct (test_function_phases data how now_before now_after st)
    as [(e & s & Heq & He) | (s2 & _ & _ & Heq)]; rewrite Heq in Hexit.
  - by injection Hexit as -> _.
  - destruct (check_exits_reason data now_after s2 st' Hexit) as (reason & -> & Hr).
    by destruct reason.
Qed.

Lemma confirm_loop_unfold user prev_data rest st :
  status prev_data = INTERESTING →
  confirm_loop user (prev_data :: rest) st =
    let data := user (call_count st) (buffer prev_data) in
    match run_execution data st with
    | Normal _ st1 =>
        if negb (status_eqb (status (exec_data data)) INTERESTING)
        then Abort RunIsComplete (set_exit_reason (Some ExitReason.flaky) st1)
        else confirm_loop user rest st1
    | Abort e st1 => Abort e st1
    end.
Proof.
  intros Hprev. cbn [confirm_loop]. rewrite Hprev.
  change (status_eqb INTERESTING INTERESTING) with true. cbn [negb].
  unfold with_state, mbind, M_bind, bind. cbn zeta.
  destruct (run_execution _ st) as [[] st1 | e st1]; [| done].
  by destruct (negb _).
Qed.

Lemma confirm_loop_flaky_only_after_disagreement user prevs :
  ∀ st st',
    confirm_loop user prevs st = Abort RunIsComplete st' →
    exit_reason st' = Some ExitReason.flaky →
    ∃ pre prev post s s1,
      prevs = pre ++ prev :: post
      ∧ confirm_loop user pre st = Normal tt s
      ∧ run_execution (user (call_count s) (buffer prev)) s = Normal tt s1
      ∧ status (exec_data (user (call_count s) (buffer prev))) ≠ INTERESTING
      ∧ st' = set_exit_reason (Some ExitReason.flaky) s1.
Proof.
  induction prevs as [| prev rest IH]; intros st st' Hloop Hflaky; [done |].
  destruct (decide (status prev = INTERESTING)) as [Hprev | Hprev].
  2: { cbn [confirm_loop] in Hloop.
       destruct (status prev); done. }
  rewrite confirm_loop_unfold in Hloop by done. cbn zeta in Hloop.
  destruct (run_execution _ st) as [[] st1 | e st1] eqn:Hrun.
  - destruct (status_eqb (status (exec_data (user (call_count st) (buffer prev))))
                INTERESTING) eqn:Hstatus; cbn [negb] in Hloop.
    + destruct (IH st1 st' Hloop Hflaky)
        as (pre & p & post & s & s1 & -> & Hpre & Hp & Hne & ->).
      exists (prev :: pre), p, post, s, s1. split_and!; try done.
      rewrite confirm_loop_unfold by done. cbn zeta. rewrite Hrun, Hstatus.
      done.
    + injection Hloop as <-.
      exists [], prev, rest, st, st1. split_and!; try done.
      intros Heq. by rewrite Heq in Hstatus.
  - injection Hloop as -> ->.
    by apply test_function_exit_not_flaky in Hrun.
Qed.

(** C9, amended.  In the confirmation loop of
    [shrink_interesting_examples]: if the replay of a stored example
    returns from [test_function] (the call itself raises nothing and
    takes none of its own exits: timeout, exhausted tree, shrink limit)
    with a data whose status is not INTERESTING, the run exits with
    reason [flaky]; if it returns with status INTERESTING the loop goes
    on to the next example.  The run exits with reason [flaky] only
    after such a replay: the loop went through the examples before
    some stored example, every one of them replayed as INTERESTING,
    and the replay of that example, in the state the loop had reached,
    returned from [test_function] with a status other than
    INTERESTING.  So if every replay yields INTERESTING the run does
    not exit [flaky]. *)
Theorem confirm_loop_flaky (user : UserFunction) (prev_data : ConjectureData)
    (rest : list ConjectureData) (st : ConjectureRunner) :
  status prev_data = INTERESTING →
  let data := user (call_count st) (buffer prev_data) in
  (∀ st1,
     run_execution data st = Normal tt st1 →
     (status (exec_data data) ≠ INTERESTING →
      confirm_loop user (prev_data :: rest) st
      = Abort RunIsComplete (set_exit_reason (Some ExitReason.flaky) st1))
     ∧ (status (exec_data data) = INTERESTING →
        confirm_loop user (prev_data :: rest) st = confirm_loop user rest st1))
  ∧ (∀ st',
       confirm_loop user (prev_data :: rest) st = Abort RunIsComplete st' →
       exit_reason st' = Some ExitReason.flaky →
       ∃ pre prev post s s1,
         prev_data :: rest = pre ++ prev :: post
         ∧ confirm_loop user pre st = Normal tt s
         ∧ run_execution (user (call_count s) (buffer prev)) s = Normal tt s1
         ∧ status (exec_data (user (call_count s) (buffer prev))) ≠ INTERESTING
         ∧ st' = set_exit_reason (Some ExitReason.flaky) s1).
Proof.
  intros Hprev data. split.
  - intros st1 Hrun. rewrite confirm_loop_unfold by done. cbn zeta.
    fold data. rewrite Hrun. split.
    + intros Hstatus. destruct (status (exec_data data)); done.
    + intros ->. done.
  - intros st'. apply confirm_loop_flaky_only_after_disagreement.
Qed.

(** The stored example fails on the buffer [1]; on replay the test
    function draws the same byte and passes.  [test_function] returns,
    and the run exits with reason [flaky]. *)
Lemma confirm_loop_flaky_witness :
  let data := passes_on_replay (call_count runner_with_failure)
                               (buffer failed_once) in
  let st1 := final_state (run_execution data runner_with_failure) in
  status (exec_data data) = VALID
  ∧ confirm_loop passes_on_replay [failed_once] runner_with_failure
    = Abort RunIsComplete (set_exit_reason (Some ExitReason.flaky) st1).
Proof.
  intros data st1. split; [reflexivity |].
  destruct (confirm_loop_flaky passes_on_replay failed_once []
              runner_with_failure eq_refl) as [Hreturn _].
  destruct (Hreturn st1) as [Hflaky _].
  - vm_compute. reflexivity.
  - apply Hflaky. discriminate.
Defined.

(** C9 as stated fails: the replay of the stored example draws nothing
    and is VALID, so its status is not INTERESTING; but recording the
    empty buffer kills the root of the tree, [test_function] exits with
    reason [finished], and the check for [flaky] is never reached. *)
Lemma disagreeing_replay_exits_finished :
  let o := confirm_interesting_examples now_passes runner_with_failure in
  interesting_values runner_with_failure = [failed_once]
  ∧ exit_reason runner_with_failure = None
  ∧ status (exec_data (now_passes (call_count runner_with_failure)
                                  (buffer failed_once))) = VALID
  ∧ o = Abort RunIsComplete (final_state o)
  ∧ exit_reason (final_state o) = Some ExitReason.finished.
Proof. vm_compute. done. Qed.

(** ** generate_novel_prefix *)

(** The fuel of the model is enough: the loop never runs out of it. *)
Lemma novel_prefix_loop_fuel t cap :
  ∀ fuel rnd prefix node,
    (1 ≤ fuel)%nat →
    (cap < fuel + length prefix)%nat →
    novel_prefix_loop fuel t cap rnd prefix node ≠ inr Diverges.
Proof.
  induction fuel as [| fuel IH]; intros rnd prefix node Hpos Hfuel; [lia |].
  cbn [novel_prefix_loop].
  destruct (length prefix <? cap)%nat eqn:Hlen; cbn [negb]; [| done].
  apply Nat.ltb_lt in Hlen.
  assert (∀ r p n, (length prefix < length p)%nat →
                   novel_prefix_loop fuel t cap r p n ≠ inr Diverges) as Hrec.
  { intros r p n Hp. apply IH; lia. }
  case_bool_decide; [done |].
  destruct (negb _); [done |].
  destruct (tree t !! node) as [[children | ?] |]; [| done | done].
  assert (∀ p, (length prefix ≤ length p)%nat →
            (let '(c, rnd1) := randrange rnd 0 (default 255 (masks t !! node) + 1) in
             match children !! c with
             | None => inl (p ++ [c], rnd1)
             | Some next_node =>
                 if bool_decide (next_node ∈ dead t) then
                   match live_choices t children (default 255 (masks t !! node) + 1) with
                   | [] => inr AssertionError
                   | choices =>
                       match choice rnd1 choices with
                       | (None, _) => inr IndexError
                       | (Some c, rnd2) =>
                           match children !! c with
                           | None => inl (p ++ [c], rnd2)
                           | Some next =>
                               novel_prefix_loop fuel t cap rnd2 (p ++ [c]) next
                           end
                       end
                   end
                 else novel_prefix_loop fuel t cap rnd1 (p ++ [c]) next_node
             end) ≠ inr Diverges) as Hrandom.
  { intros p Hp. destruct (randrange rnd 0 _) as [c rnd1].
    destruct (children !! c) as [next_node |]; [| done].
    case_bool_decide.
    - destruct (live_choices t children _) as [| c0 choices]; [done |].
      destruct (choice rnd1 (c0 :: choices)) as [[c' |] rnd2]; [| done].
      destruct (children !! c'); [| done].
      apply Hrec. rewrite length_app. cbn. lia.
    - apply Hrec. rewrite length_app. cbn. lia. }
  destruct (forced t !! node) as [c |].
  - destruct (children !! c).
    + apply Hrec. rewrite length_app. cbn. lia.
    + destruct (_ <=? 0); [done |]. apply Hrandom. rewrite length_app. lia.
  - destruct (_ <=? 0); [done |]. by apply Hrandom.
Qed.

Lemma generate_novel_prefix_terminates t cap rnd :
  generate_novel_prefix t cap rnd ≠ inr Diverges.
Proof. apply novel_prefix_loop_fuel; cbn; lia. Qed.

Lemma filter_all_false {A} (f : A → bool) (l : list A) :
  (∀ x, x ∈ l → f x = false) → List.filter f l = [].
Proof.
  induction l as [| x l IH]; intros Hall; [done |].
  cbn. rewrite (Hall x) by (by apply elem_of_cons; left).
  apply IH. intros y Hy. apply Hall. by apply elem_of_cons; right.
Qed.

(** The forced byte of a node leads the loop to the child of that byte. *)
Lemma novel_prefix_loop_forced fuel t cap rnd prefix node children c next :
  (length prefix < cap)%nat →
  node ∉ dead t →
  _is_simple_mask (default 255 (masks t !! node)) = true →
  tree t !! node = Some (Branch children) →
  forced t !! node = Some c →
  children !! c = Some next →
  novel_prefix_loop (S fuel) t cap rnd prefix node
  = novel_prefix_loop fuel t cap rnd (prefix ++ [c]) next.
Proof.
  intros Hlen Hlive Hmask Hnode Hforced Hc. cbn [novel_prefix_loop].
  apply Nat.ltb_lt in Hlen. rewrite Hlen. cbn [negb].
  rewrite bool_decide_eq_false_2 by done.
  by rewrite Hmask, Hnode, Hforced, Hc.
Qed.

(** A live node without a forced byte, all of whose possible bytes
    lead to dead children: the assertion [assert choices] fails. *)
Lemma novel_prefix_loop_stuck fuel t cap rnd prefix node children :
  (length prefix < cap)%nat →
  node ∉ dead t →
  _is_simple_mask (default 255 (masks t !! node)) = true →
  tree t !! node = Some (Branch children) →
  forced t !! node = None →
  0 <= default 255 (masks t !! node) →
  (∀ b, 0 <= b < default 255 (masks t !! node) + 1 →
        ∃ k, children !! b = Some k ∧ k ∈ dead t) →
  novel_prefix_loop (S fuel) t cap rnd prefix node = inr AssertionError.
Proof.
  intros Hlen Hlive Hmask Hnode Hforced Hpos Hdead. cbn [novel_prefix_loop].
  apply Nat.ltb_lt in Hlen. rewrite Hlen. cbn [negb].
  rewrite bool_decide_eq_false_2 by done.
  rewrite Hmask, Hnode, Hforced. cbn [negb].
  replace (default 255 (masks t !! node) + 1 <=? 0) with false
    by (symmetry; apply Z.leb_gt; lia).
  pose proof (randrange_bounds rnd 0 (default 255 (masks t !! node) + 1)) as Hc.
  destruct (randrange rnd 0 _) as [c rnd1]. cbn in Hc.
  destruct (Hdead c) as (k & -> & Hk); [lia |].
  rewrite bool_decide_eq_true_2 by done.
  unfold live_choices. rewrite filter_all_false; [done |].
  intros b Hb%elem_of_seqZ.
  destruct (Hdead b) as (k' & -> & Hk'); [lia |].
  by rewrite bool_decide_eq_true_2.
Qed.

Lemma stuck_runner_trie rnd : trie (stuck_runner rnd) = stuck_trie.
Proof. vm_compute. reflexivity. Qed.

(** C1, the failing run.  With [buffer_size = 4] the two overrunning
    test cases [overrun_zero] and [overrun_one] are recorded without an
    exit.  Afterwards the root is not dead, yet for every random source
    [generate_novel_prefix] fails its assertion [assert choices]: the
    node below the forced root has a one-bit mask and both of its
    children were marked dead by the zero-bound cap, which does not
    pass deadness on to the parent. *)
Theorem generate_novel_prefix_fails_on_live_root (rnd : Random) :
  trie_reachable (trie (stuck_runner rnd))
  ∧ exit_reason (stuck_runner rnd) = None
  ∧ (0%nat ∉ dead (trie (stuck_runner rnd)))
  ∧ runner_generate_novel_prefix (stuck_runner rnd)
    = Abort AssertionError (stuck_runner rnd).
Proof.
  split_and!.
  - rewrite stuck_runner_trie. apply reach_update, reach_update, reach_empty.
  - vm_compute. reflexivity.
  - rewrite stuck_runner_trie. by vm_compute.
  - unfold runner_generate_novel_prefix.
    replace (cap (stuck_runner rnd)) with 2%nat by (vm_compute; reflexivity).
    replace (random (stuck_runner rnd)) with rnd by (vm_compute; reflexivity).
    rewrite stuck_runner_trie.
    assert (generate_novel_prefix stuck_trie 2 rnd = inr AssertionError) as ->;
      [| done].
    unfold generate_novel_prefix.
    rewrite (novel_prefix_loop_forced _ _ _ _ _ _ {[0 := 1%nat]} 0 1%nat);
      [| cbn; lia | by vm_compute | by vm_compute | by vm_compute
       | by vm_compute | by vm_compute].
    apply (novel_prefix_loop_stuck _ _ _ _ _ _ (<[1 := 4%nat]> {[0 := 2%nat]}));
      [cbn; lia | by vm_compute | by vm_compute | by vm_compute | by vm_compute
       | by vm_compute |].
    replace (default 255 (masks stuck_trie !! 1%nat) + 1) with 2
      by (vm_compute; reflexivity).
    intros b Hb. assert (b = 0 ∨ b = 1) as [-> | ->] by lia.
    + exists 2%nat. by vm_compute.
    + exists 4%nat. by vm_compute.
Qed.


(** ** What generate_novel_prefix returns is novel *)

Lemma forced_ok_frame t t' :
  tree t' = tree t → forced t' = forced t → forced_ok t → forced_ok t'.
Proof. intros Htree Hforced. unfold forced_ok. by rewrite Htree, Hforced. Qed.

Lemma walk_buffer_forced_ok data bs :
  ∀ i node indices t,
    (node < length (tree t))%nat →
    forced_ok t →
    forced_ok (result_trie (walk_buffer data i bs node indices t)).
Proof.
  induction bs as [| b bs IH]; intros i node indices t Hnode Hok; [done |].
  cbn [walk_buffer].
  set (t1 := if bool_decide (i ∈ forced_indices data)
             then set_forced (<[node := b]>) t else t).
  set (t2 := match masked_indices data !! i with
             | Some m => set_masks (<[node := m]>) t1
             | None => t1
             end).
  assert (tree t2 = tree t) as Htree.
  { subst t2 t1. by repeat case_match. }
  assert (∀ n c, forced t2 !! n = Some c →
                 (n = node ∧ c = b) ∨ forced t !! n = Some c) as Hforced.
  { intros n c. subst t2 t1. repeat case_match; cbn; try (by right).
    all: rewrite lookup_insert;
      destruct (decide (node = n)) as [<- | _]; [intros [= <-]; by left | by right]. }
  clearbody t2. clear t1.
  destruct Hok as [Hlen Hok].
  destruct (tree t2 !! node) as [[children | d] |] eqn:Hlookup.
  - destruct (children !! b) as [k |] eqn:Hb.
    + assert (forced_ok t2) as Hok2.
      { split; [by rewrite Htree |]. intros n c [[-> ->] | Hold]%Hforced.
        - by rewrite Hlookup, Hb.
        - rewrite Htree. by apply Hok. }
      destruct (tree t2 !! k) eqn:Hk; [| done].
      case_bool_decide; [done |].
      apply IH; [by eapply lookup_lt_Some | done].
    + set (t3 := set_tree _ t2).
      assert (forced_ok t3) as Hok3.
      { subst t3. split; cbn [tree forced set_tree].
        { rewrite length_insert, length_app. cbn. lia. }
        intros n c Hn.
        destruct (decide (n = node)) as [-> | Hne].
        - rewrite list_lookup_insert_eq
            by (rewrite length_app, Htree; lia).
          destruct (Hforced _ _ Hn) as [[_ ->] | Hold].
          + by rewrite lookup_insert_eq.
          + specialize (Hok _ _ Hold). rewrite <- Htree, Hlookup in Hok.
            rewrite lookup_insert. by case_decide.
        - rewrite list_lookup_insert_ne by done.
          destruct (Hforced _ _ Hn) as [[-> _] | Hold]; [done |].
          specialize (Hok _ _ Hold). rewrite <- Htree in Hok.
          destruct (tree t2 !! n) eqn:Hlook; [| done].
          by rewrite (lookup_app_l_Some _ _ _ _ Hlook). }
      assert (tree t3 !! length (tree t2) = Some (Branch ∅)) as Hnew.
      { subst t3. cbn [tree set_tree].
        rewrite list_lookup_insert_ne by (rewrite Htree; lia).
        rewrite lookup_app_r by lia. by rewrite Nat.sub_diag. }
      rewrite Hnew. case_bool_decide; [done |].
      apply IH; [by eapply lookup_lt_Some | done].
  - cbn. split; [by rewrite Htree |]. intros n c [[-> ->] | Hold]%Hforced.
    + by rewrite Hlookup.
    + rewrite Htree. by apply Hok.
  - apply lookup_ge_None in Hlookup. rewrite Htree in Hlookup. lia.
Qed.

Lemma review_dead_forced_ok js :
  ∀ t, forced_ok t → forced_ok (result_trie (review_dead js t)).
Proof.
  induction js as [| j js IH]; intros t Hok; [done |].
  cbn [review_dead].
  destruct (negb (_is_simple_mask (default 255 (masks t !! j)))); [done |].
  destruct (tree t !! j) as [[children | d] |]; [| done | done].
  destruct (_ && _); [done |].
  destruct (forallb _ _); [| done].
  apply IH. by apply (forced_ok_frame t).
Qed.

Lemma update_tree_forced_ok cap data t :
  forced_ok t → forced_ok (result_trie (update_tree cap data t)).
Proof.
  intros Hok. unfold update_tree.
  pose proof (walk_buffer_forced_ok data (buffer data) 0 0%nat [] t
                (proj1 Hok) Hok) as Hwalk.
  destruct (walk_buffer data 0 (buffer data) 0 [] t)
    as [[[node indices] t1] | [e t1]]; [| done].
  cbn in Hwalk. unfold store_result.
  destruct (negb _ && negb _); [| by apply (forced_ok_frame t1)].
  destruct (_ <? _)%nat; [| by apply (forced_ok_frame t1)].
  apply review_dead_forced_ok.
  destruct Hwalk as [Hlen Hforced]. split; cbn [tree forced set_tree set_dead].
  { by rewrite length_insert. }
  intros n c Hn. specialize (Hforced n c Hn).
  destruct (decide (n = node)) as [-> | Hne].
  - destruct (tree t1 !! node) eqn:Hlook; [| done].
    by rewrite list_lookup_insert_eq by (by eapply lookup_lt_Some).
  - by rewrite list_lookup_insert_ne.
Qed.

Lemma trie_reachable_forced_ok t : trie_reachable t → forced_ok t.
Proof.
  induction 1 as [| cap data t _ IH].
  - split; [cbn; lia |]. intros n c Hn. cbn in Hn. by rewrite lookup_empty in Hn.
  - by apply update_tree_forced_ok.
Qed.

Lemma walk_snoc t :
  ∀ q node n c children,
    walk t node q = Some n →
    tree t !! n = Some (Branch children) →
    walk t node (q ++ [c]) = children !! c.
Proof.
  induction q as [| b q IH]; intros node n c children Hwalk Hn.
  - injection Hwalk as ->. cbn. rewrite Hn. by destruct (children !! c).
  - cbn in *. destruct (tree t !! node) as [[ch | ?] |]; [| done | done].
    destruct (ch !! b); [| done]. by eapply IH.
Qed.

Lemma novel_prefix_loop_novel t cap :
  forced_ok t →
  ∀ fuel rnd prefix node p rnd',
    walk t 0 prefix = Some node →
    novel_prefix_loop fuel t cap rnd prefix node = inl (p, rnd') →
    ∃ q c n children,
      p = q ++ [c]
      ∧ walk t 0 q = Some n
      ∧ tree t !! n = Some (Branch children)
      ∧ children !! c = None.
Proof.
  intros [_ Hforced].
  induction fuel as [| fuel IH]; intros rnd prefix node p rnd' Hwalk; [done |].
  cbn [novel_prefix_loop].
  destruct (negb (length prefix <? cap)%nat); [done |].
  case_bool_decide; [done |].
  destruct (negb _); [done |].
  destruct (tree t !! node) as [[children | ?] |] eqn:Hnode; [| done | done].
  assert (∀ c next, children !! c = Some next →
                    walk t 0 (prefix ++ [c]) = Some next) as Hstep.
  { intros c next Hc. by rewrite (walk_snoc t prefix 0%nat node c children). }
  assert ((let '(c, rnd1) := randrange rnd 0 (default 255 (masks t !! node) + 1) in
           match children !! c with
           | None => inl (prefix ++ [c], rnd1)
           | Some next_node =>
               if bool_decide (next_node ∈ dead t) then
                 match live_choices t children (default 255 (masks t !! node) + 1) with
                 | [] => inr AssertionError
                 | choices =>
                     match choice rnd1 choices with
                     | (None, _) => inr IndexError
                     | (Some c, rnd2) =>
                         match children !! c with
                         | None => inl (prefix ++ [c], rnd2)
                         | Some next =>
                             novel_prefix_loop fuel t cap rnd2 (prefix ++ [c]) next
                         end
                     end
                 end
               else novel_prefix_loop fuel t cap rnd1 (prefix ++ [c]) next_node
           end) = inl (p, rnd') →
          ∃ q c n children0,
            p = q ++ [c] ∧ walk t 0 q = Some n
            ∧ tree t !! n = Some (Branch children0) ∧ children0 !! c = None)
    as Hrandom.
  { destruct (randrange rnd 0 _) as [c rnd1].
    destruct (children !! c) as [next_node |] eqn:Hc.
    2: { intros [= <- <-]. by exists prefix, c, node, children. }
    case_bool_decide.
    - destruct (live_choices t children _) as [| c0 choices]; [done |].
      destruct (choice rnd1 (c0 :: choices)) as [[c' |] rnd2]; [| done].
      destruct (children !! c') as [next |] eqn:Hc'.
      + apply IH. by apply Hstep.
      + intros [= <- <-]. by exists prefix, c', node, children.
    - apply IH. by apply Hstep. }
  destruct (forced t !! node) as [c |] eqn:Hf;
    [| by destruct (_ <=? 0)].
  specialize (Hforced node c Hf). rewrite Hnode in Hforced.
  destruct Hforced as [next Hnext]. rewrite Hnext.
  apply IH. by apply Hstep.
Qed.

(** Whenever [generate_novel_prefix] returns, on a trie that
    [update_tree] built, its result is novel: all of it but the last
    byte is a path of the tree to a branch node, and that node has no
    child for the last byte. *)
Lemma generate_novel_prefix_novel t cap rnd p rnd' :
  trie_reachable t →
  generate_novel_prefix t cap rnd = inl (p, rnd') →
  ∃ q c n children,
    p = q ++ [c]
    ∧ walk t 0 q = Some n
    ∧ tree t !! n = Some (Branch children)
    ∧ children !! c = None.
Proof.
  intros Hreach. apply novel_prefix_loop_novel; [| done].
  by apply trie_reachable_forced_ok.
Qed.


(** * Further properties of the engine *)

(** ** _is_simple_mask *)

Lemma pos_land_succ_zero (p : positive) :
  Pos.land p (Pos.succ p) = 0%N → ∃ n, 0 <= n ∧ Z.pos p = 2 ^ n - 1.
Proof.
  induction p as [q IH | q _ |].
  - change (Pos.land q~1 (Pos.succ q~1))
      with (Pos.Ndouble (Pos.land q (Pos.succ q))).
    destruct (Pos.land q (Pos.succ q)) eqn:Hq; [| done].
    intros _. destruct (IH eq_refl) as (n & Hn & Heq).
    exists (n + 1). split; [lia |].
    rewrite Z.pow_add_r, Z.pow_1_r by lia. lia.
  - change (Pos.land q~0 (Pos.succ q~0)) with (Pos.Ndouble (Pos.land q q)).
    pose proof (N.land_diag (N.pos q)) as Hdiag.
    change (N.land (N.pos q) (N.pos q)) with (Pos.land q q) in Hdiag.
    by rewrite Hdiag.
  - intros _. by exists 1.
Qed.

(** X1.  A non-negative mask passes [_is_simple_mask] exactly when it
    is [2 ** n - 1] for some [n], as the docstring says. *)
Theorem is_simple_mask_iff (mask : Z) :
  0 <= mask →
  _is_simple_mask mask = true ↔ ∃ n, 0 <= n ∧ mask = 2 ^ n - 1.
Proof.
  intros Hpos. unfold _is_simple_mask. rewrite Z.eqb_eq. split.
  - destruct mask as [| p | p]; [by exists 0 | | lia].
    intros Hland. apply pos_land_succ_zero.
    replace (Z.pos p + 1) with (Z.pos (Pos.succ p)) in Hland by lia.
    change (Z.land (Z.pos p) (Z.pos (Pos.succ p)))
      with (Z.of_N (Pos.land p (Pos.succ p))) in Hland.
    by destruct (Pos.land p (Pos.succ p)).
  - intros (n & Hn & ->).
    replace (2 ^ n - 1 + 1) with (2 ^ n) by lia.
    replace (2 ^ n - 1) with (Z.ones n) by (rewrite Z.ones_equiv; lia).
    rewrite Z.land_comm, Z.land_ones by done.
    apply Z_mod_same_full.
Qed.

Lemma is_simple_mask_iff_witness :
  _is_simple_mask 127 = true ↔ ∃ n, 0 <= n ∧ 127 = 2 ^ n - 1.
Proof. apply is_simple_mask_iff. lia. Defined.

(** ** uniform and pop_random *)

(** X2.  [uniform(random, n)] is a string of exactly [n] bytes, for
    every random source. *)
Theorem uniform_is_n_bytes (random : Random) (n : nat) :
  length (uniform random n).1 = n ∧ Forall is_byte (uniform random n).1.
Proof. split; [apply uniform_length | apply uniform_bytes]. Qed.

Lemma pop_random_permutation {A} (random : Random) (values : list A) x rest r' :
  pop_random random values = Some (x, rest, r') → values ≡ₚ x :: rest.
Proof.
  intros Hpop. unfold pop_random in Hpop.
  destruct (last values) as [lst |] eqn:Hlast; [| done].
  destruct (randrange random 0 (Z.of_nat (length values))) as [i r1].
  destruct (values !! Z.to_nat i) as [y |] eqn:Hy; [| done].
  injection Hpop as -> <- _.
  apply last_Some in Hlast as [l ->].
  rewrite removelast_firstn_len, length_insert, length_app. cbn.
  replace (Init.Nat.pred (length l + 1)) with (length l) by lia.
  destruct (decide (Z.to_nat i < length l)%nat) as [Hlt | Hge].
  - rewrite lookup_app_l in Hy by done.
    rewrite insert_app_l by done.
    rewrite take_app_length' by (by rewrite length_insert).
    rewrite <- (take_drop_middle l _ _ Hy) at 1.
    rewrite insert_take_drop by done.
    rewrite <- !(assoc_L (++)). cbn.
    rewrite <- Permutation_middle. apply perm_skip, Permutation_app_head.
    symmetry. apply Permutation_cons_append.
  - assert (Z.to_nat i = length l) as Hi.
    { apply lookup_lt_Some in Hy. rewrite length_app in Hy. cbn in Hy. lia. }
    rewrite Hi in *. rewrite lookup_app_r, Nat.sub_diag in Hy by lia.
    injection Hy as ->.
    rewrite insert_app_r_alt, Nat.sub_diag by lia. cbn.
    rewrite take_app_length. by rewrite (comm (++)).
Qed.

(** X3.  [pop_random] removes exactly one element: on a non-empty list
    it returns an element of it, and what is left, with that element
    put back, is a rearrangement of the list.  On the empty list it
    raises. *)
Theorem pop_random_removes_one {A} (random : Random) (values : list A) :
  match pop_random random values with
  | Some (x, rest, _) => values ≡ₚ x :: rest
  | None => values = []
  end.
Proof.
  destruct (pop_random random values) as [[[x rest] r'] |] eqn:Hpop.
  - by eapply pop_random_permutation.
  - destruct (decide (values = [])) as [-> | Hne]; [done |].
    destruct (pop_random_nonempty random values Hne) as (? & ? & ? & Heq & _).
    congruence.
Qed.

(** ** More on TargetSelector *)

Section TargetSelectorContents.
Import TargetSelector.

Lemma status_not_ordered_eq (a b : Status) :
  status_ltb a b = false → status_ltb b a = false → a = b.
Proof.
  unfold status_ltb. intros H1%Z.ltb_ge H2%Z.ltb_ge.
  destruct a, b; cbn in *; try done; lia.
Qed.

Lemma add_keeps_best_status self random data self' random' :
  (∀ d, d ∈ fresh_examples self ++ used_examples self →
        status d = best_status self) →
  best_status self ≠ INTERESTING →
  add self random data = inl (self', random') →
  (∀ d, d ∈ fresh_examples self' ++ used_examples self' →
        status d = best_status self')
  ∧ best_status self' ≠ INTERESTING.
Proof.
  intros Hall Hbest. unfold add.
  destruct (status_eqb (status data) INTERESTING) eqn:Hint.
  { by intros [= <- <-]. }
  destruct (status_ltb (status data) (best_status self)) eqn:Hlow.
  { by intros [= <- <-]. }
  assert (status data ≠ INTERESTING) as Hdata.
  { intros Heq. by rewrite Heq in Hint. }
  destruct self as [best size fresh used]. cbn in *.
  set (fresh1 := (if status_ltb best (status data) then _ else _)).
  assert (∃ best1 fresh0 used0,
            fresh1 = mk best1 size fresh0 used0
            ∧ status data = best1
            ∧ (∀ d, d ∈ fresh0 ++ used0 → status d = best1)) as
    (best1 & fresh0 & used0 & -> & Hb1 & Hold).
  { subst fresh1. destruct (status_ltb best (status data)) eqn:Hup.
    - exists (status data), [], []. split_and!; [done | done |].
      intros d Hd. by apply elem_of_nil in Hd.
    - exists best, fresh, used. split_and!; [done | | done].
      by apply status_not_ordered_eq. }
  cbn [best_status pool_size fresh_examples used_examples].
  assert (∀ d, d ∈ (fresh0 ++ [data]) ++ used0 → status d = best1) as Hnew.
  { intros d [[Hd | Hd%list_elem_of_singleton]%elem_of_app | Hd]%elem_of_app.
    - apply Hold, elem_of_app. by left.
    - by subst d.
    - apply Hold, elem_of_app. by right. }
  destruct (size <? _)%nat.
  2: { intros [= <- <-]. cbn. split; [done | congruence]. }
  destruct used0 as [| u used0].
  - destruct (pop_random random (fresh0 ++ [data])) as [[[x rest] r1] |] eqn:Hpop;
      [| done].
    destruct (_ =? _)%nat; [| done]. intros [= <- <-]. cbn.
    split; [| congruence]. intros d Hd. apply Hnew.
    rewrite app_nil_r in *. rewrite (pop_random_permutation _ _ _ _ _ Hpop).
    by apply elem_of_cons; right.
  - destruct (pop_random random (u :: used0)) as [[[x rest] r1] |] eqn:Hpop;
      [| done].
    destruct (_ =? _)%nat; [| done]. intros [= <- <-]. cbn.
    split; [| congruence]. intros d Hd. apply Hnew.
    apply elem_of_app in Hd as [Hd | Hd]; apply elem_of_app; [by left | right].
    rewrite (pop_random_permutation _ _ _ _ _ Hpop). by apply elem_of_cons; right.
Qed.

Lemma select_permutes self random result self' random' :
  select self random = inl (result, self', random') →
  fresh_examples self' ++ used_examples self'
    ≡ₚ fresh_examples self ++ used_examples self
  ∧ result ∈ used_examples self'
  ∧ best_status self' = best_status self
  ∧ pool_size self' = pool_size self
  ∧ (fresh_examples self ≠ [] →
     fresh_examples self ≡ₚ result :: fresh_examples self'
     ∧ used_examples self' = used_examples self ++ [result])
  ∧ (fresh_examples self = [] → self' = self).
Proof.
  destruct self as [best size fresh used]. unfold select. cbn.
  destruct fresh as [| f fresh].
  - destruct (choice random used) as [[x |] r1] eqn:Hchoice; [| done].
    intros [= <- <- <-]. cbn. split_and!; try done.
    unfold choice in Hchoice.
    destruct (randrange random 0 (Z.of_nat (length used))) as [i r2].
    injection Hchoice as Hx _. by eapply list_elem_of_lookup_2.
  - destruct (pop_random random (f :: fresh)) as [[[x rest] r1] |] eqn:Hpop;
      [| done].
    intros [= <- <- <-]. cbn.
    pose proof (pop_random_permutation _ _ _ _ _ Hpop) as Hperm.
    split_and!; try done.
    + change (f :: fresh ++ used) with ((f :: fresh) ++ used).
      rewrite Hperm. cbn. rewrite (assoc_L (++)).
      by rewrite <- Permutation_cons_append.
    + apply elem_of_app. right. by apply list_elem_of_singleton.
Qed.

Lemma reachable_statuses self :
  reachable self →
  (∀ d, d ∈ fresh_examples self ++ used_examples self →
        status d = best_status self)
  ∧ best_status self ≠ INTERESTING.
Proof.
  induction 1 as [| self random data self' random' _ [IH1 IH2] Hadd
                  | self random result self' random' _ [IH1 IH2] Hsel].
  - split; [| done]. intros d Hd. by apply elem_of_nil in Hd.
  - by eapply add_keeps_best_status.
  - destruct (select_permutes _ _ _ _ _ Hsel) as (Hperm & _ & Hbest & _).
    rewrite Hbest. split; [| done]. intros d Hd. apply IH1. by rewrite <- Hperm.
Qed.

(** X4.  The selector only retains examples of the best status seen so
    far, and that status is never INTERESTING (point 1 of the class
    docstring). *)
Theorem selector_retains_best_status (self : TargetSelector.t) (d : ConjectureData) :
  reachable self →
  d ∈ fresh_examples self ++ used_examples self →
  status d = best_status self ∧ status d ≠ INTERESTING.
Proof.
  intros Hreach Hd. destruct (reachable_statuses self Hreach) as [Hall Hbest].
  rewrite (Hall d Hd). done.
Qed.

Lemma selector_retains_best_status_witness :
  status (simple_data [1] VALID) = best_status selector_with_valid
  ∧ status (simple_data [1] VALID) ≠ INTERESTING.
Proof.
  apply (selector_retains_best_status selector_with_valid).
  - eapply (reach_add (init MUTATION_POOL_SIZE) example_random
              (simple_data [1] VALID) _ example_random).
    + constructor.
    + reflexivity.
  - vm_compute. apply list_elem_of_here.
Defined.

(** X5.  [select] never loses or invents an example: the pool after
    the call is a rearrangement of the pool before, and the example
    returned is in [used_examples] afterwards.  While there are fresh
    examples the result is one of them, moved from [fresh_examples] to
    the end of [used_examples]; otherwise the selector is unchanged. *)
Theorem select_moves_fresh_to_used (self : TargetSelector.t) (random : Random)
    (result : ConjectureData) (self' : TargetSelector.t) (random' : Random) :
  select self random = inl (result, self', random') →
  fresh_examples self' ++ used_examples self'
    ≡ₚ fresh_examples self ++ used_examples self
  ∧ result ∈ used_examples self'
  ∧ (fresh_examples self ≠ [] →
     fresh_examples self ≡ₚ result :: fresh_examples self'
     ∧ used_examples self' = used_examples self ++ [result])
  ∧ (fresh_examples self = [] → self' = self).
Proof.
  intros Hsel.
  destruct (select_permutes _ _ _ _ _ Hsel) as (? & ? & _ & _ & ? & ?). done.
Qed.

Lemma select_moves_fresh_to_used_witness :
  fresh_examples selected_once ++ used_examples selected_once
    ≡ₚ fresh_examples selector_with_valid ++ used_examples selector_with_valid
  ∧ simple_data [1] VALID ∈ used_examples selected_once
  ∧ (fresh_examples selector_with_valid ≠ [] →
     fresh_examples selector_with_valid
       ≡ₚ simple_data [1] VALID :: fresh_examples selected_once
     ∧ used_examples selected_once
       = used_examples selector_with_valid ++ [simple_data [1] VALID])
  ∧ (fresh_examples selector_with_valid = [] → selected_once = selector_with_valid).
Proof.
  apply (select_moves_fresh_to_used selector_with_valid example_random
           (simple_data [1] VALID) selected_once example_random_next).
  vm_compute. reflexivity.
Defined.

(** X6.  When the pool is full, adding an example of the current best
    status keeps the pool full and evicts one example: an already used
    one if there is any, in which case the new example stays in
    [fresh_examples]; otherwise one of the fresh examples, the new one
    included (point 3 of the class docstring). *)
Theorem add_to_full_pool_evicts (self : TargetSelector.t) (random : Random)
    (data : ConjectureData) :
  status data = best_status self →
  status data ≠ INTERESTING →
  len self = pool_size self →
  ∃ evicted self' random',
    add self random data = inl (self', random')
    ∧ len self' = pool_size self'
    ∧ (used_examples self ≠ [] →
       fresh_examples self' = fresh_examples self ++ [data]
       ∧ used_examples self ≡ₚ evicted :: used_examples self')
    ∧ (used_examples self = [] →
       used_examples self' = []
       ∧ fresh_examples self ++ [data] ≡ₚ evicted :: fresh_examples self').
Proof.
  intros Hstatus Hint Hfull. destruct self as [best size fresh used].
  unfold add, len in *. cbn in *. subst best.
  destruct (status data) eqn:Hs; try done.
  all: change (status_eqb _ INTERESTING) with false; cbn iota.
  all: unfold status_ltb; rewrite Z.ltb_irrefl; cbn iota.
  all: cbn [best_status pool_size fresh_examples used_examples].
  all: rewrite length_app; cbn [length].
  all: replace (size <? length fresh + 1 + length used)%nat with true
         by (symmetry; apply Nat.ltb_lt; lia).
  all: destruct used as [| u used].
  all: try (destruct (pop_random_nonempty random (fresh ++ [data]))
              as (x & rest & r' & Hpop & Hrest); [by destruct fresh |];
            rewrite Hpop; rewrite length_app in Hrest; cbn in Hrest;
            replace (size =? length rest + length [])%nat with true
              by (symmetry; apply Nat.eqb_eq; cbn in *; lia);
            exists x; eexists _, _; split_and!;
            [done | cbn in *; lia | done |];
            intros _; split; [done |]; by eapply pop_random_permutation).
  all: destruct (pop_random_nonempty random (u :: used))
         as (x & rest & r' & Hpop & Hrest); [done |];
       rewrite Hpop; cbn in Hrest;
       replace (size =? length fresh + 1 + length rest)%nat with true
         by (symmetry; apply Nat.eqb_eq; cbn in *; lia);
       exists x; eexists _, _; split_and!;
       [done | cbn; rewrite length_app; cbn in *; lia | | done];
       intros _; split; [done |]; by eapply pop_random_permutation.
Qed.

Lemma add_to_full_pool_evicts_witness :
  ∃ evicted self' random',
    add full_selector example_random (simple_data [2] VALID) = inl (self', random')
    ∧ len self' = pool_size self'
    ∧ (used_examples full_selector ≠ [] →
       fresh_examples self' = fresh_examples full_selector ++ [simple_data [2] VALID]
       ∧ used_examples full_selector ≡ₚ evicted :: used_examples self')
    ∧ (used_examples full_selector = [] →
       used_examples self' = []
       ∧ fresh_examples full_selector ++ [simple_data [2] VALID]
         ≡ₚ evicted :: fresh_examples self').
Proof.
  apply (add_to_full_pool_evicts full_selector example_random
           (simple_data [2] VALID)); [reflexivity | done | reflexivity].
Defined.

End TargetSelectorContents.

(** ** The bit strategies of the mutator *)

Lemma draw_predecessor_loop_bytes rnd xs strict :
  Forall is_byte xs → Forall is_byte (_draw_predecessor_loop rnd xs strict).1.
Proof.
  intros Hbytes. revert rnd strict.
  induction Hbytes as [| x xs Hx _ IH]; intros rnd strict; [done |].
  unfold is_byte in Hx.
  cbn [_draw_predecessor_loop]. destruct strict; cbn [negb].
  - pose proof (randint_bounds rnd 0 255) as Hc.
    destruct (randint rnd 0 255) as [c rnd1]. specialize (IH rnd1 true).
    destruct (_draw_predecessor_loop rnd1 xs true). cbn in *.
    constructor; [unfold is_byte; lia | done].
  - pose proof (randint_bounds rnd 0 x) as Hc.
    destruct (randint rnd 0 x) as [c rnd1].
    specialize (IH rnd1 (if c <? x then true else false)).
    destruct (_draw_predecessor_loop rnd1 xs _). cbn in *.
    constructor; [unfold is_byte; lia | done].
Qed.

Lemma draw_successor_loop_bytes rnd xs strict :
  Forall is_byte xs → Forall is_byte (_draw_successor_loop rnd xs strict).1.
Proof.
  intros Hbytes. revert rnd strict.
  induction Hbytes as [| x xs Hx _ IH]; intros rnd strict; [done |].
  unfold is_byte in Hx.
  cbn [_draw_successor_loop]. destruct strict; cbn [negb].
  - pose proof (randint_bounds rnd 0 255) as Hc.
    destruct (randint rnd 0 255) as [c rnd1]. specialize (IH rnd1 true).
    destruct (_draw_successor_loop rnd1 xs true). cbn in *.
    constructor; [unfold is_byte; lia | done].
  - pose proof (randint_bounds rnd x 255) as Hc.
    destruct (randint rnd x 255) as [c rnd1].
    specialize (IH rnd1 (if x <? c then true else false)).
    destruct (_draw_successor_loop rnd1 xs _). cbn in *.
    constructor; [unfold is_byte; lia | done].
Qed.

Lemma slice_bytes (buf : list Z) i n :
  Forall is_byte buf → Forall is_byte (slice buf i n).
Proof. intros H. unfold slice. by apply Forall_take, Forall_drop. Qed.

Lemma slice_length {A} (buf : list A) i n :
  (i + n <= length buf)%nat → length (slice buf i n) = n.
Proof. intros H. unfold slice. rewrite length_take, length_drop. lia. Qed.

(** X7.  [draw_smaller] returns bytes that are lexicographically at most
    the origin's bytes at the current position, and [draw_larger] bytes
    that are at least those; neither raises.  When the origin has [n]
    bytes left at that position, both results have length [n]. *)
Theorem draw_smaller_larger_bounds (random : Random)
    (target data : ConjectureData) (n : nat) :
  Forall is_byte (buffer target) →
  let existing := slice (buffer target) (index data) n in
  ∃ lo r1 hi r2,
    draw_smaller random target data n = inl (lo, r1)
    ∧ draw_larger random target data n = inl (hi, r2)
    ∧ bytes_leb lo existing = true
    ∧ bytes_leb existing hi = true
    ∧ Forall is_byte lo ∧ Forall is_byte hi
    ∧ ((index data + n <= length (buffer target))%nat →
       length lo = n ∧ length hi = n).
Proof.
  intros Hbytes existing.
  pose proof (slice_bytes _ (index data) n Hbytes) as Hex.
  fold existing in Hex.
  unfold draw_smaller, draw_larger. fold existing.
  pose proof (uniform_length random n) as Hlen.
  pose proof (uniform_bytes random n) as Hub.
  destruct (uniform random n) as [r random1]. cbn in Hlen, Hub.
  pose proof (draw_predecessor_loop_le random1 existing Hex) as Hle.
  pose proof (draw_predecessor_loop_length random1 existing false) as Hpl.
  pose proof (draw_predecessor_loop_bytes random1 existing false Hex) as Hpb.
  pose proof (draw_successor_loop_ge random1 existing Hex) as Hge.
  pose proof (draw_successor_loop_length random1 existing false) as Hsl.
  pose proof (draw_successor_loop_bytes random1 existing false Hex) as Hsb.
  unfold _draw_predecessor, _draw_successor.
  destruct (_draw_predecessor_loop random1 existing false) as [p rp].
  destruct (_draw_successor_loop random1 existing false) as [s rs].
  cbn in *.
  assert ((index data + n <= length (buffer target))%nat →
          length existing = n) as Hexlen.
  { intros H. by apply slice_length. }
  destruct (bytes_leb r existing) eqn:H1, (bytes_leb existing r) eqn:H2;
    eexists _, _, _, _; split_and!; try done; intros H; split; try done;
    rewrite ?Hpl, ?Hsl; by apply Hexlen.
Qed.

Lemma draw_smaller_larger_bounds_witness :
  let target := simple_data [3; 200; 0] VALID in
  let existing := slice (buffer target) (index blank_data) 3 in
  ∃ lo r1 hi r2,
    draw_smaller example_random target blank_data 3 = inl (lo, r1)
    ∧ draw_larger example_random target blank_data 3 = inl (hi, r2)
    ∧ bytes_leb lo existing = true
    ∧ bytes_leb existing hi = true
    ∧ Forall is_byte lo ∧ Forall is_byte hi
    ∧ ((index blank_data + 3 <= length (buffer target))%nat →
       length lo = 3%nat ∧ length hi = 3%nat).
Proof.
  apply (draw_smaller_larger_bounds example_random
           (simple_data [3; 200; 0] VALID) blank_data 3).
  repeat constructor; unfold is_byte; lia.
Defined.

Lemma lxor_bit_byte (x k : Z) :
  is_byte x → 0 <= k <= 7 →
  is_byte (Z.lxor x (Z.shiftl 1 k)) ∧ Z.lxor x (Z.shiftl 1 k) ≠ x.
Proof.
  unfold is_byte. intros Hx Hk.
  assert (0 < Z.shiftl 1 k < 256) as Hbit.
  { rewrite Z.shiftl_1_l.
    assert (k = 0 ∨ k = 1 ∨ k = 2 ∨ k = 3 ∨ k = 4 ∨ k = 5 ∨ k = 6 ∨ k = 7)
      as Hcases by lia.
    destruct Hcases as [-> | [-> | [-> | [-> | [-> | [-> | [-> | ->]]]]]]];
      cbn; lia. }
  set (b := Z.shiftl 1 k) in *.
  split.
  - split; [apply Z.lxor_nonneg; lia |].
    destruct (decide (Z.lxor x b = 0)) as [-> | Hnz]; [lia |].
    assert (0 <= Z.lxor x b) as Hnn by (apply Z.lxor_nonneg; lia).
    apply (Z.log2_lt_pow2 _ 8); [lia |].
    pose proof (Z.log2_lxor x b ltac:(lia) ltac:(lia)) as Hlog.
    assert (Z.log2 x < 8) as Hlx.
    { destruct (decide (x = 0)) as [-> | ?]; [cbn; lia |].
      apply Z.log2_lt_pow2; lia. }
    assert (Z.log2 b < 8) as Hlb by (apply Z.log2_lt_pow2; lia).
    lia.
  - intros Heq.
    assert (Z.lxor (Z.lxor x b) x = 0) as H0 by (rewrite Heq; apply Z.lxor_nilpotent).
    rewrite (Z.lxor_comm x b), Z.lxor_assoc, Z.lxor_nilpotent, Z.lxor_0_r in H0.
    lia.
Qed.

(** X8.  [flip_bit] changes exactly one byte of the origin's bytes at
    the current position, by flipping one of its eight bits: when the
    origin has [n >= 1] bytes left there, the call does not raise, the
    result has length [n] and holds bytes, and it differs from the
    origin's bytes at one position only, where one bit is flipped. *)
Theorem flip_bit_changes_one_bit (random : Random)
    (target data : ConjectureData) (n : nat) :
  Forall is_byte (buffer target) →
  (0 < n)%nat →
  (index data + n <= length (buffer target))%nat →
  let existing := slice (buffer target) (index data) n in
  ∃ result random' i x k,
    flip_bit random target data n = inl (result, random')
    ∧ length result = n
    ∧ Forall is_byte result
    ∧ (i < n)%nat ∧ 0 <= k <= 7
    ∧ existing !! i = Some x
    ∧ result !! i = Some (Z.lxor x (2 ^ k))
    ∧ Z.lxor x (2 ^ k) ≠ x
    ∧ (∀ j, j ≠ i → result !! j = existing !! j).
Proof.
  intros Hbytes Hn Hroom existing.
  pose proof (slice_bytes _ (index data) n Hbytes) as Hex.
  pose proof (slice_length (buffer target) (index data) n Hroom) as Hlen.
  fold existing in Hex, Hlen.
  unfold flip_bit. fold existing.
  replace (n =? 0)%nat with false by (symmetry; apply Nat.eqb_neq; lia).
  pose proof (randint_bounds random 0 (Z.of_nat n - 1) ltac:(lia)) as Hi.
  destruct (randint random 0 (Z.of_nat n - 1)) as [i random1]. cbn in Hi.
  pose proof (randint_bounds random1 0 7 ltac:(lia)) as Hk.
  destruct (randint random1 0 7) as [k random2]. cbn in Hk.
  destruct (lookup_lt_is_Some_2 existing (Z.to_nat i) ltac:(lia)) as [x Hx].
  rewrite Hx.
  assert (is_byte x) as Hxb.
  { rewrite Forall_forall in Hex. eapply Hex, list_elem_of_lookup_2, Hx. }
  destruct (lxor_bit_byte x k Hxb Hk) as [Hb Hne].
  rewrite Z.shiftl_1_l in *.
  exists (<[Z.to_nat i := Z.lxor x (2 ^ k)]> existing), random2, (Z.to_nat i), x, k.
  split_and!; try done; try lia.
  - by rewrite length_insert.
  - apply Forall_insert; done.
  - apply list_lookup_insert_eq. lia.
  - intros j Hj. by apply list_lookup_insert_ne.
Qed.

Lemma flip_bit_changes_one_bit_witness :
  let target := simple_data [3; 200; 0] VALID in
  let existing := slice (buffer target) (index blank_data) 3 in
  ∃ result random' i x k,
    flip_bit example_random target blank_data 3 = inl (result, random')
    ∧ length result = 3%nat
    ∧ Forall is_byte result
    ∧ (i < 3)%nat ∧ 0 <= k <= 7
    ∧ existing !! i = Some x
    ∧ result !! i = Some (Z.lxor x (2 ^ k))
    ∧ Z.lxor x (2 ^ k) ≠ x
    ∧ (∀ j, j ≠ i → result !! j = existing !! j).
Proof.
  apply (flip_bit_changes_one_bit example_random
           (simple_data [3; 200; 0] VALID) blank_data 3).
  - repeat constructor; unfold is_byte; lia.
  - lia.
  - cbn. lia.
Defined.

(** ** __zero_bound and draw_mutated *)

Lemma zero_bound_shape (MAX_DEPTH cap : nat) (data : ConjectureData)
    (result : list Z) :
  let data' := (zero_bound MAX_DEPTH cap data result).1 in
  let result' := (zero_bound MAX_DEPTH cap data result).2 in
  length result' = length result
  ∧ forced_indices data ⊆ forced_indices data'
  ∧ (∀ j, (j < length result)%nat → (cap <= index data + j)%nat →
          result' !! j = Some 0 ∧ (index data + j)%nat ∈ forced_indices data')
  ∧ ((depth data * 2 < MAX_DEPTH)%nat →
     ∀ j, (index data + j < cap)%nat → result' !! j = result !! j).
Proof.
  unfold zero_bound.
  destruct (MAX_DEPTH <=? depth data * 2)%nat eqn:Hdeep; cbn [orb].
  { cbn. unfold zeros. split_and!.
    - by rewrite length_replicate.
    - apply union_subseteq_r.
    - intros j Hj _. split; [by apply lookup_replicate_2 |].
      apply elem_of_union_l, elem_of_list_to_set, elem_of_seq. lia.
    - apply Nat.leb_le in Hdeep. lia. }
  destruct (cap <=? index data)%nat eqn:Hcap; cbn [orb].
  { cbn. unfold zeros. apply Nat.leb_le in Hcap. split_and!.
    - by rewrite length_replicate.
    - apply union_subseteq_r.
    - intros j Hj _. split; [by apply lookup_replicate_2 |].
      apply elem_of_union_l, elem_of_list_to_set, elem_of_seq. lia.
    - intros _ j Hj. lia. }
  apply Nat.leb_gt in Hcap.
  destruct (cap <=? index data + length result)%nat eqn:Hover.
  - apply Nat.leb_le in Hover. cbn. unfold zeros. split_and!.
    + rewrite length_app, length_take, length_replicate. lia.
    + apply union_subseteq_r.
    + intros j Hj Hge. split.
      * rewrite lookup_app_r by (rewrite length_take; lia).
        apply lookup_replicate_2. rewrite length_take. lia.
      * apply elem_of_union_l, elem_of_list_to_set, elem_of_seq. lia.
    + intros _ j Hj.
      rewrite lookup_app_l by (rewrite length_take; lia).
      apply lookup_take_lt. lia.
  - apply Nat.leb_gt in Hover. cbn. split_and!; try done.
    intros j Hj Hge. lia.
Qed.

(** X9.  [__zero_bound] keeps the length of the result, so its closing
    assertion never fails.  Every byte of the rewritten result that
    lies at or beyond [cap] in the buffer is zero and its index is in
    [forced_indices]; indices that were forced stay forced; and when
    the data object is not too deep, the bytes below [cap] are the
    ones passed in. *)
Theorem zero_bound_caps (MAX_DEPTH cap : nat) (data : ConjectureData)
    (result : list Z) :
  let data' := (zero_bound MAX_DEPTH cap data result).1 in
  let result' := (zero_bound MAX_DEPTH cap data result).2 in
  length result' = length result
  ∧ forced_indices data ⊆ forced_indices data'
  ∧ (∀ j, (j < length result)%nat → (cap <= index data + j)%nat →
          result' !! j = Some 0 ∧ (index data + j)%nat ∈ forced_indices data')
  ∧ ((depth data * 2 < MAX_DEPTH)%nat →
     ∀ j, (index data + j < cap)%nat → result' !! j = result !! j).
Proof. apply zero_bound_shape. Qed.

Lemma zero_bound_caps_witness :
  let out := zero_bound 100 2 blank_data [5; 6; 7] in
  out.2 !! 2%nat = Some 0
  ∧ 2%nat ∈ forced_indices out.1
  ∧ out.2 !! 0%nat = Some 5.
Proof.
  destruct (zero_bound_caps 100 2 blank_data [5; 6; 7]) as (_ & _ & Hzero & Hkeep).
  destruct (Hzero 2%nat) as [Hbyte Hforced]; [cbn; lia | cbn; lia |].
  split_and!; [done | done |].
  apply (Hkeep ltac:(cbn; lia) 0%nat). cbn. lia.
Defined.

(** X10.  A mutated draw reproduces the novel prefix: whatever bit
    strategy is chosen, if [draw_mutated] returns, the data object is
    not too deep and the position [data.index + j] lies inside the
    prefix and below [cap], then byte [j] of the result is the byte
    of the prefix at that position. *)
Theorem draw_mutated_follows_prefix (MAX_DEPTH : nat) (m : Mutator) (cap : nat)
    (random : Random) (data : ConjectureData) (n : nat)
    (data' : ConjectureData) (result : list Z) (random' : Random) (j : nat) :
  draw_mutated MAX_DEPTH m cap random data n = inl (data', result, random') →
  (depth data * 2 < MAX_DEPTH)%nat →
  (j < n)%nat →
  (index data + j < length (prefix m))%nat →
  (index data + j < cap)%nat →
  result !! j = prefix m !! (index data + j)%nat.
Proof.
  intros Hdraw Hdepth Hj Hprefix Hcap. unfold draw_mutated in Hdraw.
  destruct (if (length (buffer (target_data m)) <? index data + n)%nat
            then _ else _) as [[result0 random0] | e]; [| done].
  replace (index data <? length (prefix m))%nat with true in Hdraw
    by (symmetry; apply Nat.ltb_lt; lia).
  cbv zeta in Hdraw.
  set (start := slice (prefix m) (index data) n) in *.
  pose proof (zero_bound_shape MAX_DEPTH cap data
                (start ++ drop (length start) result0)) as (_ & _ & _ & Hkeep).
  destruct (zero_bound MAX_DEPTH cap data _) as [d r] eqn:Hzb.
  injection Hdraw as <- <- <-. cbn in Hkeep.
  rewrite (Hkeep Hdepth j Hcap).
  assert (j < length start)%nat as Hjs.
  { unfold start, slice. rewrite length_take, length_drop. lia. }
  rewrite lookup_app_l by done.
  unfold start, slice. rewrite lookup_take_lt by done. by rewrite lookup_drop.
Qed.

Lemma draw_mutated_follows_prefix_witness :
  [7] !! 0%nat = prefix zero_mutator !! (index blank_data + 0)%nat.
Proof.
  apply (draw_mutated_follows_prefix 100 zero_mutator 64 example_random
           blank_data 1 blank_data [7] example_random_next 0).
  - vm_compute. reflexivity.
  - cbn. lia.
  - lia.
  - cbn. lia.
  - cbn. lia.
Defined.

(** ** More on the prefix tree *)

Lemma walk_label t labels :
  labelled t labels →
  ∀ q node l n,
    labels !! node = Some l → walk t node q = Some n →
    labels !! n = Some (l ++ q).
Proof.
  intros (_ & _ & Hedge & _).
  induction q as [| b q IH]; intros node l n Hl Hwalk.
  - injection Hwalk as <-. by rewrite app_nil_r.
  - cbn in Hwalk.
    destruct (tree t !! node) as [[ch | ?] |] eqn:Hnode; [| done | done].
    destruct (ch !! b) as [next |] eqn:Hb; [| done].
    destruct (Hedge node ch b next Hnode Hb) as (l' & Hl' & Hnext).
    assert (l' = l) as -> by congruence.
    rewrite (IH next (l ++ [b]) n Hnext Hwalk). by rewrite <- (assoc_L (++)).
Qed.


Lemma review_dead_frame js :
  ∀ t, tree (result_trie (review_dead js t)) = tree t
       ∧ dead t ⊆ dead (result_trie (review_dead js t))
       ∧ forced (result_trie (review_dead js t)) = forced t
       ∧ masks (result_trie (review_dead js t)) = masks t.
Proof.
  induction js as [| j js IH]; intros t; [done |].
  cbn [review_dead].
  destruct (negb (_is_simple_mask (default 255 (masks t !! j)))); [done |].
  destruct (tree t !! j) as [[children | d] |]; [| done | done].
  destruct (_ && _); [done |].
  destruct (forallb _ _); [| done].
  destruct (IH (set_dead (λ d, {[j]} ∪ d) t)) as (Htree & Hdead & Hf & Hm).
  split_and!; [done | | done | done].
  etrans; [| exact Hdead]. cbn. apply union_subseteq_r.
Qed.

Lemma walk_buffer_keeps_leaves data bs :
  ∀ i node indices t n d,
    tree t !! n = Some (Leaf d) →
    tree (result_trie (walk_buffer data i bs node indices t)) !! n = Some (Leaf d).
Proof.
  induction bs as [| b bs IH]; intros i node indices t n d Hn; [done |].
  cbn [walk_buffer].
  set (t1 := if bool_decide (i ∈ forced_indices data)
             then set_forced (<[node := b]>) t else t).
  set (t2 := match masked_indices data !! i with
             | Some m => set_masks (<[node := m]>) t1
             | None => t1
             end).
  assert (tree t2 = tree t) as Htree by (subst t2 t1; by repeat case_match).
  rewrite <- Htree in Hn. clearbody t2. clear t1 Htree.
  destruct (tree t2 !! node) as [[children | d'] |] eqn:Hnode; [| done | done].
  destruct (children !! b) as [k |] eqn:Hb.
  - destruct (tree t2 !! k); [| done]. case_bool_decide; [done |]. by apply IH.
  - set (t3 := set_tree _ t2).
    assert (tree t3 !! n = Some (Leaf d)) as Hn3.
    { subst t3. cbn [tree set_tree].
      rewrite list_lookup_insert_ne by congruence.
      rewrite lookup_app_l; [done | by eapply lookup_lt_Some]. }
    destruct (tree t3 !! length (tree t2)); [| done].
    case_bool_decide; [done |]. by apply IH.
Qed.

(** The edges of [t] are edges of [t']. *)
Lemma walk_buffer_keeps_edges data bs :
  ∀ i node indices t n ch c k,
    tree t !! n = Some (Branch ch) → ch !! c = Some k →
    ∃ ch', tree (result_trie (walk_buffer data i bs node indices t)) !! n
           = Some (Branch ch')
           ∧ ch' !! c = Some k.
Proof.
  induction bs as [| b bs IH]; intros i node indices t n ch c k Hn Hc.
  { by exists ch. }
  cbn [walk_buffer].
  set (t1 := if bool_decide (i ∈ forced_indices data)
             then set_forced (<[node := b]>) t else t).
  set (t2 := match masked_indices data !! i with
             | Some m => set_masks (<[node := m]>) t1
             | None => t1
             end).
  assert (tree t2 = tree t) as Htree by (subst t2 t1; by repeat case_match).
  rewrite <- Htree in Hn. clearbody t2. clear t1 Htree.
  destruct (tree t2 !! node) as [[children | d'] |] eqn:Hnode;
    [| by exists ch | by exists ch].
  destruct (children !! b) as [k' |] eqn:Hb.
  - destruct (tree t2 !! k'); [| by exists ch].
    case_bool_decide; [by exists ch |]. by eapply IH.
  - set (t3 := set_tree _ t2).
    assert (∃ ch3, tree t3 !! n = Some (Branch ch3) ∧ ch3 !! c = Some k)
      as (ch3 & Hn3 & Hc3).
    { subst t3. cbn [tree set_tree].
      pose proof (lookup_lt_Some _ _ _ Hn) as Hlt.
      destruct (decide (n = node)) as [-> | Hne].
      - rewrite list_lookup_insert_eq by (rewrite length_app; lia).
        eexists. split; [done |].
        assert (ch = children) as -> by congruence.
        rewrite lookup_insert_ne; [done | congruence].
      - rewrite list_lookup_insert_ne by done.
        rewrite lookup_app_l by done. by exists ch. }
    destruct (tree t3 !! length (tree t2)); [| by exists ch3].
    case_bool_decide; [by exists ch3 |]. by eapply IH.
Qed.

(** Where [walk_buffer] ends is where the bytes it consumed lead, and
    it consumed all bytes unless it met a dead node. *)
Lemma walk_buffer_path data bs :
  ∀ i node indices t node' indices' t',
    walk_buffer data i bs node indices t = inl ((node', indices'), t') →
    ∃ consumed rest,
      bs = consumed ++ rest
      ∧ walk t' node consumed = Some node'
      ∧ (rest = [] ∨ node' ∈ dead t').
Proof.
  induction bs as [| b bs IH]; intros i node indices t node' indices' t'.
  { intros [= <- _ <-]. exists [], []. split_and!; [done | done | by left]. }
  cbn [walk_buffer].
  set (t1 := if bool_decide (i ∈ forced_indices data)
             then set_forced (<[node := b]>) t else t).
  set (t2 := match masked_indices data !! i with
             | Some m => set_masks (<[node := m]>) t1
             | None => t1
             end).
  clearbody t2. clear t1.
  destruct (tree t2 !! node) as [[children | d'] |] eqn:Hnode; [| done | done].
  assert (∀ t3 next ch3,
            tree t3 !! node = Some (Branch ch3) → ch3 !! b = Some next →
            match tree t3 !! next with
            | Some _ =>
                if bool_decide (next ∈ dead t3)
                then inl (next, indices ++ [node], t3)
                else walk_buffer data (S i) bs next (indices ++ [node]) t3
            | None => inr (IndexError, t3)
            end = inl (node', indices', t') →
            ∃ consumed rest,
              b :: bs = consumed ++ rest
              ∧ walk t' node consumed = Some node'
              ∧ (rest = [] ∨ node' ∈ dead t')) as Hstep.
  { intros t3 next ch3 Hn3 Hc3.
    destruct (tree t3 !! next); [| done].
    case_bool_decide as Hdead.
    - intros [= <- _ <-]. exists [b], bs. split_and!; [done | | by right].
      cbn. by rewrite Hn3, Hc3.
    - intros Hrec.
      destruct (IH _ _ _ _ _ _ _ Hrec) as (consumed & rest & -> & Hwalk & Hend).
      exists (b :: consumed), rest. split_and!; [done | | done].
      destruct (walk_buffer_keeps_edges data (consumed ++ rest) (S i) next
                  (indices ++ [node]) t3 node ch3 b next Hn3 Hc3)
        as (ch' & Hn' & Hc').
      rewrite Hrec in Hn'. cbn in Hn'. cbn. by rewrite Hn', Hc'. }
  destruct (children !! b) as [k |] eqn:Hb.
  - by apply (Hstep t2 k children).
  - apply (Hstep _ (length (tree t2)) (<[b := length (tree t2)]> children)).
    + cbn [tree set_tree]. apply list_lookup_insert_eq.
      rewrite length_app. apply lookup_lt_Some in Hnode. lia.
    + apply lookup_insert_eq.
Qed.

(** Overwriting the node at the end of a path leaves the path alone. *)
Lemma walk_insert_end t labels x :
  labelled t labels →
  ∀ q node l n,
    labels !! node = Some l →
    walk t node q = Some n →
    walk (set_tree (<[n := x]>) t) node q = Some n.
Proof.
  intros Hlab.
  induction q as [| b q IH]; intros node l n Hl Hwalk; [done |].
  pose proof (walk_label t labels Hlab (b :: q) node l n Hl Hwalk) as Hn.
  cbn in Hwalk |- *.
  destruct (tree t !! node) as [[ch | ?] |] eqn:Hnode; [| done | done].
  destruct (ch !! b) as [next |] eqn:Hb; [| done].
  assert (node ≠ n) as Hne.
  { intros ->. rewrite Hl in Hn. injection Hn as Hn.
    apply (f_equal length) in Hn. rewrite length_app in Hn. cbn in Hn. lia. }
  rewrite list_lookup_insert_ne, Hnode, Hb by congruence.
  destruct Hlab as (_ & _ & Hedge & _).
  destruct (Hedge node ch b next Hnode Hb) as (l' & Hl' & Hnext).
  by eapply IH.
Qed.

Lemma walk_same_tree t t' node q :
  tree t' = tree t → walk t' node q = walk t node q.
Proof.
  intros Htree. revert node. induction q as [| b q IH]; intros node; [done |].
  cbn. rewrite Htree. by repeat case_match.
Qed.

Lemma prescreen_along_walk t :
  forced t = ∅ → masks t = ∅ →
  ∀ consumed rest node node' n k,
    walk t node consumed = Some node' →
    rest = [] ∨ node' ∈ dead t →
    prescreen_loop t n k (consumed ++ rest) node = inl false.
Proof.
  intros Hforced Hmasks.
  induction consumed as [| b consumed IH]; intros rest node node' n k Hwalk Hend.
  - injection Hwalk as <-. cbn.
    destruct rest as [| b rest]; [done |]. cbn.
    destruct Hend as [? | Hdead]; [done |]. by rewrite bool_decide_eq_true_2.
  - cbn in Hwalk |- *.
    case_bool_decide; [done |].
    destruct (match block_sizes t !! node with Some _ => _ | None => _ end);
      [done |].
    unfold rewrite_byte. rewrite Hforced, Hmasks, !lookup_empty. cbn.
    destruct (tree t !! node) as [[ch | ?] |]; [| done | done].
    destruct (ch !! b) as [next |]; [| done].
    by eapply IH.
Qed.

Lemma store_result_frame data node indices t :
  dead t ⊆ dead (result_trie (store_result data node indices t))
  ∧ forced (result_trie (store_result data node indices t)) = forced t
  ∧ masks (result_trie (store_result data node indices t)) = masks t
  ∧ (tree (result_trie (store_result data node indices t)) = tree t
     ∨ (node ∉ dead t)
       ∧ tree (result_trie (store_result data node indices t))
         = <[node := Leaf data]> (tree t)).
Proof.
  unfold store_result.
  destruct (negb (status_eqb (status data) OVERRUN)); cbn [andb];
    [| split_and!; try done; by left].
  case_bool_decide as Hdead; cbn [negb]; [split_and!; try done; by left |].
  destruct (_ <? _)%nat.
  - destruct (review_dead_frame (reverse indices)
                (set_tree (<[node := Leaf data]>) (set_dead (λ d, {[node]} ∪ d) t)))
      as (Htree & Hd & Hf & Hm).
    split_and!; [| done | done | right; by split].
    etrans; [| exact Hd]. cbn. apply union_subseteq_r.
  - cbn. split_and!; [apply union_subseteq_r | done | done | by left].
Qed.

(** X11.  On a tree that [update_tree] built, a result stored in the
    tree is never overwritten and a dead node stays dead: after
    recording another test case, however that ends, every leaf holds
    the data object it held before and [dead] has only grown. *)
Theorem update_tree_keeps_results (cap : nat) (data : ConjectureData) (t : Trie) :
  trie_reachable t →
  let t' := result_trie (update_tree cap data t) in
  dead t ⊆ dead t'
  ∧ ∀ n d, tree t !! n = Some (Leaf d) → tree t' !! n = Some (Leaf d).
Proof.
  intros Hreach t'. subst t'.
  destruct (trie_reachable_labelled t Hreach) as [labels Hlab].
  destruct (walk_buffer_labelled data (buffer data) 0 0%nat [] t labels [])
    as (labels' & Hlab' & Hdead & _); [done | by destruct Hlab as (_ & ? & _) |].
  pose proof (walk_buffer_keeps_leaves data (buffer data) 0 0%nat [] t) as Hleaves.
  unfold update_tree.
  destruct (walk_buffer data 0 (buffer data) 0 [] t)
    as [[[node indices] t1] | [e t1]]; cbn in Hlab', Hdead, Hleaves.
  2: { cbn. split; [by rewrite Hdead | done]. }
  set (t3 := set_dead _ (set_block_sizes _ t1)).
  assert (labelled t3 labels') as Hlab3.
  { apply (labelled_frame t1); [done | | done]. cbn. apply union_subseteq_r. }
  destruct (store_result_frame data node indices t3) as (Hd & _ & _ & Htree).
  split.
  - etrans; [| exact Hd]. subst t3. cbn. rewrite Hdead. apply union_subseteq_r.
  - intros n d Hn. specialize (Hleaves n d Hn).
    destruct Htree as [-> | [Hlive ->]]; [done |].
    rewrite list_lookup_insert_ne; [done |].
    intros <-. destruct Hlab3 as (_ & _ & _ & Hleaf).
    by destruct (Hleaf node d Hleaves) as (_ & _ & ?).
Qed.

Lemma update_tree_keeps_results_witness :
  let t' := result_trie (update_tree 32 (simple_data [1; 3] VALID) trie_with_plain) in
  dead trie_with_plain ⊆ dead t'
  ∧ ∀ n d, tree trie_with_plain !! n = Some (Leaf d) → tree t' !! n = Some (Leaf d).
Proof.
  apply (update_tree_keeps_results 32 (simple_data [1; 3] VALID) trie_with_plain).
  apply reach_update, reach_empty.
Defined.

(** X12.  A buffer that was just recorded is not run again: when no
    byte of the tree is forced or masked and [update_tree] returned,
    [prescreen_buffer] answers false for the buffer of the recorded
    data object. *)
Theorem recorded_buffer_prescreens_false (cap : nat) (data : ConjectureData)
    (t t' : Trie) :
  trie_reachable t →
  update_tree cap data t = inl (tt, t') →
  forced t' = ∅ → masks t' = ∅ →
  prescreen_buffer t' (buffer data) = inl false.
Proof.
  intros Hreach Hupdate Hforced Hmasks.
  destruct (trie_reachable_labelled t Hreach) as [labels Hlab].
  destruct (walk_buffer_labelled data (buffer data) 0 0%nat [] t labels [])
    as (labels' & Hlab' & _ & _); [done | by destruct Hlab as (_ & ? & _) |].
  unfold update_tree in Hupdate.
  destruct (walk_buffer data 0 (buffer data) 0 [] t)
    as [[[node indices] t1] | [e t1]] eqn:Hwalk; [| done].
  cbn in Hlab'.
  destruct (walk_buffer_path _ _ _ _ _ _ _ _ _ Hwalk)
    as (consumed & rest & Hbuf & Hpath & Hend).
  set (t3 := set_dead _ (set_block_sizes _ t1)) in Hupdate.
  assert (labelled t3 labels') as Hlab3.
  { apply (labelled_frame t1); [done | | done]. cbn. apply union_subseteq_r. }
  assert (walk t3 0 consumed = Some node) as Hpath3.
  { by rewrite (walk_same_tree t1 t3). }
  destruct (store_result_frame data node indices t3) as (Hd & _ & _ & Htree).
  rewrite Hupdate in Hd, Htree. cbn in Hd, Htree.
  unfold prescreen_buffer. rewrite Hbuf.
  apply (prescreen_along_walk t' Hforced Hmasks consumed rest 0%nat node).
  - destruct Htree as [Heq | [_ Heq]].
    + by rewrite (walk_same_tree t3 t').
    + rewrite (walk_same_tree (set_tree (<[node := Leaf data]>) t3) t') by done.
      eapply (walk_insert_end t3 labels'); [done | | done].
      by destruct Hlab3 as (_ & ? & _).
  - destruct Hend as [? | Hdead]; [by left | right].
    apply Hd. subst t3. cbn. by apply elem_of_union_r.
Qed.

Lemma recorded_buffer_prescreens_false_witness :
  prescreen_buffer trie_with_plain (buffer (simple_data [1; 2] VALID)) = inl false.
Proof.
  apply (recorded_buffer_prescreens_false 32 (simple_data [1; 2] VALID)
           reset_tree_to_empty trie_with_plain).
  - apply reach_empty.
  - vm_compute. reflexivity.
  - vm_compute. reflexivity.
  - vm_compute. reflexivity.
Defined.

(** X13.  On a tree that [update_tree] built, [prescreen_buffer] never
    raises: it answers true or false for every buffer. *)
Theorem prescreen_buffer_never_raises (t : Trie) (buffer : list Z) :
  trie_reachable t →
  ∃ answer, prescreen_buffer t buffer = inl answer.
Proof.
  intros Hreach.
  destruct (trie_reachable_labelled t Hreach) as [labels Hlab].
  pose proof Hlab as (Hlen & Hroot & Hedge & Hleaf).
  unfold prescreen_buffer. generalize (length buffer) as n.
  assert (∀ bs node n k, is_Some (labels !! node) →
                         ∃ answer, prescreen_loop t n k bs node = inl answer)
    as Hloop.
  { induction bs as [| b bs IH]; intros node n k Hnode; [by exists false |].
    cbn. case_bool_decide as Hdead; [by exists false |].
    destruct (match block_sizes t !! node with Some _ => _ | None => _ end);
      [by exists false |].
    destruct (lookup_lt_is_Some_2 (tree t) node) as [nd Hnd].
    { rewrite <- Hlen. by apply lookup_lt_is_Some_1. }
    rewrite Hnd. destruct nd as [ch | d].
    2: { by destruct (Hleaf node d Hnd) as (_ & _ & ?). }
    destruct (ch !! rewrite_byte t node b) as [next |] eqn:Hb; [| by exists true].
    apply IH. destruct (Hedge node ch _ next Hnd Hb) as (l & _ & Hnext). done. }
  intros n. apply Hloop. by rewrite Hroot.
Qed.

Lemma prescreen_buffer_never_raises_witness :
  ∃ answer, prescreen_buffer trie_with_plain [1; 7; 7] = inl answer.
Proof.
  apply (prescreen_buffer_never_raises trie_with_plain [1; 7; 7]).
  apply reach_update, reach_empty.
Defined.

(** ** More on generate_novel_prefix *)






(** ** More on test_function *)

(** X15.  Whenever [test_function] ends the run, it has recorded the
    reason and the condition of that exit holds: [max_shrinks] only
    with an interesting example, [timeout] only when the timeout check
    fired, [max_examples] and [max_iterations] only without an
    interesting example and with the budget used up, [finished] only
    when the root of the tree is dead, and never [flaky]. *)
Theorem test_function_exit_reason (data : ConjectureData) (how : TestOutcome)
    (now_before now_after : Z) (st st' : ConjectureRunner) :
  test_function data how now_before now_after st = Abort RunIsComplete st' →
  ∃ reason,
    exit_reason st' = Some reason
    ∧ match reason with
      | ExitReason.max_shrinks => interesting_examples st' ≠ ∅
      | ExitReason.timeout => timeout_fires st now_after = true
      | ExitReason.max_examples =>
          interesting_examples st' = ∅
          ∧ (max_examples (settings st) ≤ valid_examples st')%nat
      | ExitReason.max_iterations =>
          interesting_examples st' = ∅
          ∧ (Nat.max (max_examples (settings st) * 10) 1000 ≤ call_count st')%nat
      | ExitReason.finished => 0%nat ∈ dead (trie st')
      | ExitReason.flaky => False
      end.
Proof.
  intros Hexit.
  destruct (test_function_phases data how now_before now_after st)
    as [(e & s & Heq & He) | (s2 & Hset & Hstart & Heq)]; rewrite Heq in Hexit.
  { by injection Hexit as -> _. }
  destruct (check_exits_reason data now_after s2 st' Hexit) as (reason & Hr & Hcond).
  exists reason. split; [done |].
  unfold timeout_fires in *. rewrite Hset, Hstart in Hcond. done.
Qed.

Lemma test_function_exit_reason_witness :
  let st' := final_state
               (test_function (simple_data [1] VALID) Returns 0 0 untimed_runner) in
  ∃ reason,
    exit_reason st' = Some reason
    ∧ match reason with
      | ExitReason.max_shrinks => interesting_examples st' ≠ ∅
      | ExitReason.timeout => timeout_fires untimed_runner 0 = true
      | ExitReason.max_examples =>
          interesting_examples st' = ∅
          ∧ (max_examples (settings untimed_runner) ≤ valid_examples st')%nat
      | ExitReason.max_iterations =>
          interesting_examples st' = ∅
          ∧ (Nat.max (max_examples (settings untimed_runner) * 10) 1000
             ≤ call_count st')%nat
      | ExitReason.finished => 0%nat ∈ dead (trie st')
      | ExitReason.flaky => False
      end.
Proof.
  apply (test_function_exit_reason (simple_data [1] VALID) Returns 0 0
           untimed_runner).
  vm_compute. reflexivity.
Defined.

Lemma status_eqb_eq (a b : Status) : status_eqb a b = true → a = b.
Proof. by destruct a, b. Qed.

Lemma call_test_function_counts data how now st :
  let o := call_test_function data how now st in
  (o = Abort (FailedHealthCheck HealthCheck.hung_test) st
   ∨ call_count (final_state o) = S (call_count st))
  ∧ (valid_examples (final_state o) = valid_examples st
     ∧ (status data = VALID → ∀ s, o ≠ Normal tt s)
     ∨ valid_examples (final_state o) = S (valid_examples st)
       ∧ status data = VALID
       ∧ call_count (final_state o) = S (call_count st)).
Proof.
  unfold call_test_function, with_state, when, fail_health_check, save_buffer,
    target_selector_add, modify, raise, mbind, M_bind, bind, mret, M_ret, ret.
  destruct (status_eqb (status data) VALID) eqn:Hvalid.
  - apply status_eqb_eq in Hvalid.
    repeat case_match; simplify_eq; cbn; split; auto; left; split; try done;
      intros _ s; done.
  - assert (status data ≠ VALID) as Hne by (intros Heq; by rewrite Heq in Hvalid).
    repeat case_match; simplify_eq; cbn; split; auto; left; split; done.
Qed.

Lemma counters_kept_after_call data now c v :
  preserves (λ s, call_count s = c ∧ valid_examples s = v) (record_in_tree data)
  ∧ preserves (λ s, call_count s = c ∧ valid_examples s = v) (check_exits data now).
Proof.
  split.
  - unfold record_in_tree. preserves_steps.
    + apply preserves_modify. by intros s Hs.
    + intros s Hs. unfold lift_trie. by repeat case_match.
  - unfold check_exits, record_interesting, update_interesting, check_timeout,
      check_budget, check_exhausted, record_for_health_check, save_buffer,
      downgrade_buffer.
    preserves_steps.
    all: try (apply preserves_modify; intros s Hs; cbn in *; by repeat case_match).
    all: by intros s Hs.
Qed.

(** X16.  [test_function] counts every call once: [call_count] grows by
    one unless the hung-test health check raised before the call.
    [valid_examples] grows by at most one, and only for a VALID data
    object in a call that was counted; when the method returns for a
    VALID data object it has grown.  So [valid_examples] never exceeds
    [call_count]. *)
Theorem test_function_counts (data : ConjectureData) (how : TestOutcome)
    (now_before now_after : Z) (st : ConjectureRunner) :
  let o := test_function data how now_before now_after st in
  let st' := final_state o in
  (o = Abort (FailedHealthCheck HealthCheck.hung_test) st
   ∨ call_count st' = S (call_count st))
  ∧ (valid_examples st' = valid_examples st
     ∨ valid_examples st' = S (valid_examples st)
       ∧ status data = VALID
       ∧ call_count st' = S (call_count st))
  ∧ (status data = VALID → o = Normal tt st' →
     valid_examples st' = S (valid_examples st))
  ∧ ((valid_examples st ≤ call_count st)%nat →
     (valid_examples st' ≤ call_count st')%nat).
Proof.
  intros o st'. subst st' o.
  destruct (call_test_function_counts data how now_before st) as [Hcount Hvalid].
  unfold test_function, mbind, M_bind, bind.
  destruct (call_test_function data how now_before st) as [[] s1 | e s1] eqn:Hcall;
    cbn in Hcount, Hvalid.
  2: { cbn. split_and!.
       - done.
       - destruct Hvalid as [[? _] | ?]; [by left | by right].
       - done.
       - destruct Hcount as [[= -> ->] | ?]; [done |].
         destruct Hvalid as [[? _] | (? & _ & ?)]; lia. }
  destruct (counters_kept_after_call data now_after (call_count s1)
              (valid_examples s1)) as [Htree Hexits].
  assert (call_count (final_state
            (match record_in_tree data s1 with
             | Normal a s2 => check_exits data now_after s2
             | Abort e s2 => Abort e s2
             end)) = call_count s1
          ∧ valid_examples (final_state
              (match record_in_tree data s1 with
               | Normal a s2 => check_exits data now_after s2
               | Abort e s2 => Abort e s2
               end)) = valid_examples s1) as [Hc Hv].
  { specialize (Htree s1 (conj eq_refl eq_refl)).
    destruct (record_in_tree data s1) as [[] s2 | e s2]; cbn in Htree |- *;
      [| done].
    by apply Hexits. }
  rewrite Hc, Hv.
  destruct Hcount as [? | Hcount]; [done |].
  split_and!.
  - by right.
  - destruct Hvalid as [[? _] | ?]; [by left | by right].
  - intros Hstatus _. destruct Hvalid as [[_ Hno] | (? & _)]; [| done].
    by destruct (Hno Hstatus s1).
  - destruct Hvalid as [[? _] | (? & _ & ?)]; lia.
Qed.

Lemma test_function_counts_witness :
  let st' := final_state
               (test_function (simple_data [1] VALID) Returns 0 0 fresh_runner) in
  valid_examples st' = S (valid_examples fresh_runner)
  ∧ (valid_examples st' ≤ call_count st')%nat.
Proof.
  destruct (test_function_counts (simple_data [1] VALID) Returns 0 0 fresh_runner)
    as (_ & _ & Hvalid & Hle).
  split.
  - apply Hvalid; [reflexivity | vm_compute; reflexivity].
  - apply Hle. cbn. lia.
Defined.

(** ** interesting_examples *)

Lemma interesting_step_frame data old s s' :
  interesting_examples s' = interesting_examples s →
  interesting_step data old s → interesting_step data old s'.
Proof. unfold interesting_step. by intros ->. Qed.

Lemma update_interesting_map data st :
  let key := interesting_origin data in
  let st1 := final_state (update_interesting data st) in
  match interesting_examples st !! key with
  | Some existing =>
      if sort_key_ltb (sort_key (buffer data)) (sort_key (buffer existing))
      then interesting_examples st1 = <[key := data]> (interesting_examples st)
      else interesting_examples st1 = interesting_examples st
  | None => interesting_examples st1 = <[key := data]> (interesting_examples st)
  end.
Proof.
  unfold update_interesting, with_state, save_buffer, downgrade_buffer,
    mbind, M_bind, bind, when, modify, mret, M_ret, ret.
  repeat case_match; simplify_eq; cbn; done.
Qed.

Lemma update_interesting_step data old st :
  status data = INTERESTING →
  interesting_step data old st →
  interesting_step data old (final_state (update_interesting data st)).
Proof.
  intros Hstatus [Hnew Hold].
  pose proof (update_interesting_map data st) as Hmap. cbv zeta in Hmap.
  unfold interesting_step.
  set (st1 := final_state (update_interesting data st)) in *. clearbody st1.
  assert (interesting_examples st1 = interesting_examples st
          ∨ interesting_examples st1
            = <[interesting_origin data := data]> (interesting_examples st)
            ∧ ∀ d, old !! interesting_origin data = Some d →
                   sort_key_ltb (sort_key (buffer data)) (sort_key (buffer d))
                   = true) as [-> | [-> Hlt]].
  { destruct (interesting_examples st !! interesting_origin data) as [existing |]
      eqn:Hkey.
    - destruct (sort_key_ltb _ _) eqn:Hlt; [right | by left].
      split; [done |]. intros d Hk.
      destruct (Hold _ _ Hk) as (d' & Hd' & Hcase).
      assert (d' = existing) as -> by congruence.
      by destruct Hcase as [-> | [_ ?]].
    - right. split; [done |]. intros d Hk.
      destruct (Hold _ _ Hk) as (d' & Hd' & _). congruence. }
  { by split. }
  split.
  - intros k d'.
    destruct (decide (k = interesting_origin data)) as [-> | Hne].
    + rewrite lookup_insert_eq. intros [= <-]. by right.
    + rewrite lookup_insert_ne by done. apply Hnew.
  - intros k d Hk.
    destruct (decide (k = interesting_origin data)) as [-> | Hne].
    + rewrite lookup_insert_eq. exists data. split; [done |].
      right. split; [done |]. by apply Hlt.
    + rewrite lookup_insert_ne by done. by apply Hold.
Qed.

Lemma test_function_interesting_step data how now_before now_after old :
  preserves (interesting_step data old)
            (test_function data how now_before now_after).
Proof.
  assert (∀ f : ConjectureRunner → ConjectureRunner,
            (∀ s, interesting_examples (f s) = interesting_examples s) →
            preserves (interesting_step data old) (modify f)) as Hmodify.
  { intros f Hf. apply preserves_modify. intros s Hs.
    by apply (interesting_step_frame data old s). }
  unfold test_function, call_test_function, record_in_tree, check_exits.
  apply preserves_bind; [| intros ?; apply preserves_bind; [| intros ?]].
  - unfold save_buffer. preserves_steps.
    all: try (apply Hmodify; intros s; by repeat case_match).
    intros s Hs. unfold target_selector_add. by repeat case_match.
  - preserves_steps.
    + apply Hmodify. by intros s.
    + intros s Hs. unfold lift_trie. by repeat case_match.
  - unfold record_interesting.
    apply preserves_bind; [| intros ?].
    + destruct (status_eqb (status data) INTERESTING) eqn:Hstatus; cbn [when];
        [| apply preserves_ret].
      apply status_eqb_eq in Hstatus.
      apply preserves_bind; [| intros ?].
      * intros s Hs. by apply update_interesting_step.
      * preserves_steps. by intros s Hs.
    + unfold check_timeout, check_budget, check_exhausted,
        record_for_health_check.
      preserves_steps.
      all: try (apply Hmodify; intros s; by repeat case_match).
      all: by intros s Hs.
Qed.

(** X17.  [test_function] never drops an interesting example and only
    replaces one by a smaller one: every origin that had an entry in
    [interesting_examples] still has one after the call, which is the
    old data object or the one just run, and then the sort key of its
    buffer is below that of the old one.  If every entry was
    INTERESTING and filed under its own origin before the call, that
    still holds after it. *)
Theorem interesting_examples_only_shrink (data : ConjectureData)
    (how : TestOutcome) (now_before now_after : Z) (st : ConjectureRunner) :
  let st' := final_state (test_function data how now_before now_after st) in
  (∀ k d, interesting_examples st !! k = Some d →
          ∃ d', interesting_examples st' !! k = Some d'
                ∧ (d' = d
                   ∨ (d' = data
                      ∧ sort_key_ltb (sort_key (buffer data))
                                     (sort_key (buffer d)) = true)))
  ∧ (interesting_ok st → interesting_ok st').
Proof.
  intros st'. subst st'.
  destruct (test_function_interesting_step data how now_before now_after
              (interesting_examples st) st) as [Hnew Hold].
  { split; [by left |]. intros k d Hk. exists d. split; [done | by left]. }
  split; [done |].
  intros Hok k d Hk. destruct (Hnew k d Hk) as [Hbefore | (-> & ? & ?)]; [| done].
  by apply Hok.
Qed.

(** The runner holds the interesting example [failed_once], with
    buffer [1]; an INTERESTING test case with buffer [0] is run. *)
Lemma interesting_examples_only_shrink_witness :
  let data := simple_data [0] INTERESTING in
  let st' := final_state (test_function data Returns 0 0 runner_with_failure) in
  interesting_examples runner_with_failure !! 0%nat = Some failed_once
  ∧ (∃ d', interesting_examples st' !! 0%nat = Some d'
           ∧ (d' = failed_once
              ∨ (d' = data
                 ∧ sort_key_ltb (sort_key (buffer data))
                                (sort_key (buffer failed_once)) = true)))
  ∧ interesting_ok st'.
Proof.
  intros data st'.
  assert (interesting_examples runner_with_failure = {[0%nat := failed_once]})
    as Hmap by (vm_compute; reflexivity).
  destruct (interesting_examples_only_shrink data Returns 0 0 runner_with_failure)
    as [Hkeep Hok].
  split_and!.
  - rewrite Hmap. apply lookup_singleton_eq.
  - apply Hkeep. rewrite Hmap. apply lookup_singleton_eq.
  - apply Hok. intros k d. rewrite Hmap.
    intros [<- <-]%lookup_singleton_Some. done.
Defined.

(** ** record_for_health_check *)

Lemma record_for_health_check_cases data st :
  health_ok st →
  let o := record_for_health_check data st in
  health_ok (final_state o)
  ∧ (∀ e s, o = Abort e s →
            ∃ label, e = FailedHealthCheck label
                     ∧ label ∉ suppress_health_check (settings st))
  ∧ (health_check_state st = None →
     health_check_state (final_state o) = None ∧ ∃ s, o = Normal tt s).
Proof.
  intros Hok. unfold record_for_health_check, with_state, when, modify, raise,
    fail_health_check, mbind, M_bind, bind, mret, M_ret, ret, health_ok.
  destruct (status data) eqn:Hstatus; cbn [status_eqb status_value Z.eqb].
  all: destruct (health_check_state st) as [[v i o dt] |] eqn:Hhs; cbn.
  all: rewrite ?Hhs; cbn.
  all: try (split_and!; [by intros ? [=] | by intros ? ? [=] | by eauto]).
  all: try (split_and!; [intros ?; rewrite Hhs; by intros [=]
                         | by intros ? ? [=] | by eauto]).
  all: pose proof (Hok _ Hhs) as Hlt; cbn in Hlt.
  all: match goal with
       | |- context [negb (?a <=? 10)%nat] =>
           replace (a <=? 10)%nat with true by (symmetry; apply Nat.leb_le; lia)
       end; cbn [negb].
  all: destruct (_ =? 10)%nat eqn:H10; [apply Nat.eqb_eq in H10 | apply Nat.eqb_neq in H10].
  all: repeat match goal with
              | |- context [if ?b then _ else _] => destruct b eqn:?
              end; cbn.
  all: split_and!; try congruence.
  all: try (by intros ? [=]).
  all: try (by intros ? ? [=]).
  all: try (intros ? [= <-]; cbn; lia).
  all: intros e s [= <- <-]; eexists; split; [done |].
  all: match goal with
       | H : bool_decide (?l ∈ _) = false |- ?l ∉ _ =>
           by apply bool_decide_eq_false in H
       end.
Qed.

Lemma test_function_health_ok data how now_before now_after :
  preserves health_ok (test_function data how now_before now_after).
Proof.
  assert (∀ f : ConjectureRunner → ConjectureRunner,
            (∀ s, health_check_state (f s) = health_check_state s) →
            preserves health_ok (modify f)) as Hmodify.
  { intros f Hf. apply preserves_modify. intros s Hs hs. rewrite Hf. apply Hs. }
  unfold test_function, call_test_function, record_in_tree, check_exits.
  apply preserves_bind; [| intros ?; apply preserves_bind; [| intros ?]].
  - unfold save_buffer. preserves_steps.
    all: try (apply Hmodify; intros s; by repeat case_match).
    intros s Hs. unfold target_selector_add. by repeat case_match.
  - preserves_steps.
    + apply Hmodify. by intros s.
    + intros s Hs. unfold lift_trie. by repeat case_match.
  - unfold record_interesting, update_interesting, check_timeout, check_budget,
      check_exhausted, save_buffer, downgrade_buffer.
    preserves_steps.
    all: try (apply Hmodify; intros s; by repeat case_match).
    all: try (by intros s Hs).
    intros s Hs. by apply record_for_health_check_cases.
Qed.

(** X18.  While the health checks run with fewer than ten valid
    examples counted, [record_for_health_check] never fails its
    assertion: it raises nothing but a failed health check, and only
    one that is not suppressed.  The count stays below ten, because the
    checks are switched off when it reaches ten; once they are off the
    method returns and they stay off.  The whole of [test_function]
    keeps the count below ten as well. *)
Theorem record_for_health_check_safe (data : ConjectureData)
    (st : ConjectureRunner) :
  health_ok st →
  let o := record_for_health_check data st in
  health_ok (final_state o)
  ∧ (∀ e s, o = Abort e s →
            ∃ label, e = FailedHealthCheck label
                     ∧ label ∉ suppress_health_check (settings st))
  ∧ (health_check_state st = None →
     health_check_state (final_state o) = None ∧ ∃ s, o = Normal tt s)
  ∧ ∀ how now_before now_after,
      health_ok (final_state (test_function data how now_before now_after st)).
Proof.
  intros Hok o. subst o.
  destruct (record_for_health_check_cases data st Hok) as (H1 & H2 & H3).
  split_and!; [done | done | done |].
  intros how now_before now_after. by apply test_function_health_ok.
Qed.

Lemma record_for_health_check_safe_witness :
  let data := simple_data [1] VALID in
  let o := record_for_health_check data checking_runner in
  health_ok (final_state o)
  ∧ (∀ e s, o = Abort e s →
            ∃ label, e = FailedHealthCheck label
                     ∧ label ∉ suppress_health_check (settings checking_runner))
  ∧ (health_check_state checking_runner = None →
     health_check_state (final_state o) = None ∧ ∃ s, o = Normal tt s)
  ∧ ∀ how now_before now_after,
      health_ok (final_state
                   (test_function data how now_before now_after checking_runner)).
Proof.
  apply (record_for_health_check_safe (simple_data [1] VALID) checking_runner).
  intros hs [= <-]. cbn. lia.
Defined.

(** ** When test_function returns *)

Lemma record_for_health_check_keeps_tree data st :
  trie (final_state (record_for_health_check data st)) = trie st
  ∧ shrinks (final_state (record_for_health_check data st)) = shrinks st.
Proof.
  assert (preserves (λ s, trie s = trie st ∧ shrinks s = shrinks st)
                    (record_for_health_check data)) as Hkeep.
  { unfold record_for_health_check. preserves_steps.
    all: apply preserves_modify; intros s0 Hs0; exact Hs0. }
  by apply Hkeep.
Qed.

(** X19.  When [test_function] returns, none of its exits applied: the
    root of the tree is not dead, the timeout check did not fire, the
    budget is not used up unless an interesting example is known, and
    after an INTERESTING data object the shrink limit is not
    reached. *)
Theorem test_function_returns_within_budget (data : ConjectureData)
    (how : TestOutcome) (now_before now_after : Z) (st st' : ConjectureRunner) :
  test_function data how now_before now_after st = Normal tt st' →
  (0%nat ∉ dead (trie st'))
  ∧ timeout_fires st now_after = false
  ∧ (interesting_examples st' = ∅ →
     (valid_examples st' < max_examples (settings st))%nat
     ∧ (call_count st' < Nat.max (max_examples (settings st) * 10) 1000)%nat)
  ∧ (status data = INTERESTING → (shrinks st' < MAX_SHRINKS)%nat).
Proof.
  intros Hreturn.
  destruct (test_function_phases data how now_before now_after st)
    as [(e & s & Heq & He) | (s2 & Hset & Hstart & Heq)]; rewrite Heq in Hreturn;
    [done |].
  rewrite check_exits_cases in Hreturn.
  destruct (interesting_view data s2) as (Hset1 & Hstart1 & _).
  set (st1 := if status_eqb (status data) INTERESTING
              then final_state (update_interesting data s2) else s2) in *.
  assert (timeout_fires st1 now_after = timeout_fires st now_after) as Hfires.
  { unfold timeout_fires. by rewrite Hset1, Hstart1, Hset, Hstart. }
  rewrite Hset1, Hset, Hfires in Hreturn. unfold exit_with in Hreturn.
  destruct (status_eqb (status data) INTERESTING && _) eqn:Hshrinks; [done |].
  destruct (timeout_fires st now_after) eqn:Hto; [done |].
  destruct (bool_decide (interesting_examples st1 = ∅)
            && (_ <=? valid_examples st1)%nat) eqn:Hmax; [done |].
  destruct (bool_decide (interesting_examples st1 = ∅)
            && (_ <=? call_count st1)%nat) eqn:Hiter; [done |].
  destruct (bool_decide (0%nat ∈ dead (trie st1))) eqn:Hdead; [done |].
  pose proof (record_for_health_check_frame data st1) as (_ & _ & Hv & Hc & Hi & _).
  pose proof (record_for_health_check_keeps_tree data st1) as [Ht Hs].
  rewrite Hreturn in Hv, Hc, Hi, Ht, Hs. cbn in Hv, Hc, Hi, Ht, Hs.
  rewrite Hv, Hc, Hi, Ht, Hs.
  apply bool_decide_eq_false in Hdead.
  split_and!; [done | done | |].
  - intros Hempty. rewrite Hempty in Hmax, Hiter.
    rewrite bool_decide_eq_true_2 in Hmax, Hiter by done.
    cbn in Hmax, Hiter. apply Nat.leb_gt in Hmax, Hiter. done.
  - intros Hstatus. rewrite Hstatus in Hshrinks. cbn in Hshrinks.
    by apply Nat.leb_gt in Hshrinks.
Qed.

Lemma test_function_returns_within_budget_witness :
  let st' := final_state
               (test_function (simple_data [1] VALID) Returns 0 0 fresh_runner) in
  (0%nat ∉ dead (trie st'))
  ∧ timeout_fires fresh_runner 0 = false
  ∧ (interesting_examples st' = ∅ →
     (valid_examples st' < max_examples (settings fresh_runner))%nat
     ∧ (call_count st'
        < Nat.max (max_examples (settings fresh_runner) * 10) 1000)%nat)
  ∧ (status (simple_data [1] VALID) = INTERESTING → (shrinks st' < MAX_SHRINKS)%nat).
Proof.
  apply (test_function_returns_within_budget (simple_data [1] VALID) Returns 0 0
           fresh_runner).
  vm_compute. reflexivity.
Defined.

(** ** prescreen_buffer against cached_test_function *)

Lemma call_test_function_hung data how now st :
  (hung_test_fails st now = true →
   call_test_function data how now st
   = Abort (FailedHealthCheck HealthCheck.hung_test) st)
  ∧ (hung_test_fails st now = false →
     call_count (final_state (call_test_function data how now st))
     = S (call_count st)).
Proof.
  unfold hung_test_fails, call_test_function, with_state, when,
    fail_health_check, save_buffer, target_selector_add, modify, raise,
    mbind, M_bind, bind, mret, M_ret, ret.
  destruct (HUNG_TEST_TIME_LIMIT <=? now - start_time st); cbn [andb].
  - destruct (bool_decide (HealthCheck.hung_test ∈ _)); cbn [negb];
      (split; [try done | try done]); intros _;
      repeat case_match; simplify_eq; done.
  - split; [done |]. intros _. repeat case_match; simplify_eq; done.
Qed.

Lemma test_function_call_count data how now_before now_after st :
  (hung_test_fails st now_before = true →
   test_function data how now_before now_after st
   = Abort (FailedHealthCheck HealthCheck.hung_test) st)
  ∧ (hung_test_fails st now_before = false →
     call_count (final_state (test_function data how now_before now_after st))
     = S (call_count st)).
Proof.
  destruct (call_test_function_hung data how now_before st) as [Hfails Hpasses].
  unfold test_function, mbind, M_bind, bind. split.
  - intros Hhung. by rewrite (Hfails Hhung).
  - intros Hhung. specialize (Hpasses Hhung).
    destruct (call_test_function data how now_before st) as [[] s1 | e s1];
      cbn in Hpasses; [| done].
    destruct (counters_kept_after_call data now_after (call_count s1)
                (valid_examples s1)) as [Htree Hexits].
    specialize (Htree s1 (conj eq_refl eq_refl)).
    destruct (record_in_tree data s1) as [[] s2 | e s2]; cbn in Htree |- *.
    + destruct (Hexits s2 Htree) as [-> _]. done.
    + destruct Htree as [-> _]. done.
Qed.

(** C3, amended.  The implication holds the other way round.  Whenever
    [cached_test_function(b)] returns a stored result, it has not
    called [test_function], the runner is as it was, and
    [prescreen_buffer(b)] is false.  Whenever [prescreen_buffer(b)] is
    true, the traversal of [cached_test_function(b)] finds no stored
    result and [test_function] is called on a fresh data object for
    [b]; that call runs the user test function, counted by
    [call_count], unless the hung-test health check at its start
    raises, which ends [cached_test_function] before the user test
    function is run. *)
Theorem cache_hit_implies_prescreen_false (user : UserFunction) (b : list Z)
    (st : ConjectureRunner) :
  reachable_trie st →
  let result := user (call_count st) b in
  let o := cached_test_function user b st in
  (∀ d, cached_lookup (trie st) b = inl (Hit d) →
        o = Normal d st ∧ prescreen_buffer (trie st) b = inl false)
  ∧ (prescreen_buffer (trie st) b = inl true →
     cached_lookup (trie st) b = inl Miss
     ∧ o = (run_execution result ;; ret (exec_data result)) st
     ∧ (hung_test_fails st (exec_before result) = false →
        call_count (final_state o) = S (call_count st))
     ∧ (hung_test_fails st (exec_before result) = true →
        o = Abort (FailedHealthCheck HealthCheck.hung_test) st)).
Proof.
  intros Hreach result o. subst o.
  destruct (trie_reachable_labelled (trie st) Hreach) as [labels Hlab].
  unfold cached_test_function, with_state. split.
  - intros d Hhit. rewrite Hhit. split; [done |].
    by eapply prescreen_false_after_hit.
  - intros Htrue.
    pose proof (prescreen_true_misses (trie st) b 0%nat (length b) 0%nat Htrue)
      as Hmiss.
    fold (cached_lookup (trie st) b) in Hmiss. rewrite Hmiss.
    split; [done |]. split; [done |].
    destruct (test_function_call_count (exec_data result) (exec_how result)
                (exec_before result) (exec_after result) st) as [Hfails Hpasses].
    fold result. unfold run_execution, mbind, M_bind, bind. split.
    + intros Hhung. specialize (Hpasses Hhung).
      by destruct (test_function _ _ _ _ st).
    + intros Hhung. by rewrite (Hfails Hhung).
Qed.

(** After the buffer [1; 2] was tested, the buffer [4] is new:
    [prescreen_buffer] is true, and [cached_test_function] runs the
    user test function. *)
Lemma cache_hit_implies_prescreen_false_witness :
  prescreen_buffer (trie runner_with_two) [4] = inl true
  ∧ call_count (final_state (cached_test_function always_overrun [4] runner_with_two))
    = S (call_count runner_with_two).
Proof.
  split; [vm_compute; reflexivity |].
  destruct (cache_hit_implies_prescreen_false always_overrun [4] runner_with_two)
    as [_ Htrue].
  - apply (test_function_reachable_trie drew_two Returns 0 0 fresh_runner).
    apply reach_empty.
  - destruct Htrue as (_ & _ & Hcount & _); [vm_compute; reflexivity |].
    apply Hcount. vm_compute. reflexivity.
Defined.

(** C3 as stated fails, in three ways.  A buffer that ends before a
    leaf: after [1; 2] was tested, [1] is a proper prefix of a tested
    buffer.  A buffer too short for a recorded block: after a block of
    two bytes was drawn at the start, the buffer [3] has one byte.  A
    buffer that passes a dead node that is not a leaf: the node of
    [0; 0] was marked dead by the cap, and [0; 0; 5] goes through it.
    Each time [prescreen_buffer] is false, yet [cached_test_function]
    finds no stored result and runs the test function, as the rise of
    [call_count] shows. *)
Lemma prescreen_false_but_test_function_called :
  (prescreen_buffer (trie runner_with_two) [1] = inl false
   ∧ cached_lookup (trie runner_with_two) [1] = inl Miss
   ∧ call_count (final_state (cached_test_function always_overrun [1] runner_with_two))
     = S (call_count runner_with_two))
  ∧ (prescreen_buffer (trie runner_with_pair) [3] = inl false
     ∧ block_sizes (trie runner_with_pair) !! 0%nat = Some 2
     ∧ cached_lookup (trie runner_with_pair) [3] = inl Miss
     ∧ call_count
         (final_state (cached_test_function always_overrun [3] runner_with_pair))
       = S (call_count runner_with_pair))
  ∧ (prescreen_buffer (trie (stuck_runner example_random)) [0; 0; 5] = inl false
     ∧ walk (trie (stuck_runner example_random)) 0 [0; 0] = Some 2%nat
     ∧ 2%nat ∈ dead (trie (stuck_runner example_random))
     ∧ (∃ children,
          tree (trie (stuck_runner example_random)) !! 2%nat = Some (Branch children))
     ∧ cached_lookup (trie (stuck_runner example_random)) [0; 0; 5] = inl Miss
     ∧ call_count
         (final_state
            (cached_test_function always_overrun [0; 0; 5]
               (stuck_runner example_random)))
       = S (call_count (stuck_runner example_random))).
Proof.
  split_and!; try (vm_compute; done).
  eexists. vm_compute. reflexivity.
Qed.

(** ** reuse_existing_examples, the replay *)





